(** * doris-vectorized: ColumnString, Field and the MySQL result writer

    A shallow embedding of
      - class ColumnString (be/src/vec/columns/column_string.h),
      - class Field and its helpers (vec/core/field.h, which follows
        ColumnString in the same source file),
      - class MysqlResultWriter (runtime/mysql_result_writer.cpp),
    followed by the properties of these three components.

    Conventions.  A [size_t] or [UInt64] is a [Z] whose arithmetic is wrapped
    with [wrap64]; an [ssize_t] is obtained with [to_ssize].  A C++ statement
    that reads or writes outside an array, or that reinterprets storage of
    the wrong type, has no defined result: such a step yields [Undefined].
    A [throw] yields [Throw].  Everything else yields [Ok]. *)

From Stdlib Require Import ZArith Lia Bool Strings.Byte String DecimalString.
From stdpp Require Import base list.

Open Scope Z_scope.

(** ** Exceptions and outcomes *)

(** namespace ErrorCodes: the codes are [extern const int]; only their
    identity matters here. *)
Inductive ErrorCode : Set :=
| BAD_TYPE_OF_FIELD
| BAD_GET
| NOT_IMPLEMENTED
| LOGICAL_ERROR
| ILLEGAL_TYPE_OF_ARGUMENT.

Record Exception : Set := mkException { message : string; code : ErrorCode }.

Inductive outcome (A : Type) : Type :=
| Ok (a : A)
| Throw (e : Exception)
| Undefined.

Arguments Ok {A} a.
Arguments Throw {A} e.
Arguments Undefined {A}.

#[global] Instance outcome_ret : MRet outcome := fun _ a => Ok a.

#[global] Instance outcome_bind : MBind outcome := fun _ _ f m =>
  match m with
  | Ok a => f a
  | Throw e => Throw e
  | Undefined => Undefined
  end.


Definition throws {A} (m : outcome A) : bool :=
  match m with Throw _ => true | _ => false end.

(** ** Machine integers *)

Definition wrap64 (z : Z) : Z := z mod 2 ^ 64.
Definition wrap128 (z : Z) : Z := z mod 2 ^ 128.
Definition wrap32 (z : Z) : Z := z mod 2 ^ 32.

(** Two's complement reading of a pattern of [w] bits. *)
Definition signed (w : Z) (z : Z) : Z := (z + 2 ^ (w - 1)) mod 2 ^ w - 2 ^ (w - 1).

(** [size_t] to [ssize_t]. *)
Definition to_ssize (z : Z) : Z := signed 64 z.

(** The largest size of an object in memory; every array is shorter. *)
Definition PTRDIFF_MAX : Z := 2 ^ 63 - 1.

(** ** IEEE-754 binary64 comparisons on bit patterns

    [Float64] is [double]; a value is kept as its 64 bits.  [<], [<=] and
    [==] of the language are the IEEE comparisons: a NaN compares false with
    everything, the two zeros are equal. *)
Module Float64.
Definition exponent (b : Z) : Z := (wrap64 b / 2 ^ 52) mod 2 ^ 11.
Definition mantissa (b : Z) : Z := wrap64 b mod 2 ^ 52.
Definition sign (b : Z) : bool := Z.testbit (wrap64 b) 63.
Definition is_nan (b : Z) : bool := (exponent b =? 2047) && negb (mantissa b =? 0).

(** Sign and magnitude as one ordered integer; both zeros give 0. *)
Definition key (b : Z) : Z :=
  let m := wrap64 b mod 2 ^ 63 in if sign b then - m else m.

Definition lt (a b : Z) : bool := negb (is_nan a) && negb (is_nan b) && (key a <? key b).
Definition le (a b : Z) : bool := negb (is_nan a) && negb (is_nan b) && (key a <=? key b).
Definition eq (a b : Z) : bool := negb (is_nan a) && negb (is_nan b) && (key a =? key b).

Definition pos_zero : Z := 0.
Definition neg_zero : Z := 2 ^ 63.
Definition one : Z := 0x3FF0000000000000.
Definition quiet_nan : Z := 0x7FF8000000000000.
End Float64.

(** ** std::string and std::vector comparisons *)

(** [String] is [std::string]: a sequence of bytes. *)
Definition String : Set := list byte.

(** [std::string::operator<], [<=]: lexicographic on unsigned bytes. *)
Fixpoint String_lt (x y : String) : bool :=
  match x, y with
  | _, [] => false
  | [], _ :: _ => true
  | a :: x', b :: y' =>
      if (Byte.to_N a <? Byte.to_N b)%N then true
      else if (Byte.to_N b <? Byte.to_N a)%N then false
      else String_lt x' y'
  end.

Definition String_le (x y : String) : bool := negb (String_lt y x).

Fixpoint String_eq (x y : String) : bool :=
  match x, y with
  | [], [] => true
  | a :: x', b :: y' => Byte.eqb a b && String_eq x' y'
  | _, _ => false
  end.

Section vector_compare.
Context {A : Type}.

(** [std::lexicographical_compare] over [operator<] of the elements.
    [less2 x y] gives both [x < y] and [y < x]; the result gives both
    [xs < ys] and [ys < xs].  (The second direction is there so that the
    comparison of Fields can recurse on its first argument only.) *)
Variable less2 : A -> A -> outcome bool * outcome bool.

Fixpoint lexicographical_compare2 (xs ys : list A)
  : outcome bool * outcome bool :=
  match xs, ys with
  | [], [] => (Ok false, Ok false)
  | [], _ :: _ => (Ok true, Ok false)
  | _ :: _, [] => (Ok false, Ok true)
  | x :: xs', y :: ys' =>
      let xy := fst (less2 x y) in
      let yx := snd (less2 x y) in
      let rest := lexicographical_compare2 xs' ys' in
      (c1 ← xy; if c1 : bool then Ok true else
       c2 ← yx; if c2 : bool then Ok false else fst rest,
       c1 ← yx; if c1 : bool then Ok true else
       c2 ← xy; if c2 : bool then Ok false else snd rest)
  end.

(** [std::equal] over [operator==] of the elements, for equal sizes. *)
Variable equal1 : A -> A -> outcome bool.

Fixpoint std_equal (xs ys : list A) : outcome bool :=
  match xs, ys with
  | [], _ => Ok true
  | x :: xs', y :: ys' =>
      c ← equal1 x y; if c : bool then std_equal xs' ys' else Ok false
  | _ :: _, [] => Undefined
  end.

(** [std::vector::operator==]: sizes first, then the elements. *)
Definition vector_eq (xs ys : list A) : outcome bool :=
  if Nat.eqb (length xs) (length ys) then std_equal xs ys else Ok false.
End vector_compare.

(** ** field.h: AggregateFunctionStateData *)

Module AggregateFunctionStateData.
Record t : Set := mk { name : String; data : String }.

Definition not_implemented (op : string) : Exception :=
  mkException
    ("Operator " ++ op ++ " is not implemented for AggregateFunctionStateData.")%string
    ILLEGAL_TYPE_OF_ARGUMENT.

Definition operator_lt (lhs rhs : t) : outcome bool := Throw (not_implemented "<").
Definition operator_le (lhs rhs : t) : outcome bool := Throw (not_implemented "<=").
Definition operator_gt (lhs rhs : t) : outcome bool := Throw (not_implemented ">").
Definition operator_ge (lhs rhs : t) : outcome bool := Throw (not_implemented ">=").

Definition different_types (lhs rhs : t) : Exception :=
  mkException
    ("Comparing aggregate functions with different types: "
       ++ string_of_list_byte (name lhs) ++ " and "
       ++ string_of_list_byte (name rhs))%string
    ILLEGAL_TYPE_OF_ARGUMENT.

Definition operator_eq (lhs rhs : t) : outcome bool :=
  if negb (String_eq (name lhs) (name rhs))
  then Throw (different_types lhs rhs)
  else Ok (String_eq (data lhs) (data rhs)).
End AggregateFunctionStateData.

(** ** field.h: DecimalField *)

(** Modelled from the spec: [decimalLess], [decimalLessOrEqual] and
    [decimalEqual] are only declared in field.h; their definitions are not
    in the sources at hand.  The spec describes them as a scale-aware
    rational comparison: [x / 10^x_scale] against [y / 10^y_scale]. *)
Definition decimalLess (x y x_scale y_scale : Z) : bool :=
  x * 10 ^ y_scale <? y * 10 ^ x_scale.
Definition decimalLessOrEqual (x y x_scale y_scale : Z) : bool :=
  x * 10 ^ y_scale <=? y * 10 ^ x_scale.
Definition decimalEqual (x y x_scale y_scale : Z) : bool :=
  x * 10 ^ y_scale =? y * 10 ^ x_scale.

Module DecimalField.
(** [DecimalField<T>]: [dec] is a [T] ([Decimal32], [Decimal64] or
    [Decimal128], a signed integer of that width), [scale] a [UInt32]. *)
Record t : Set := mk { dec : Z; scale : Z }.

(** The members as the width [w] of [T] and [UInt32] hold them. *)
Definition getValue (w : Z) (d : t) : Z := signed w (dec d).
Definition getScale (d : t) : Z := wrap32 (scale d).

Definition operator_lt (w : Z) (l r : t) : bool :=
  decimalLess (getValue w l) (getValue w r) (getScale l) (getScale r).
Definition operator_le (w : Z) (l r : t) : bool :=
  decimalLessOrEqual (getValue w l) (getValue w r) (getScale l) (getScale r).
Definition operator_eq (w : Z) (l r : t) : bool :=
  decimalEqual (getValue w l) (getValue w r) (getScale l) (getScale r).
Definition operator_gt (w : Z) (l r : t) : bool := operator_lt w r l.
Definition operator_ge (w : Z) (l r : t) : bool := operator_le w r l.
Definition operator_ne (w : Z) (l r : t) : bool := negb (operator_eq w l r).

(** The values of a signed integer of [w] bits. *)
Definition representable (w : Z) (z : Z) : bool :=
  (- 2 ^ (w - 1) <=? z) && (z <? 2 ^ (w - 1)).

(** [operator+=] and [operator-=]: the scales must be the same; then
    [dec += r.getValue()], an addition of signed integers of [w] bits,
    which has no defined result when it overflows. *)
Definition operator_add_assign (w : Z) (l r : t) : outcome t :=
  if negb (getScale l =? getScale r)
  then Throw (mkException "Add different decimal fields" LOGICAL_ERROR)
  else
    let dec' := getValue w l + getValue w r in
    if representable w dec' then Ok (mk dec' (scale l)) else Undefined.

Definition operator_sub_assign (w : Z) (l r : t) : outcome t :=
  if negb (getScale l =? getScale r)
  then Throw (mkException "Sub different decimal fields" LOGICAL_ERROR)
  else
    let dec' := getValue w l - getValue w r in
    if representable w dec' then Ok (mk dec' (scale l)) else Undefined.
End DecimalField.

(** ** field.h: Field *)

Module Types.
(** [Field::Types::Which], the type tag. *)
Inductive Which : Set :=
| Null | UInt64 | Int64 | Float64 | UInt128 | Int128
| String | Array | Tuple | Decimal32 | Decimal64 | Decimal128
| AggregateFunctionState.

(** The value of each enumerator. *)
Definition to_int (w : Which) : Z :=
  match w with
  | Null => 0 | UInt64 => 1 | Int64 => 2 | Float64 => 3
  | UInt128 => 4 | Int128 => 5
  | String => 16 | Array => 17 | Tuple => 18
  | Decimal32 => 19 | Decimal64 => 20 | Decimal128 => 21
  | AggregateFunctionState => 22
  end.

Definition MIN_NON_POD : Z := 16.

Definition eqb (a b : Which) : bool := to_int a =? to_int b.

Definition toString (w : Which) : string :=
  match w with
  | Null => "Null" | UInt64 => "UInt64" | UInt128 => "UInt128"
  | Int64 => "Int64" | Int128 => "Int128" | Float64 => "Float64"
  | String => "String" | Array => "Array" | Tuple => "Tuple"
  | Decimal32 => "Decimal32" | Decimal64 => "Decimal64"
  | Decimal128 => "Decimal128"
  | AggregateFunctionState => "AggregateFunctionState"
  end.
End Types.

Set Warnings "-register-all".

(** The discriminated union.  The three 64-bit kinds keep the 64 bits of
    [storage]; [get] reads them at the requested type. *)
Inductive Field : Type :=
| FNull
| FUInt64 (v : Z)
| FInt64 (v : Z)
| FFloat64 (bits : Z)
| FUInt128 (v : Z)
| FInt128 (v : Z)
| FString (s : String)
| FArray (a : list Field)
| FTuple (a : list Field)
| FDecimal32 (d : DecimalField.t)
| FDecimal64 (d : DecimalField.t)
| FDecimal128 (d : DecimalField.t)
| FAggregateFunctionState (s : AggregateFunctionStateData.t).

Definition which (f : Field) : Types.Which :=
  match f with
  | FNull => Types.Null
  | FUInt64 _ => Types.UInt64
  | FInt64 _ => Types.Int64
  | FFloat64 _ => Types.Float64
  | FUInt128 _ => Types.UInt128
  | FInt128 _ => Types.Int128
  | FString _ => Types.String
  | FArray _ => Types.Array
  | FTuple _ => Types.Tuple
  | FDecimal32 _ => Types.Decimal32
  | FDecimal64 _ => Types.Decimal64
  | FDecimal128 _ => Types.Decimal128
  | FAggregateFunctionState _ => Types.AggregateFunctionState
  end.

Definition getType (f : Field) : Types.Which := which f.
Definition getTypeName (f : Field) : string := Types.toString (which f).
Definition isNull (f : Field) : bool := Types.eqb (which f) Types.Null.

(** The C++ type [T] with [TypeToEnum<T>::value = w]. *)
Definition storage_type (w : Types.Which) : Type :=
  match w with
  | Types.Null => unit
  | Types.UInt64 | Types.Int64 | Types.Float64
  | Types.UInt128 | Types.Int128 => Z
  | Types.String => String
  | Types.Array | Types.Tuple => list Field
  | Types.Decimal32 | Types.Decimal64 | Types.Decimal128 => DecimalField.t
  | Types.AggregateFunctionState => AggregateFunctionStateData.t
  end.

(** [Field::get<T>()]: the storage read as a [T], with no check of [which].
    The 64-bit kinds may be read as one another (operator== does so);
    reading any other storage at a foreign type is undefined. *)
Definition get (T : Types.Which) (f : Field) : outcome (storage_type T) :=
  match T return outcome (storage_type T) with
  | Types.Null => match f with FNull => Ok tt | _ => Undefined end
  | Types.UInt64 =>
      match f with FUInt64 v | FInt64 v | FFloat64 v => Ok (wrap64 v) | _ => Undefined end
  | Types.Int64 =>
      match f with FUInt64 v | FInt64 v | FFloat64 v => Ok (signed 64 v) | _ => Undefined end
  | Types.Float64 =>
      match f with FUInt64 v | FInt64 v | FFloat64 v => Ok (wrap64 v) | _ => Undefined end
  | Types.UInt128 =>
      match f with FUInt128 v | FInt128 v => Ok (wrap128 v) | _ => Undefined end
  | Types.Int128 =>
      match f with FUInt128 v | FInt128 v => Ok (signed 128 v) | _ => Undefined end
  | Types.String => match f with FString s => Ok s | _ => Undefined end
  | Types.Array => match f with FArray a => Ok a | _ => Undefined end
  | Types.Tuple => match f with FTuple a => Ok a | _ => Undefined end
  | Types.Decimal32 => match f with FDecimal32 d => Ok d | _ => Undefined end
  | Types.Decimal64 => match f with FDecimal64 d => Ok d | _ => Undefined end
  | Types.Decimal128 => match f with FDecimal128 d => Ok d | _ => Undefined end
  | Types.AggregateFunctionState =>
      match f with FAggregateFunctionState s => Ok s | _ => Undefined end
  end.

(** What [storage] holds, at the type of the active variant. *)
Definition stored (f : Field) : storage_type (which f) :=
  match f return storage_type (which f) with
  | FNull => tt
  | FUInt64 v => wrap64 v
  | FInt64 v => signed 64 v
  | FFloat64 bits => wrap64 bits
  | FUInt128 v => wrap128 v
  | FInt128 v => signed 128 v
  | FString s => s
  | FArray a => a
  | FTuple a => a
  | FDecimal32 d => d
  | FDecimal64 d => d
  | FDecimal128 d => d
  | FAggregateFunctionState s => s
  end.

Definition bad_get (f : Field) (requested : Types.Which) : Exception :=
  mkException
    ("Bad get: has " ++ getTypeName f ++ ", requested " ++ Types.toString requested)%string
    BAD_GET.

(** [Field::safeGet<T>()].  The function has no assignment to the Field:
    its only effects are the exception or the returned reference. *)
Definition safeGet (T : Types.Which) (f : Field) : outcome (storage_type T) :=
  let requested := T in
  if negb (Types.eqb (which f) requested)
  then Throw (bad_get f requested)
  else get T f.

(** [Field::tryGet<T>(result)]: the flag, and [result] after the call. *)
Definition tryGet (T : Types.Which) (result : storage_type T) (f : Field)
  : outcome (bool * storage_type T) :=
  let requested := T in
  if negb (Types.eqb (which f) requested) then Ok (false, result)
  else v ← get T f; Ok (true, v).

(** [Field::operator<], in both directions: [less2 a b] is
    [(a < b, b < a)].  The switch is on [which]; each case compares
    [get<T>()] of the two sides. *)
Fixpoint less2 (a b : Field) {struct a} : outcome bool * outcome bool :=
  if Types.to_int (which a) <? Types.to_int (which b) then (Ok true, Ok false)
  else if Types.to_int (which a) >? Types.to_int (which b) then (Ok false, Ok true)
  else
    match a, b with
    | FNull, FNull => (Ok false, Ok false)
    | FUInt64 x, FUInt64 y =>
        (Ok (wrap64 x <? wrap64 y), Ok (wrap64 y <? wrap64 x))
    | FUInt128 x, FUInt128 y =>
        (Ok (wrap128 x <? wrap128 y), Ok (wrap128 y <? wrap128 x))
    | FInt64 x, FInt64 y =>
        (Ok (signed 64 x <? signed 64 y), Ok (signed 64 y <? signed 64 x))
    | FInt128 x, FInt128 y =>
        (Ok (signed 128 x <? signed 128 y), Ok (signed 128 y <? signed 128 x))
    | FFloat64 x, FFloat64 y => (Ok (Float64.lt x y), Ok (Float64.lt y x))
    | FString x, FString y => (Ok (String_lt x y), Ok (String_lt y x))
    | FArray x, FArray y => lexicographical_compare2 less2 x y
    | FTuple x, FTuple y => lexicographical_compare2 less2 x y
    | FDecimal32 x, FDecimal32 y =>
        (Ok (DecimalField.operator_lt 32 x y), Ok (DecimalField.operator_lt 32 y x))
    | FDecimal64 x, FDecimal64 y =>
        (Ok (DecimalField.operator_lt 64 x y), Ok (DecimalField.operator_lt 64 y x))
    | FDecimal128 x, FDecimal128 y =>
        (Ok (DecimalField.operator_lt 128 x y), Ok (DecimalField.operator_lt 128 y x))
    | FAggregateFunctionState x, FAggregateFunctionState y =>
        (AggregateFunctionStateData.operator_lt x y,
         AggregateFunctionStateData.operator_lt y x)
    | _, _ => (Undefined, Undefined)
    end.

Definition operator_lt (a b : Field) : outcome bool := fst (less2 a b).
Definition operator_gt (a b : Field) : outcome bool := operator_lt b a.

(** [std::vector<Field>::operator<] and [operator<=] ([!(y < x)]). *)
Definition vector_lt (x y : list Field) : outcome bool :=
  fst (lexicographical_compare2 less2 x y).
Definition vector_le (x y : list Field) : outcome bool :=
  c ← vector_lt y x; Ok (negb c).

(** [Field::operator<=]. *)
Definition operator_le (a b : Field) : outcome bool :=
  if Types.to_int (which a) <? Types.to_int (which b) then Ok true
  else if Types.to_int (which a) >? Types.to_int (which b) then Ok false
  else
    match a, b with
    | FNull, FNull => Ok true
    | FUInt64 x, FUInt64 y => Ok (wrap64 x <=? wrap64 y)
    | FUInt128 x, FUInt128 y => Ok (wrap128 x <=? wrap128 y)
    | FInt64 x, FInt64 y => Ok (signed 64 x <=? signed 64 y)
    | FInt128 x, FInt128 y => Ok (signed 128 x <=? signed 128 y)
    | FFloat64 x, FFloat64 y => Ok (Float64.le x y)
    | FString x, FString y => Ok (String_le x y)
    | FArray x, FArray y => vector_le x y
    | FTuple x, FTuple y => vector_le x y
    | FDecimal32 x, FDecimal32 y => Ok (DecimalField.operator_le 32 x y)
    | FDecimal64 x, FDecimal64 y => Ok (DecimalField.operator_le 64 x y)
    | FDecimal128 x, FDecimal128 y => Ok (DecimalField.operator_le 128 x y)
    | FAggregateFunctionState x, FAggregateFunctionState y =>
        AggregateFunctionStateData.operator_le x y
    | _, _ => Undefined
    end.

Definition operator_ge (a b : Field) : outcome bool := operator_le b a.

(** [Field::operator==].  UInt64, Int64 and Float64 share one case, which
    compares [get<UInt64>()] of the two sides. *)
Fixpoint operator_eq (a b : Field) {struct a} : outcome bool :=
  if negb (Types.eqb (which a) (which b)) then Ok false
  else
    match a, b with
    | FNull, FNull => Ok true
    | (FUInt64 x | FInt64 x | FFloat64 x), (FUInt64 y | FInt64 y | FFloat64 y) =>
        Ok (wrap64 x =? wrap64 y)
    | FString x, FString y => Ok (String_eq x y)
    | FArray x, FArray y => vector_eq operator_eq x y
    | FTuple x, FTuple y => vector_eq operator_eq x y
    | FUInt128 x, FUInt128 y => Ok (wrap128 x =? wrap128 y)
    | FInt128 x, FInt128 y => Ok (signed 128 x =? signed 128 y)
    | FDecimal32 x, FDecimal32 y => Ok (DecimalField.operator_eq 32 x y)
    | FDecimal64 x, FDecimal64 y => Ok (DecimalField.operator_eq 64 x y)
    | FDecimal128 x, FDecimal128 y => Ok (DecimalField.operator_eq 128 x y)
    | FAggregateFunctionState x, FAggregateFunctionState y =>
        AggregateFunctionStateData.operator_eq x y
    | _, _ => Undefined
    end.

Definition operator_ne (a b : Field) : outcome bool :=
  c ← operator_eq a b; Ok (negb c).

(** ** StringRef and PaddedPODArray *)

Module StringRef.
(** [StringRef]: [data] is [None] for a null pointer, otherwise the bytes
    readable from the pointer on; [size] is the length of the view. *)
Record t : Set := mk { data : option (list byte); size : Z }.

(** The bytes the view denotes: [size] bytes from [data]. *)
Definition bytes (r : t) : outcome (list byte) :=
  match data r with
  | None => Undefined
  | Some mem =>
      if (0 <=? size r) && (size r <=? Z.of_nat (length mem))
      then Ok (take (Z.to_nat (size r)) mem)
      else Undefined
  end.
End StringRef.

Section PODArray.
Context {T : Type}.

(** What a cell holds after [resize] has grown the array and before
    anything is written to it. *)
Variable uninit : T.

Definition pod_size (a : list T) : Z := Z.of_nat (length a).

Definition pod_resize (n : Z) (a : list T) : list T :=
  take (Z.to_nat n) a ++ replicate (Z.to_nat n - length a)%nat uninit.

(** [resize_assume_reserved]: only moves the end; cells past the old end
    hold nothing that was written. *)
Definition pod_resize_assume_reserved (n : Z) (a : list T) : outcome (list T) :=
  if (0 <=? n) && (n <=? pod_size a) then Ok (take (Z.to_nat n) a) else Undefined.

Definition pod_push_back (x : T) (a : list T) : list T := a ++ [x].

(** [a[i] = x]. *)
Definition pod_store (i : Z) (x : T) (a : list T) : outcome (list T) :=
  if (0 <=? i) && (i <? pod_size a) then Ok (<[Z.to_nat i := x]> a) else Undefined.

(** [memcpy(a.data() + at, src, n)]. *)
Definition pod_memcpy (at_ : Z) (src : list T) (n : Z) (a : list T) : outcome (list T) :=
  if (0 <=? at_) && (0 <=? n) && (n <=? pod_size src) && (at_ + n <=? pod_size a)
  then Ok (take (Z.to_nat at_) a ++ take (Z.to_nat n) src ++ drop (Z.to_nat (at_ + n)) a)
  else Undefined.
End PODArray.

(** [PaddedPODArray<UInt64>::operator[](ssize_t n)]: the element before the
    first reads as zero ("-1th index is Ok, see PaddedPODArray"). *)
Definition padded_at (a : list Z) (n : Z) : outcome Z :=
  if n =? -1 then Ok 0
  else if (0 <=? n) && (n <? pod_size a)
       then match a !! Z.to_nat n with Some v => Ok v | None => Undefined end
       else Undefined.

(** ** column_string.h: ColumnString *)

Module ColumnString.
Record t : Set := mk { offsets : list Z; chars : list byte }.

Definition empty : t := mk [] [].

Section ops.
Variable uninit : byte.

Definition size (c : t) : Z := pod_size (offsets c).
Definition chars_size (c : t) : Z := pod_size (chars c).

Definition offsetAt (i : Z) (c : t) : outcome Z := padded_at (offsets c) (i - 1).

Definition sizeAt (i : Z) (c : t) : outcome Z :=
  a ← padded_at (offsets c) i;
  b ← padded_at (offsets c) (i - 1);
  Ok (wrap64 (a - b)).

(** [offsets.back()]. *)
Definition offsets_back (c : t) : outcome Z := padded_at (offsets c) (size c - 1).

Definition getDataAt (n : Z) (c : t) : outcome StringRef.t :=
  if (0 <=? n) && (n <? size c) then
    o ← offsetAt (to_ssize n) c;
    s ← sizeAt (to_ssize n) c;
    Ok (StringRef.mk (Some (drop (Z.to_nat o) (chars c))) (wrap64 (s - 1)))
  else Undefined.

Definition getDataAtWithTerminatingZero (n : Z) (c : t) : outcome StringRef.t :=
  if (0 <=? n) && (n <? size c) then
    o ← offsetAt (to_ssize n) c;
    s ← sizeAt (to_ssize n) c;
    Ok (StringRef.mk (Some (drop (Z.to_nat o) (chars c))) s)
  else Undefined.

(** [operator[]] and [get(n, res)]: a String Field of the same view. *)
Definition operator_index (n : Z) (c : t) : outcome Field :=
  r ← getDataAt n c; s ← StringRef.bytes r; Ok (FString s).

Definition insert (x : Field) (c : t) : outcome t :=
  s ← get Types.String x;
  let old_size := chars_size c in
  let size_to_append := wrap64 (pod_size s + 1) in
  let new_size := wrap64 (old_size + size_to_append) in
  let chars1 := pod_resize uninit new_size (chars c) in
  chars2 ← pod_memcpy old_size (s ++ [x00]) size_to_append chars1;
  Ok (mk (pod_push_back new_size (offsets c)) chars2).

Definition insertFrom (src : t) (n : Z) (c : t) : outcome t :=
  a ← padded_at (offsets src) (to_ssize n);
  b ← padded_at (offsets src) (to_ssize (wrap64 (n - 1)));
  let size_to_append := wrap64 (a - b) in
  if size_to_append =? 1 then
    let chars1 := pod_push_back x00 (chars c) in
    Ok (mk (pod_push_back (pod_size chars1) (offsets c)) chars1)
  else
    let old_size := chars_size c in
    let offset := b in
    let new_size := wrap64 (old_size + size_to_append) in
    let chars1 := pod_resize uninit new_size (chars c) in
    chars2 ← pod_memcpy old_size (drop (Z.to_nat offset) (chars src))
               size_to_append chars1;
    Ok (mk (pod_push_back new_size (offsets c)) chars2).

(** [insertData(pos, length)]: [pos] with [length] is the byte slice
    [data]. *)
Definition insertData (data : list byte) (c : t) : outcome t :=
  let length := pod_size data in
  let old_size := chars_size c in
  let new_size := wrap64 (old_size + length + 1) in
  let chars1 := pod_resize uninit new_size (chars c) in
  chars2 ← (if negb (length =? 0) then pod_memcpy old_size data length chars1
            else Ok chars1);
  chars3 ← pod_store (wrap64 (old_size + length)) x00 chars2;
  Ok (mk (pod_push_back new_size (offsets c)) chars3).

Definition insertDataWithTerminatingZero (data : list byte) (c : t) : outcome t :=
  let length := pod_size data in
  let old_size := chars_size c in
  let new_size := wrap64 (old_size + length) in
  let chars1 := pod_resize uninit new_size (chars c) in
  chars2 ← pod_memcpy old_size data length chars1;
  Ok (mk (pod_push_back new_size (offsets c)) chars2).

Definition popBack (n : Z) (c : t) : outcome t :=
  back ← offsets_back c;
  o ← offsetAt (to_ssize (wrap64 (size c - n))) c;
  let nested_n := wrap64 (back - o) in
  let chars1 := pod_resize uninit (wrap64 (chars_size c - nested_n)) (chars c) in
  offsets1 ← pod_resize_assume_reserved (wrap64 (size c - n)) (offsets c);
  Ok (mk offsets1 chars1).

Definition insertDefault (c : t) : outcome t :=
  let chars1 := pod_push_back x00 (chars c) in
  back ← offsets_back c;
  Ok (mk (pod_push_back (wrap64 (back + 1)) (offsets c)) chars1).
End ops.

(** The bytes of element [n], as [getDataAt] shows them. *)
Definition element (n : Z) (c : t) : outcome (list byte) :=
  r ← getDataAt n c; StringRef.bytes r.

(** *** The representation invariant *)

(** [offsets[i]], with [offsets[-1]] read as 0. *)
Definition offset (c : t) (i : Z) : Z :=
  match padded_at (offsets c) i with Ok v => v | _ => 0 end.

Definition non_decreasing (c : t) : Prop :=
  ∀ i j, -1 ≤ i → i ≤ j → j < size c → offset c i ≤ offset c j.

(** Element [i] lies in [chars] between [offsets[i-1]] and [offsets[i]],
    and its last byte is the terminator. *)
Definition terminated (c : t) : Prop :=
  ∀ i, 0 ≤ i → i < size c →
    offset c (i - 1) < offset c i ∧ offset c i ≤ chars_size c ∧
    chars c !! Z.to_nat (offset c i - 1) = Some x00.

(** [chars] holds the elements and nothing more ("Last offset maps to
    the end of all chars"), and fits in memory. *)
Definition invariant (c : t) : Prop :=
  non_decreasing c ∧ terminated c ∧
  offset c (size c - 1) = chars_size c ∧ chars_size c ≤ PTRDIFF_MAX.

(** The view of element [i] starts at [offsets[i-1]] and has
    [offsets[i] - offsets[i-1] - 1] bytes. *)
Definition logical_lengths (c : t) : Prop :=
  ∀ i, 0 ≤ i → i < size c →
    ∃ r, getDataAt i c = Ok r ∧
         StringRef.data r = Some (drop (Z.to_nat (offset c (i - 1))) (chars c)) ∧
         StringRef.size r = offset c i - offset c (i - 1) - 1 ∧
         0 ≤ StringRef.size r.

(** A column with one more element, of stored bytes [stored]. *)
Definition appended (stored : list byte) (c : t) : t :=
  mk (offsets c ++ [chars_size c + pod_size stored]) (chars c ++ stored).

(** The bytes of [chars] from [offsets[i-1]] to the terminator of
    element [i], and the sequence of all of them. *)
Definition slice (c : t) (i : Z) : list byte :=
  take (Z.to_nat (offset c i - offset c (i - 1) - 1))
       (drop (Z.to_nat (offset c (i - 1))) (chars c)).

Definition contents (c : t) : list (list byte) :=
  slice c <$> seqZ 0 (size c).

(** An operation gives a column, and the column is well-formed. *)
Definition keeps_invariant (r : outcome t) : Prop :=
  ∃ c', r = Ok c' ∧ invariant c' ∧ logical_lengths c'.

(** *** Sequences of insertions *)

Inductive call : Set :=
| call_insert (s : String)
| call_insertData (data : list byte).

(** The bytes a call passes, and what a sequence of calls needs in
    [chars]. *)
Definition passed (k : call) : list byte :=
  match k with call_insert s => s | call_insertData data => data end.

Definition footprint (ks : list call) : Z :=
  foldr (fun k acc => pod_size (passed k) + 1 + acc) 0 ks.

Definition run_call (uninit : byte) (k : call) (c : t) : outcome t :=
  match k with
  | call_insert s => insert uninit (FString s) c
  | call_insertData data => insertData uninit data c
  end.

Fixpoint run_calls (uninit : byte) (ks : list call) (c : t) : outcome t :=
  match ks with
  | [] => Ok c
  | k :: rest => c' ← run_call uninit k c; run_calls uninit rest c'
  end.

(** *** Sizes *)

(** [byteSize()]: [chars.size() + offsets.size() * sizeof(offsets[0])],
    an offset being a [UInt64]. *)
Definition byteSize (c : t) : Z := wrap64 (chars_size c + wrap64 (size c * 8)).

(** What the elements need: the bytes of each, its terminator, and its
    offset. *)
Definition stored_bytes (elements : list (list byte)) : Z :=
  foldr (fun s acc => pod_size s + 1 + 8 + acc) 0 elements.
End ColumnString.

(** ** mysql_result_writer.cpp: the collaborators *)

(** [PrimitiveType] (runtime/primitive_type.h): the enumerators the writer
    names, and the others, which all take its [default] branches. *)
Inductive PrimitiveType : Set :=
| INVALID_TYPE | TYPE_NULL | TYPE_BOOLEAN | TYPE_TINYINT | TYPE_SMALLINT
| TYPE_INT | TYPE_BIGINT | TYPE_LARGEINT | TYPE_FLOAT | TYPE_DOUBLE
| TYPE_VARCHAR | TYPE_DATE | TYPE_DATETIME | TYPE_BINARY | TYPE_DECIMAL
| TYPE_CHAR | TYPE_STRUCT | TYPE_ARRAY | TYPE_MAP | TYPE_HLL
| TYPE_DECIMALV2 | TYPE_TIME | TYPE_OBJECT.

Inductive Status : Set :=
| OK
| InternalError (msg : string).

Definition ok (s : Status) : bool :=
  match s with OK => true | InternalError _ => false end.

(** A [char*]: [None] is the null pointer, [Some mem] a pointer from which
    [mem] can be read. *)
Definition char_ptr : Set := option (list byte).

(** [reinterpret_cast<char*>(0x01)]: not null, nothing to read. *)
Definition magic_0x01 : char_ptr := Some [].

(** The interface of [MysqlRowBuffer] (util/mysql_row_buffer.h), as the
    writer uses it.  Each [push_*] gives its [int] status and the buffer
    after the call; [buf] is [buf()] up to [length()]. *)
Class MysqlRowBuffer (B : Type) : Type := {
  new_buffer : B;
  reset : B -> B;
  buf : B -> list byte;
  push_null : B -> Z * B;
  push_tinyint : Z -> B -> Z * B;
  push_smallint : Z -> B -> Z * B;
  push_int : Z -> B -> Z * B;
  push_bigint : Z -> B -> Z * B;
  push_float : Z -> B -> Z * B;
  push_double : Z -> B -> Z * B;
  push_string : char_ptr -> Z -> B -> Z * B
}.

(** [DecimalValue] (the old decimal): its object representation. *)
Definition DecimalValue : Set := list byte.

(** The text renderings the writer calls.  A [DateTimeValue] is given by
    its 128 bits (the vectorized path builds it with [memcpy] from an
    [Int128]); [DateTimeValue_to_string] gives what [to_string(buf)] writes,
    up to the returned [pos].  A [DecimalV2Value] is given by its [int128]. *)
Class Renderers : Type := {
  LargeIntValue_to_string : Z -> list byte;
  time_str_from_double : Z -> list byte;
  DateTimeValue_to_string : Z -> list byte;
  DecimalValue_to_string_scale : DecimalValue -> Z -> list byte;
  DecimalValue_to_string : DecimalValue -> list byte;
  DecimalV2Value_to_string_scale : Z -> Z -> list byte;
  DecimalV2Value_to_string : Z -> list byte
}.

Module StringValue.
Record t : Set := mk { ptr : char_ptr; len : Z }.
End StringValue.

(** What the [void*] returned by [get_value] points to. *)
Inductive Item : Set :=
| ItemInt8 (v : Z)
| ItemInt16 (v : Z)
| ItemInt32 (v : Z)
| ItemInt64 (v : Z)
| ItemPackedInt128 (value : Z)
| ItemFloat (bits : Z)
| ItemDouble (bits : Z)
| ItemDateTimeValue (bits : Z)
| ItemStringValue (v : StringValue.t)
| ItemDecimalValue (v : DecimalValue).

Definition TupleRow : Set := list (option Item).

(** An [ExprContext]: [root()->type().type], [root()->output_scale()] and
    [get_value(row)] ([None] is [NULL]). *)
Record ExprContext : Set := mkExprContext {
  expr_type : PrimitiveType;
  output_scale : Z;
  get_value : TupleRow -> option Item
}.

(** [RowBatch]: [num_rows()] and [get_row(i)]. *)
Definition RowBatch : Set := list TupleRow.

(** Columns, as the writer reads them.  [ColumnGeneric] stands for any
    other [IColumn], seen through the virtual [getDataAt]. *)
Inductive IColumn : Set :=
| ColumnVector_Int8 (data : list Z)
| ColumnVector_Int16 (data : list Z)
| ColumnVector_Int32 (data : list Z)
| ColumnVector_Int64 (data : list Z)
| ColumnVector_Int128 (data : list Z)
| ColumnVector_Float32 (data : list Z)
| ColumnVector_Float64 (data : list Z)
| ColumnDecimal_Decimal128 (data : list Z)
| ColumnString_ (c : ColumnString.t)
| ColumnGeneric (cells : list StringRef.t)
| ColumnNullable (nested : IColumn) (null_map : list bool).

Fixpoint column_size (c : IColumn) : Z :=
  match c with
  | ColumnVector_Int8 d | ColumnVector_Int16 d | ColumnVector_Int32 d
  | ColumnVector_Int64 d | ColumnVector_Int128 d | ColumnVector_Float32 d
  | ColumnVector_Float64 d | ColumnDecimal_Decimal128 d => pod_size d
  | ColumnString_ s => ColumnString.size s
  | ColumnGeneric cells => pod_size cells
  | ColumnNullable nested _ => column_size nested
  end.

Definition array_at {T} (a : list T) (i : Z) : outcome T :=
  if (0 <=? i) && (i <? pod_size a)
  then match a !! Z.to_nat i with Some v => Ok v | None => Undefined end
  else Undefined.

Definition isNullAt (c : IColumn) (i : Z) : outcome bool :=
  match c with
  | ColumnNullable _ null_map => array_at null_map i
  | _ => Ok false
  end.

(** [column->getDataAt(i)], for the columns a string type is read from.
    (The writer calls it on the nested column of a nullable one.) *)
Definition column_getDataAt (c : IColumn) (i : Z) : outcome StringRef.t :=
  match c with
  | ColumnString_ s => ColumnString.getDataAt i s
  | ColumnGeneric cells => array_at cells i
  | _ => Undefined
  end.

(** [assert_cast] of [column_ptr] to [ColumnNullable], then
    [getNestedColumnPtr()]. *)
Definition getNestedColumnPtr (c : IColumn) : outcome IColumn :=
  match c with ColumnNullable nested _ => Ok nested | _ => Undefined end.

Record ColumnWithTypeAndName : Set := mkColumnWithTypeAndName {
  column : IColumn;
  type_isNullable : bool
}.

Definition Block : Set := list ColumnWithTypeAndName.

Definition block_rows (b : Block) : Z :=
  match b with [] => 0 | c :: _ => column_size (column c) end.

(** A [VExprContext]: [root()->result_type()]. *)
Record VExprContext : Set := mkVExprContext { result_type : PrimitiveType }.

(** [TFetchDataResult]: [result_batch.rows]. *)
Definition TFetchDataResult : Set := list (list byte).

(** [BufferControlBlock]: the sink, with the batches handed to
    [add_batch], oldest first. *)
Record BufferControlBlock : Set := mkBufferControlBlock {
  handed : list TFetchDataResult
}.

(** ** mysql_result_writer.cpp: MysqlResultWriter *)

Section MysqlResultWriter.
Context {B : Type} `{!MysqlRowBuffer B} `{!Renderers}.

(** The answer of [_sinker->add_batch(result)], for a sink and a batch. *)
Variable add_batch_status : BufferControlBlock -> TFetchDataResult -> Status.

(** [RowBatch::convert_to_vec_block] and [VExprContext::execute], which
    gives the block with the result column and its position. *)
Variable convert_to_vec_block : RowBatch -> Block.
Variable execute : VExprContext -> Block -> Block * Z.

Record MysqlResultWriter : Type := mkMysqlResultWriter {
  _is_vec : bool;
  _sinker : option BufferControlBlock;
  _output_expr_ctxs : list ExprContext;
  _output_vexpr_ctxs : list VExprContext;
  _result_column_ids : list Z;
  _row_buffer : option B;
  _vec_buffers : list B;
  _written_rows : Z
}.

Definition set_row_buffer (b : B) (w : MysqlResultWriter) : MysqlResultWriter :=
  mkMysqlResultWriter (_is_vec w) (_sinker w) (_output_expr_ctxs w)
    (_output_vexpr_ctxs w) (_result_column_ids w) (Some b) (_vec_buffers w)
    (_written_rows w).

Definition set_vec_buffers (bs : list B) (w : MysqlResultWriter) : MysqlResultWriter :=
  mkMysqlResultWriter (_is_vec w) (_sinker w) (_output_expr_ctxs w)
    (_output_vexpr_ctxs w) (_result_column_ids w) (_row_buffer w) bs
    (_written_rows w).

Definition set_result_column_ids (ids : list Z) (w : MysqlResultWriter)
  : MysqlResultWriter :=
  mkMysqlResultWriter (_is_vec w) (_sinker w) (_output_expr_ctxs w)
    (_output_vexpr_ctxs w) ids (_row_buffer w) (_vec_buffers w)
    (_written_rows w).

(** After [_sinker->add_batch(result)] and, when it answered OK,
    [_written_rows += num_rows]. *)
Definition set_sent (s : BufferControlBlock) (written : Z) (w : MysqlResultWriter)
  : MysqlResultWriter :=
  mkMysqlResultWriter (_is_vec w) (Some s) (_output_expr_ctxs w)
    (_output_vexpr_ctxs w) (_result_column_ids w) (_row_buffer w)
    (_vec_buffers w) written.

Definition add_batch (result : TFetchDataResult) (s : BufferControlBlock)
  : Status * BufferControlBlock :=
  (add_batch_status s result, mkBufferControlBlock (handed s ++ [result])).

(** [init(state)], with [state->batch_size()]. *)
Definition init (batch_size : Z) (w : MysqlResultWriter) : Status * MysqlResultWriter :=
  match _sinker w with
  | None => (InternalError "sinker is NULL pointer.", w)
  | Some _ =>
      if _is_vec w
      then (OK, set_vec_buffers (replicate (Z.to_nat batch_size) new_buffer) w)
      else (OK, set_row_buffer new_buffer w)
  end.

(** *** The row-at-a-time path *)

(** The [switch] of [_add_one_row] on the type of the expression, for an
    [item] that is not [NULL]. *)
Definition push_item (type : PrimitiveType) (scale : Z) (item : Item) (b : B)
  : outcome (Z * B) :=
  match type with
  | TYPE_BOOLEAN | TYPE_TINYINT =>
      match item with ItemInt8 v => Ok (push_tinyint v b) | _ => Undefined end
  | TYPE_SMALLINT =>
      match item with ItemInt16 v => Ok (push_smallint v b) | _ => Undefined end
  | TYPE_INT =>
      match item with ItemInt32 v => Ok (push_int v b) | _ => Undefined end
  | TYPE_BIGINT =>
      match item with ItemInt64 v => Ok (push_bigint v b) | _ => Undefined end
  | TYPE_LARGEINT =>
      match item with
      | ItemPackedInt128 value =>
          let v := LargeIntValue_to_string value in
          Ok (push_string (Some v) (pod_size v) b)
      | _ => Undefined
      end
  | TYPE_FLOAT =>
      match item with ItemFloat v => Ok (push_float v b) | _ => Undefined end
  | TYPE_DOUBLE =>
      match item with ItemDouble v => Ok (push_double v b) | _ => Undefined end
  | TYPE_TIME =>
      match item with
      | ItemDouble time =>
          let time_str := time_str_from_double time in
          Ok (push_string (Some time_str) (pod_size time_str) b)
      | _ => Undefined
      end
  | TYPE_DATE | TYPE_DATETIME =>
      match item with
      | ItemDateTimeValue time_val =>
          let written := DateTimeValue_to_string time_val in
          Ok (push_string (Some written) (pod_size written - 1) b)
      | _ => Undefined
      end
  | TYPE_HLL | TYPE_OBJECT => Ok (push_null b)
  | TYPE_VARCHAR | TYPE_CHAR =>
      match item with
      | ItemStringValue string_val =>
          match StringValue.ptr string_val with
          | None =>
              if StringValue.len string_val =? 0
              then Ok (push_string magic_0x01 (StringValue.len string_val) b)
              else Ok (push_null b)
          | Some mem =>
              Ok (push_string (Some mem) (StringValue.len string_val) b)
          end
      | _ => Undefined
      end
  | TYPE_DECIMAL =>
      match item with
      | ItemDecimalValue decimal_val =>
          let decimal_str :=
            if (0 <? scale) && (scale <=? 30)
            then DecimalValue_to_string_scale decimal_val scale
            else DecimalValue_to_string decimal_val in
          Ok (push_string (Some decimal_str) (pod_size decimal_str) b)
      | _ => Undefined
      end
  | TYPE_DECIMALV2 =>
      match item with
      | ItemPackedInt128 value =>
          let decimal_str :=
            if (0 <? scale) && (scale <=? 30)
            then DecimalV2Value_to_string_scale value scale
            else DecimalV2Value_to_string value in
          Ok (push_string (Some decimal_str) (pod_size decimal_str) b)
      | _ => Undefined
      end
  | _ => Ok (-1, b)
  end.

(** The loop of [_add_one_row]: it runs while [0 == buf_ret]. *)
Fixpoint add_one_row_loop (ctxs : list ExprContext) (row : TupleRow)
    (buf_ret : Z) (b : B) : outcome (Z * B) :=
  match ctxs with
  | [] => Ok (buf_ret, b)
  | ctx :: rest =>
      if negb (buf_ret =? 0) then Ok (buf_ret, b)
      else
        match get_value ctx row with
        | None =>
            let r := push_null b in add_one_row_loop rest row r.1 r.2
        | Some item =>
            r ← push_item (expr_type ctx) (output_scale ctx) item b;
            add_one_row_loop rest row r.1 r.2
        end
  end.

Definition _add_one_row (row : TupleRow) (w : MysqlResultWriter)
  : outcome (Status * MysqlResultWriter) :=
  match _row_buffer w with
  | None => Undefined
  | Some b0 =>
      r ← add_one_row_loop (_output_expr_ctxs w) row 0 (reset b0);
      let w' := set_row_buffer r.2 w in
      if negb (r.1 =? 0)
      then Ok (InternalError "pack mysql buffer failed.", w')
      else Ok (OK, w')
  end.

(** *** The vectorized path *)

(** [_vec_buffers[i]->push_...(...)]. *)
Definition at_buffer (bufs : list B) (i : Z) (push : B -> Z * B)
  : outcome (Z * list B) :=
  b ← array_at bufs i;
  let r := push b in Ok (r.1, <[Z.to_nat i := r.2]> bufs).

Definition getData (c : IColumn) (type : PrimitiveType) (i : Z) : outcome Z :=
  match type, c with
  | TYPE_TINYINT, ColumnVector_Int8 d
  | TYPE_SMALLINT, ColumnVector_Int16 d
  | TYPE_INT, ColumnVector_Int32 d
  | TYPE_BIGINT, ColumnVector_Int64 d
  | TYPE_LARGEINT, ColumnVector_Int128 d
  | TYPE_FLOAT, ColumnVector_Float32 d
  | TYPE_DOUBLE, ColumnVector_Float64 d
  | TYPE_DATETIME, ColumnVector_Int128 d
  | TYPE_DECIMALV2, ColumnDecimal_Decimal128 d => array_at d i
  | _, _ => Undefined
  end.

(** The chain of [if constexpr (type == ...)] of [_add_one_column], for
    row [i]: the status in [buf_ret] and the buffers after it. *)
Definition push_cell (type : PrimitiveType) (column : IColumn) (i : Z)
    (buf_ret : Z) (bufs : list B) : outcome (Z * list B) :=
  match type with
  | TYPE_TINYINT => v ← getData column type i; at_buffer bufs i (push_tinyint v)
  | TYPE_SMALLINT => v ← getData column type i; at_buffer bufs i (push_smallint v)
  | TYPE_INT => v ← getData column type i; at_buffer bufs i (push_int v)
  | TYPE_BIGINT => v ← getData column type i; at_buffer bufs i (push_bigint v)
  | TYPE_LARGEINT =>
      value ← getData column type i;
      let v := LargeIntValue_to_string value in
      at_buffer bufs i (push_string (Some v) (pod_size v))
  | TYPE_FLOAT => v ← getData column type i; at_buffer bufs i (push_float v)
  | TYPE_DOUBLE => v ← getData column type i; at_buffer bufs i (push_double v)
  | TYPE_DATETIME =>
      time_num ← getData column type i;
      let written := DateTimeValue_to_string time_num in
      at_buffer bufs i (push_string (Some written) (pod_size written - 1))
  | TYPE_OBJECT => at_buffer bufs i push_null
  | TYPE_VARCHAR =>
      string_val ← column_getDataAt column i;
      match StringRef.data string_val with
      | None =>
          if StringRef.size string_val =? 0
          then at_buffer bufs i (push_string magic_0x01 (StringRef.size string_val))
          else at_buffer bufs i push_null
      | Some mem =>
          at_buffer bufs i (push_string (Some mem) (StringRef.size string_val))
      end
  | TYPE_DECIMALV2 =>
      value ← getData column type i;
      let decimal_str := DecimalV2Value_to_string value in
      at_buffer bufs i (push_string (Some decimal_str) (pod_size decimal_str))
  | _ => Ok (buf_ret, bufs)
  end.

(** The loop of [_add_one_column] over the rows [i :: rest] still to do.
    A null cell of a nullable column ends its iteration with [continue],
    before the test of [buf_ret]. *)
Fixpoint add_one_column_loop (type : PrimitiveType) (is_nullable : bool)
    (column_ptr column : IColumn) (todo : list Z) (buf_ret : Z) (bufs : list B)
  : outcome (Status * list B) :=
  match todo with
  | [] => Ok (OK, bufs)
  | i :: rest =>
      isnull ← (if is_nullable then isNullAt column_ptr i else Ok false);
      if isnull : bool then
        r ← at_buffer bufs i push_null;
        add_one_column_loop type is_nullable column_ptr column rest r.1 r.2
      else
        r ← push_cell type column i buf_ret bufs;
        if negb (r.1 =? 0)
        then Ok (InternalError "pack mysql buffer failed.", r.2)
        else add_one_column_loop type is_nullable column_ptr column rest r.1 r.2
  end.

Definition _add_one_column (type : PrimitiveType) (is_nullable : bool)
    (column_ptr : IColumn) (w : MysqlResultWriter)
  : outcome (Status * MysqlResultWriter) :=
  let bufs := map reset (_vec_buffers w) in
  column ← (if is_nullable then getNestedColumnPtr column_ptr else Ok column_ptr);
  r ← add_one_column_loop type is_nullable column_ptr column
        (seqZ 0 (column_size column_ptr)) 0 bufs;
  Ok (r.1, set_vec_buffers r.2 w).

(** The template argument [append_block] picks for a result type;
    [None] is its [default] branch. *)
Definition column_type (t : PrimitiveType) : option PrimitiveType :=
  match t with
  | TYPE_BOOLEAN | TYPE_TINYINT => Some TYPE_TINYINT
  | TYPE_SMALLINT => Some TYPE_SMALLINT
  | TYPE_INT => Some TYPE_INT
  | TYPE_BIGINT => Some TYPE_BIGINT
  | TYPE_LARGEINT => Some TYPE_LARGEINT
  | TYPE_FLOAT => Some TYPE_FLOAT
  | TYPE_DOUBLE => Some TYPE_DOUBLE
  | TYPE_CHAR | TYPE_VARCHAR => Some TYPE_VARCHAR
  | TYPE_DECIMALV2 => Some TYPE_DECIMALV2
  | TYPE_DATE | TYPE_DATETIME => Some TYPE_DATETIME
  | TYPE_HLL | TYPE_OBJECT => Some TYPE_OBJECT
  | _ => None
  end.

(** [rows[j].append(_vec_buffers[j]->buf(), ...)] for every row [j]. *)
Fixpoint rows_append (rows : list (list byte)) (bufs : list B)
  : outcome (list (list byte)) :=
  match rows, bufs with
  | [], _ => Ok []
  | r :: rows', b :: bufs' =>
      rest ← rows_append rows' bufs'; Ok ((r ++ buf b) :: rest)
  | _ :: _, [] => Undefined
  end.

(** The loop of [append_block] over the output expressions, from the
    [i]-th on.  The [default] branch writes the type of
    [_output_expr_ctxs[i]] to the log and leaves the function with its
    error; the error is given here as the status of the loop, and nothing
    follows a status that is not OK. *)
Fixpoint append_block_loop (ctxs : list VExprContext) (i : Z) (block : Block)
    (w : MysqlResultWriter) (rows : list (list byte))
  : outcome (Status * MysqlResultWriter * list (list byte)) :=
  match ctxs with
  | [] => Ok (OK, w, rows)
  | ctx :: rest =>
      id ← array_at (_result_column_ids w) i;
      c ← array_at block id;
      match column_type (result_type ctx) with
      | None =>
          logged ← array_at (_output_expr_ctxs w) i;
          Ok (InternalError "vec block pack mysql buffer failed.", w, rows)
      | Some type =>
          r ← _add_one_column type (type_isNullable c) (column c) w;
          if ok r.1 then
            rows' ← rows_append rows (_vec_buffers r.2);
            append_block_loop rest (i + 1) block r.2 rows'
          else Ok (r.1, r.2, rows)
      end
  end.

Definition append_block (block : Block) (w : MysqlResultWriter)
  : outcome (Status * MysqlResultWriter) :=
  if block_rows block =? 0 then Ok (OK, w)
  else
    let num_rows := block_rows block in
    let rows := replicate (Z.to_nat num_rows) [] in
    r ← append_block_loop (_output_vexpr_ctxs w) 0 block w rows;
    let '(status, w1, result) := r in
    if ok status then
      match _sinker w1 with
      | None => Undefined
      | Some s =>
          let sent := add_batch result s in
          if ok sent.1
          then Ok (sent.1, set_sent sent.2 (_written_rows w1 + num_rows) w1)
          else Ok (sent.1, set_sent sent.2 (_written_rows w1) w1)
      end
    else Ok (status, w1).

(** The loop of [append_row_batch] over the rows, from the [i]-th on. *)
Fixpoint append_rows_loop (todo : list TupleRow) (i : nat)
    (w : MysqlResultWriter) (rows : list (list byte))
  : outcome (Status * MysqlResultWriter * list (list byte)) :=
  match todo with
  | [] => Ok (OK, w, rows)
  | row :: rest =>
      r ← _add_one_row row w;
      if ok r.1 then
        match _row_buffer r.2 with
        | None => Undefined
        | Some b => append_rows_loop rest (S i) r.2 (<[i := buf b]> rows)
        end
      else Ok (r.1, r.2, rows)
  end.

(** The loop of [append_row_batch] that runs the output expressions on
    the block. *)
Fixpoint execute_loop (ctxs : list VExprContext) (block : Block)
  : Block * list Z :=
  match ctxs with
  | [] => (block, [])
  | ctx :: rest =>
      let r := execute ctx block in
      let r' := execute_loop rest r.1 in
      (r'.1, r.2 :: r'.2)
  end.

Definition append_row_batch (batch : option RowBatch) (w : MysqlResultWriter)
  : outcome (Status * MysqlResultWriter) :=
  if _is_vec w then
    match batch with
    | None => Undefined
    | Some rows =>
        let r := execute_loop (_output_vexpr_ctxs w) (convert_to_vec_block rows) in
        append_block r.1 (set_result_column_ids r.2 w)
    end
  else
    match batch with
    | None => Ok (OK, w)
    | Some [] => Ok (OK, w)
    | Some batch_rows =>
        let num_rows := length batch_rows in
        r ← append_rows_loop batch_rows 0 w (replicate num_rows []);
        let '(status, w1, result) := r in
        if ok status then
          match _sinker w1 with
          | None => Undefined
          | Some s =>
              let sent := add_batch result s in
              if ok sent.1
              then Ok (sent.1, set_sent sent.2 (_written_rows w1 + Z.of_nat num_rows) w1)
              else Ok (sent.1, set_sent sent.2 (_written_rows w1) w1)
          end
        else Ok (status, w1)
    end.

(** The batches handed to the sink so far. *)
Definition sink_log (w : MysqlResultWriter) : list TFetchDataResult :=
  match _sinker w with Some s => handed s | None => [] end.

(** [bytes] is what [_add_one_row] left in the row buffer for [row] when it
    answered OK, in a writer with the output expressions [exprs]. *)
Definition row_converted (exprs : list ExprContext) (row : TupleRow)
    (bytes : list byte) : Prop :=
  exists w w' b,
    _output_expr_ctxs w = exprs /\
    _add_one_row row w = Ok (OK, w') /\
    _row_buffer w' = Some b /\ buf b = bytes.

(** [close()]: its status, and the value [COUNTER_SET] gives
    [_sent_rows_counter]. *)
Definition close (w : MysqlResultWriter) : Status * Z := (OK, _written_rows w).

(** The rows [append_row_batch] is given to send: those of the block it
    builds, or those of the batch. *)
Definition batch_rows (batch : option RowBatch) (w : MysqlResultWriter) : Z :=
  match batch with
  | None => 0
  | Some rows =>
      if _is_vec w
      then block_rows
             (execute_loop (_output_vexpr_ctxs w) (convert_to_vec_block rows)).1
      else Z.of_nat (length rows)
  end.
End MysqlResultWriter.

(** ** A row buffer and renderings after the spec *)

(** Modelled from the spec: util/mysql_row_buffer.h is not among the
    sources.  After sections 4.3 and 6 of the spec: a field is a one-byte
    null marker, or a length field followed by that many raw bytes (the
    text of the value for numbers); a [push_*] gives a non-zero status when
    the encoding fails, as when the buffer is exhausted, and [reset] empties
    the buffer and keeps its capacity.  The marker and the length field are
    those of the MySQL text protocol.  [capacity] is what the buffer can
    hold ([None]: it grows without bound). *)
Module SpecRowBuffer.
Record t : Set := mk { content : list byte; capacity : option Z }.

Definition null_marker : byte := xfb.

Definition le_bytes (n : nat) (v : Z) : list byte :=
  map (fun i => match Byte.of_N (Z.to_N ((v / 2 ^ (8 * i)) mod 256)) with
                | Some b => b | None => x00 end)
      (seqZ 0 (Z.of_nat n)).

Definition length_field (n : Z) : list byte :=
  if n <? 251 then le_bytes 1 n
  else if n <? 2 ^ 16 then xfc :: le_bytes 2 n
  else if n <? 2 ^ 24 then xfd :: le_bytes 3 n
  else xfe :: le_bytes 8 n.

Definition text_of_Z (v : Z) : list byte :=
  list_byte_of_string (NilZero.string_of_int (Z.to_int v)).

(** Append [enc] when it fits. *)
Definition put (enc : list byte) (b : t) : Z * t :=
  match capacity b with
  | Some cap =>
      if pod_size (content b) + pod_size enc <=? cap
      then (0, mk (content b ++ enc) (capacity b))
      else (-1, b)
  | None => (0, mk (content b ++ enc) (capacity b))
  end.

Definition put_string (str : char_ptr) (len : Z) (b : t) : Z * t :=
  match str with
  | None => (-1, b)
  | Some mem =>
      if (0 <=? len) && (len <=? pod_size mem)
      then put (length_field len ++ take (Z.to_nat len) mem) b
      else (-1, b)
  end.

Definition put_text (text : list byte) (b : t) : Z * t :=
  put (length_field (pod_size text) ++ text) b.

Section ops.
(** The capacity of a new buffer, and the text of a [float] and of a
    [double] given by their bits. *)
Variable new_capacity : option Z.
Variable float_text double_text : Z -> list byte.

Definition ops : MysqlRowBuffer t := {|
  new_buffer := mk [] new_capacity;
  reset := fun b => mk [] (capacity b);
  buf := content;
  push_null := put [null_marker];
  push_tinyint := fun v => put_text (text_of_Z v);
  push_smallint := fun v => put_text (text_of_Z v);
  push_int := fun v => put_text (text_of_Z v);
  push_bigint := fun v => put_text (text_of_Z v);
  push_float := fun v => put_text (float_text v);
  push_double := fun v => put_text (double_text v);
  push_string := put_string
|}.
End ops.
End SpecRowBuffer.

(** Modelled from the spec: [DecimalV2Value::to_string] is not among the
    sources.  After section 6 of the spec: the decimal string at the given
    output scale, padded with zeros to that scale, or at the natural scale
    of the value (no trailing zero).  The value is taken as a number of
    10^-9 units. *)
Module SpecDecimalV2.
Definition digit (d : Z) : byte :=
  nth (Z.to_nat d) [x30; x31; x32; x33; x34; x35; x36; x37; x38; x39] x30.

Definition frac_digits (n : Z) (frac : Z) : list byte :=
  map (fun i => digit ((frac / 10 ^ (9 - i)) mod 10)) (seqZ 1 n).

Definition to_string_scale (value scale : Z) : list byte :=
  let int_part := Z.abs (Z.quot value (10 ^ 9)) in
  let frac := Z.abs (Z.rem value (10 ^ 9)) in
  (if value <? 0 then [x2d] else [])
    ++ SpecRowBuffer.text_of_Z int_part
    ++ (if 0 <? scale then x2e :: frac_digits scale frac else []).

Fixpoint significant (n : nat) (frac : Z) : Z :=
  match n with
  | O => 0
  | S k => if frac mod 10 =? 0 then significant k (frac / 10) else Z.of_nat n
  end.

Definition natural_scale (value : Z) : Z :=
  significant 9 (Z.abs (Z.rem value (10 ^ 9))).

Definition to_string (value : Z) : list byte :=
  to_string_scale value (natural_scale value).
End SpecDecimalV2.

(** Renderings for a run of the writer: those of the decimal after the
    spec, the text of a large integer as its decimal digits, the others
    given. *)
Definition spec_renderers (time_text datetime_text : Z -> list byte)
    (decimal_text_scale : DecimalValue -> Z -> list byte)
    (decimal_text : DecimalValue -> list byte) : Renderers := {|
  LargeIntValue_to_string := SpecRowBuffer.text_of_Z;
  time_str_from_double := time_text;
  DateTimeValue_to_string := datetime_text;
  DecimalValue_to_string_scale := decimal_text_scale;
  DecimalValue_to_string := decimal_text;
  DecimalV2Value_to_string_scale := SpecDecimalV2.to_string_scale;
  DecimalV2Value_to_string := SpecDecimalV2.to_string
|}.

(** ** The order of Fields in the words of the spec *)

Section lex_compare.
Context {A : Type} (cmp : A -> A -> comparison).

(** Lexicographic comparison: the first place where the two sequences
    differ decides; a proper prefix is smaller. *)
Fixpoint lex_compare (xs ys : list A) : comparison :=
  match xs, ys with
  | [], [] => Eq
  | [], _ :: _ => Lt
  | _ :: _, [] => Gt
  | x :: xs', y :: ys' =>
      match cmp x y with
      | Eq => lex_compare xs' ys'
      | c => c
      end
  end.
End lex_compare.

Definition byte_compare (a b : byte) : comparison :=
  (Byte.to_N a ?= Byte.to_N b)%N.

(** The laws of a comparison at one left argument: [Eq] is a congruence,
    [Lt] is transitive, and [Lt] followed by [Eq] is [Lt]. *)
Definition compare_laws {A} (cmp : A -> A -> comparison) (a : A) : Prop :=
  forall b c,
    (cmp a b = Eq -> cmp a c = cmp b c) /\
    (cmp a b = Lt -> cmp b c = Lt -> cmp a c = Lt) /\
    (cmp a b = Lt -> cmp b c = Eq -> cmp a c = Lt).

(** The comparison the spec describes: the variant discriminant first,
    then, within one variant, the numeric comparison of the values, the
    lexicographic comparison of strings, arrays and tuples, the rational
    comparison of decimals at their scales.  (It says nothing of Float64
    and AggregateFunctionState, for which the code has comparisons of its
    own: two such Fields are left unordered here.) *)
Fixpoint spec_compare (a b : Field) {struct a} : comparison :=
  match Types.to_int (which a) ?= Types.to_int (which b) with
  | Eq =>
      match a, b with
      | FUInt64 x, FUInt64 y => wrap64 x ?= wrap64 y
      | FInt64 x, FInt64 y => signed 64 x ?= signed 64 y
      | FUInt128 x, FUInt128 y => wrap128 x ?= wrap128 y
      | FInt128 x, FInt128 y => signed 128 x ?= signed 128 y
      | FString x, FString y => lex_compare byte_compare x y
      | FArray x, FArray y => lex_compare spec_compare x y
      | FTuple x, FTuple y => lex_compare spec_compare x y
      | FDecimal32 x, FDecimal32 y =>
          DecimalField.getValue 32 x * 10 ^ DecimalField.getScale y
          ?= DecimalField.getValue 32 y * 10 ^ DecimalField.getScale x
      | FDecimal64 x, FDecimal64 y =>
          DecimalField.getValue 64 x * 10 ^ DecimalField.getScale y
          ?= DecimalField.getValue 64 y * 10 ^ DecimalField.getScale x
      | FDecimal128 x, FDecimal128 y =>
          DecimalField.getValue 128 x * 10 ^ DecimalField.getScale y
          ?= DecimalField.getValue 128 y * 10 ^ DecimalField.getScale x
      | _, _ => Eq
      end
  | c => c
  end.

Definition is_lt (c : comparison) : bool := match c with Lt => true | _ => false end.
Definition is_gt (c : comparison) : bool := match c with Gt => true | _ => false end.
Definition is_eq (c : comparison) : bool := match c with Eq => true | _ => false end.

(** The Fields with no Float64 and no AggregateFunctionState in them. *)
Fixpoint ordered (f : Field) : bool :=
  match f with
  | FFloat64 _ | FAggregateFunctionState _ => false
  | FArray a | FTuple a => forallb ordered a
  | _ => true
  end.

#[global] Instance Which_eq_dec : EqDecision Types.Which.
Proof. solve_decision. Defined.

#[global] Instance byte_eq_dec : EqDecision byte := Byte.byte_eq_dec.

(** ** Logically identical cells *)

(** The item the row-at-a-time path is given for row [i] of a column of
    the vectorized path, when both hold the same value of the type. *)
Definition column_item (type : PrimitiveType) (c : IColumn) (i : Z) : outcome Item :=
  match type, c with
  | (TYPE_BOOLEAN | TYPE_TINYINT), ColumnVector_Int8 d => v ← array_at d i; Ok (ItemInt8 v)
  | TYPE_SMALLINT, ColumnVector_Int16 d => v ← array_at d i; Ok (ItemInt16 v)
  | TYPE_INT, ColumnVector_Int32 d => v ← array_at d i; Ok (ItemInt32 v)
  | TYPE_BIGINT, ColumnVector_Int64 d => v ← array_at d i; Ok (ItemInt64 v)
  | TYPE_LARGEINT, ColumnVector_Int128 d => v ← array_at d i; Ok (ItemPackedInt128 v)
  | TYPE_FLOAT, ColumnVector_Float32 d => v ← array_at d i; Ok (ItemFloat v)
  | TYPE_DOUBLE, ColumnVector_Float64 d => v ← array_at d i; Ok (ItemDouble v)
  | (TYPE_DATE | TYPE_DATETIME), ColumnVector_Int128 d =>
      v ← array_at d i; Ok (ItemDateTimeValue v)
  | TYPE_DECIMALV2, ColumnDecimal_Decimal128 d =>
      v ← array_at d i; Ok (ItemPackedInt128 v)
  | (TYPE_VARCHAR | TYPE_CHAR), _ =>
      r ← column_getDataAt c i;
      Ok (ItemStringValue (StringValue.mk (StringRef.data r) (StringRef.size r)))
  | _, _ => Undefined
  end.

(** An item and a cell hold the same value.  (Neither path reads the
    value of an HLL or OBJECT cell.) *)
Definition same_cell (type : PrimitiveType) (c : IColumn) (i : Z) (item : Item) : Prop :=
  match type with
  | TYPE_HLL | TYPE_OBJECT => True
  | _ => column_item type c i = Ok item
  end.

(** The expression is a decimal with an output scale that is honoured. *)
Definition scaled_decimal (type : PrimitiveType) (scale : Z) : bool :=
  match type with
  | TYPE_DECIMALV2 => (0 <? scale) && (scale <=? 30)
  | _ => false
  end.

(** ** The string cell in the words of the spec *)

(** What a string cell adds to its row: an empty payload for the null
    pointer with length zero, the null marker for the null pointer with
    another length, otherwise the length field and the bytes.  ([None]
    when the length is not one of the bytes at the pointer.) *)
Definition string_cell_encoding (ptr : char_ptr) (len : Z) : option (list byte) :=
  match ptr with
  | None =>
      if len =? 0 then Some (SpecRowBuffer.length_field 0)
      else Some [SpecRowBuffer.null_marker]
  | Some mem =>
      if (0 <=? len) && (len <=? pod_size mem)
      then Some (SpecRowBuffer.length_field len ++ take (Z.to_nat len) mem)
      else None
  end.

(** ** Two runs of the writer *)

(** The renderings of the runs: those of the spec; no time, date or old
    decimal occurs in them. *)
Definition run_renderers : Renderers :=
  spec_renderers (fun _ => []) (fun _ => []) (fun _ _ => []) (fun _ => []).

(** Row buffers that grow without bound, and row buffers that hold
    nothing (every [push_*] on them reports an exhausted buffer). *)
Definition unbounded_buffers : MysqlRowBuffer SpecRowBuffer.t :=
  SpecRowBuffer.ops None (fun _ => []) (fun _ => []).
Definition exhausted_buffers : MysqlRowBuffer SpecRowBuffer.t :=
  SpecRowBuffer.ops (Some 0) (fun _ => []) (fun _ => []).

(** A sink that accepts every batch. *)
Definition accepting_sink (s : BufferControlBlock) (r : TFetchDataResult) : Status := OK.

(** No conversion from row batches is used in the runs. *)
Definition no_convert (rows : RowBatch) : Block := [].
Definition no_execute (ctx : VExprContext) (block : Block) : Block * Z := (block, 0).

Definition new_writer (is_vec : bool) (exprs : list ExprContext)
    (vexprs : list VExprContext) (ids : list Z)
  : @MysqlResultWriter SpecRowBuffer.t :=
  mkMysqlResultWriter is_vec (Some (mkBufferControlBlock [])) exprs vexprs ids
    None [] 0.

(** The outcome of an append, seen from outside: the status and the
    batches the sink was handed. *)
Definition observed (r : outcome (Status * @MysqlResultWriter SpecRowBuffer.t))
  : outcome (Status * list TFetchDataResult) :=
  x ← r; Ok (x.1, sink_log x.2).

(** One decimal column, 1.5, with the output scale 2. *)
Definition decimal_expr : ExprContext :=
  mkExprContext TYPE_DECIMALV2 2 (fun row => default None (row !! 0%nat)).
Definition decimal_rows : RowBatch := [[Some (ItemPackedInt128 1500000000)]].
Definition decimal_block : Block :=
  [mkColumnWithTypeAndName (ColumnDecimal_Decimal128 [1500000000]) false].

Definition decimal_row_run : outcome (Status * list TFetchDataResult) :=
  let w := (@init _ unbounded_buffers 1 (new_writer false [decimal_expr] [] [])).2 in
  observed (@append_row_batch _ unbounded_buffers run_renderers accepting_sink
              no_convert no_execute (Some decimal_rows) w).

Definition decimal_vec_run : outcome (Status * list TFetchDataResult) :=
  let w := (@init _ unbounded_buffers 1
              (new_writer true [] [mkVExprContext TYPE_DECIMALV2] [0])).2 in
  observed (@append_block _ unbounded_buffers run_renderers accepting_sink
              decimal_block w).

(** One nullable TINYINT column with one row, which is NULL, written with
    exhausted buffers. *)
Definition null_block : Block :=
  [mkColumnWithTypeAndName (ColumnNullable (ColumnVector_Int8 [0]) [true]) true].
Definition null_rows : RowBatch := [[None]].
Definition tinyint_expr : ExprContext :=
  mkExprContext TYPE_TINYINT 0 (fun row => default None (row !! 0%nat)).

Definition null_vec_run : outcome (Status * list TFetchDataResult) :=
  let w := (@init _ exhausted_buffers 1
              (new_writer true [] [mkVExprContext TYPE_TINYINT] [0])).2 in
  observed (@append_block _ exhausted_buffers run_renderers accepting_sink
              null_block w).

Definition null_row_run : outcome (Status * list TFetchDataResult) :=
  let w := (@init _ exhausted_buffers 1 (new_writer false [tinyint_expr] [] [])).2 in
  observed (@append_row_batch _ exhausted_buffers run_renderers accepting_sink
              no_convert no_execute (Some null_rows) w).

(** ** Fields that can be compared *)

(** The Fields with no AggregateFunctionState in them. *)
Fixpoint stateless (f : Field) : bool :=
  match f with
  | FAggregateFunctionState _ => false
  | FArray a | FTuple a => forallb stateless a
  | _ => true
  end.

(** What [a < b], [b < a] and [a == b] owe one another: when one of the
    two [<] gives true, the other gives false and so does [==]; when both
    give false, [==] gives a boolean. *)
Definition comparisons_agree (lt gt eq : outcome bool) : Prop :=
  (lt = Ok true -> gt = Ok false /\ eq = Ok false) /\
  (gt = Ok true -> lt = Ok false /\ eq = Ok false) /\
  (lt = Ok false -> gt = Ok false -> exists r, eq = Ok r).

(** ** readline_use.h: the fallback readline

    The branch taken when neither [USE_READLINE] nor [USE_LIBEDIT] is set.
    The state is that of the two standard streams: what [std::cin] has
    still to give, with end of file after it, its [iostate] bits, and what
    [std::cout] was given. *)
Module Readline.
Record io : Set := mk {
  input : list byte;
  eofbit : bool;
  failbit : bool;
  badbit : bool;
  output : list byte
}.

(** [std::cin.good()]. *)
Definition good (s : io) : bool :=
  negb (eofbit s) && negb (failbit s) && negb (badbit s).

Definition newline : byte := x0a.

(** The bytes before the first [stop], and what follows them. *)
Fixpoint span_until (stop : byte) (l : list byte) : list byte * list byte :=
  match l with
  | [] => ([], [])
  | b :: rest =>
      if Byte.eqb b stop then ([], l)
      else let r := span_until stop rest in (b :: r.1, r.2)
  end.

(** [std::cout << prompt], for a prompt that is a C string. *)
Definition put_prompt (prompt : list byte) (s : io) : io :=
  mk (input s) (eofbit s) (failbit s) (badbit s) (output s ++ prompt).

(** [std::getline(std::cin, s)] on an empty [s]: the string, and the
    stream.  A stream that is not good gives nothing and gets [failbit].
    Otherwise the bytes up to the newline are taken and the newline is
    dropped; when the input ends first, [eofbit] is set, and [failbit] too
    if not one byte was taken. *)
Definition getline (s : io) : list byte * io :=
  if negb (good s) then ([], mk (input s) (eofbit s) true (badbit s) (output s))
  else
    let r := span_until newline (input s) in
    match r.2 with
    | [] =>
        (r.1, mk [] true
                (match r.1 with [] => true | _ => failbit s end)
                (badbit s) (output s))
    | _ :: rest => (r.1, mk rest (eofbit s) (failbit s) (badbit s) (output s))
    end.

(** [strdup(s.data())]: the copy ends before the first zero byte. *)
Definition strdup (s : list byte) : list byte := (span_until x00 s).1.

(** [readline(prompt)]: [None] is [nullptr]. *)
Definition readline (prompt : list byte) (s : io) : option (list byte) * io :=
  let s1 := put_prompt prompt s in
  let r := getline s1 in
  if negb (good r.2) then (None, r.2) else (Some (strdup r.1), r.2).

(** A caller that reads until [readline] gives [nullptr], at most [n]
    times: the lines it was given, and the streams after it. *)
Fixpoint read_lines (n : nat) (prompt : list byte) (s : io)
  : list (list byte) * io :=
  match n with
  | O => ([], s)
  | S k =>
      match readline prompt s with
      | (None, s') => ([], s')
      | (Some line, s') =>
          let r := read_lines k prompt s' in (line :: r.1, r.2)
      end
  end.

(** A text: its lines, each followed by a newline. *)
Definition unlines (lines : list (list byte)) : list byte :=
  concat ((fun l => l ++ [newline]) <$> lines).
End Readline.

(** ** Logically identical batches *)

Section same_data.
Context {B : Type} `{!MysqlRowBuffer B} `{!Renderers}.

(** A call on a row buffer that gives one status whatever the buffer
    holds, and that, when the status is 0, adds the same bytes to what
    the buffer holds. *)
Definition steady (push : B -> Z * B) : Prop :=
  exists status enc, forall b,
    (push b).1 = status /\ (status = 0 -> buf (push b).2 = buf b ++ enc).

(** Row buffers whose calls all are such, and that are empty after
    [reset]. *)
Definition steady_buffers : Prop :=
  (forall b, buf (reset b) = []) /\
  steady push_null /\
  (forall v, steady (push_tinyint v)) /\
  (forall v, steady (push_smallint v)) /\
  (forall v, steady (push_int v)) /\
  (forall v, steady (push_bigint v)) /\
  (forall v, steady (push_float v)) /\
  (forall v, steady (push_double v)) /\
  (forall str len, steady (push_string str len)).

(** What the loop of [_add_one_row] does with the value of one
    expression. *)
Definition push_value (ctx : ExprContext) (row : TupleRow) (b : B)
  : outcome (Z * B) :=
  match get_value ctx row with
  | None => Ok (push_null b)
  | Some item => push_item (expr_type ctx) (output_scale ctx) item b
  end.

(** The value of the expression on the row is pushed with success, and
    adds [enc] to the row buffer. *)
Definition encodes (ctx : ExprContext) (row : TupleRow) (enc : list byte) : Prop :=
  forall b, exists r, push_value ctx row b = Ok r /\ r.1 = 0 /\ buf r.2 = buf b ++ enc.
End same_data.

(** A value of the row-at-a-time path and row [j] of a column hold the
    same: both are NULL, or both are the same value of the type. *)
Definition same_value (type : PrimitiveType) (is_nullable : bool)
    (column_ptr : IColumn) (j : Z) (v : option Item) : Prop :=
  if is_nullable then
    exists nested isnull,
      getNestedColumnPtr column_ptr = Ok nested /\
      isNullAt column_ptr j = Ok isnull /\
      if isnull : bool then v = None
      else exists item, v = Some item /\ same_cell type nested j item
  else exists item, v = Some item /\ same_cell type column_ptr j item.

(** An expression of the row-at-a-time path over the rows, and an
    expression of the vectorized path with its result column, give the
    same values of the same type, which [append_block] serves, with no
    output scale for a decimal. *)
Definition same_column (expr : ExprContext) (vexpr : VExprContext)
    (c : ColumnWithTypeAndName) (rows : RowBatch) : Prop :=
  result_type vexpr = expr_type expr /\
  (exists T, column_type (expr_type expr) = Some T) /\
  scaled_decimal (expr_type expr) (output_scale expr) = false /\
  column_size (column c) = Z.of_nat (length rows) /\
  forall j row, rows !! j = Some row ->
    same_value (expr_type expr) (type_isNullable c) (column c) (Z.of_nat j)
      (get_value expr row).

(** A batch of rows with its expressions, and a block with its
    expressions and result columns, hold the same data. *)
Definition same_data (exprs : list ExprContext) (vexprs : list VExprContext)
    (ids : list Z) (block : Block) (rows : RowBatch) : Prop :=
  length exprs = length vexprs /\
  forall i expr, exprs !! i = Some expr ->
    exists vexpr id c,
      vexprs !! i = Some vexpr /\
      array_at ids (Z.of_nat i) = Ok id /\
      array_at block id = Ok c /\
      same_column expr vexpr c rows.

(** Row buffers that always have room: a buffer is the bytes it holds; the
    encodings are those of [SpecRowBuffer]. *)
Definition roomy (push : SpecRowBuffer.t -> Z * SpecRowBuffer.t) (b : list byte)
  : Z * list byte :=
  let r := push (SpecRowBuffer.mk b None) in (r.1, SpecRowBuffer.content r.2).

Definition roomy_buffers : MysqlRowBuffer (list byte) := {|
  new_buffer := [];
  reset := fun _ => [];
  buf := fun b => b;
  push_null := roomy (@push_null _ unbounded_buffers);
  push_tinyint := fun v => roomy (@push_tinyint _ unbounded_buffers v);
  push_smallint := fun v => roomy (@push_smallint _ unbounded_buffers v);
  push_int := fun v => roomy (@push_int _ unbounded_buffers v);
  push_bigint := fun v => roomy (@push_bigint _ unbounded_buffers v);
  push_float := fun v => roomy (@push_float _ unbounded_buffers v);
  push_double := fun v => roomy (@push_double _ unbounded_buffers v);
  push_string := fun str len => roomy (@push_string _ unbounded_buffers str len)
|}.

(** Two rows of two columns, a nullable INT and a VARCHAR, in the two
    forms. *)
Definition pair_exprs : list ExprContext :=
  [mkExprContext TYPE_INT 0 (fun row => default None (row !! 0%nat));
   mkExprContext TYPE_VARCHAR 0 (fun row => default None (row !! 1%nat))].
Definition pair_rows : RowBatch :=
  [[Some (ItemInt32 5); Some (ItemStringValue (StringValue.mk (Some [x61; x62]) 2))];
   [None; Some (ItemStringValue (StringValue.mk None 0))]].
Definition pair_vexprs : list VExprContext :=
  [mkVExprContext TYPE_INT; mkVExprContext TYPE_VARCHAR].
Definition pair_block : Block :=
  [mkColumnWithTypeAndName
     (ColumnGeneric [StringRef.mk (Some [x61; x62]) 2; StringRef.mk None 0]) false;
   mkColumnWithTypeAndName
     (ColumnNullable (ColumnVector_Int32 [5; 0]) [false; true]) true].
Definition pair_row_writer : @MysqlResultWriter (list byte) :=
  (@init _ roomy_buffers 2
     (mkMysqlResultWriter false (Some (mkBufferControlBlock [])) pair_exprs []
        [] None [] 0)).2.
Definition pair_vec_writer : @MysqlResultWriter (list byte) :=
  (@init _ roomy_buffers 2
     (mkMysqlResultWriter true (Some (mkBufferControlBlock [])) [] pair_vexprs
        [1; 0] None [] 0)).2.

(** * Properties *)

(** ** Machine integers and arrays *)

Lemma wrap64_small z : 0 ≤ z → z < 2 ^ 64 → wrap64 z = z.
Proof. intros; unfold wrap64; apply Z.mod_small; lia. Qed.

Lemma to_ssize_small z : - 2 ^ 63 ≤ z → z < 2 ^ 63 → to_ssize z = z.
Proof.
  intros; unfold to_ssize, signed.
  replace (64 - 1) with 63 by lia.
  rewrite Z.mod_small; lia.
Qed.

Lemma to_ssize_wrap_neg z : - 2 ^ 63 ≤ z → z < 0 → to_ssize (wrap64 z) = z.
Proof.
  intros; unfold to_ssize, signed, wrap64.
  replace (64 - 1) with 63 by lia.
  rewrite Zplus_mod_idemp_l.
  rewrite Z.mod_small; lia.
Qed.

Lemma PTRDIFF_MAX_eq : PTRDIFF_MAX = 2 ^ 63 - 1.
Proof. reflexivity. Qed.

Lemma pod_size_app {T} (a b : list T) : pod_size (a ++ b) = pod_size a + pod_size b.
Proof. unfold pod_size; rewrite length_app; lia. Qed.

Lemma pod_size_nonneg {T} (a : list T) : 0 ≤ pod_size a.
Proof. unfold pod_size; lia. Qed.

Lemma padded_at_m1 a : padded_at a (-1) = Ok 0.
Proof. reflexivity. Qed.

Lemma padded_at_lookup a i v :
  0 ≤ i → a !! Z.to_nat i = Some v → padded_at a i = Ok v.
Proof.
  intros Hi Hv; unfold padded_at.
  destruct (i =? -1) eqn:E; [lia|].
  apply lookup_lt_Some in Hv as Hlt.
  unfold pod_size.
  destruct (0 <=? i) eqn:E1; [|lia].
  destruct (i <? Z.of_nat (length a)) eqn:E2; [|lia].
  simpl; now rewrite Hv.
Qed.

Lemma padded_at_Ok a i v :
  padded_at a i = Ok v →
  (i = -1 ∧ v = 0) ∨ (0 ≤ i ∧ i < pod_size a ∧ a !! Z.to_nat i = Some v).
Proof.
  unfold padded_at.
  destruct (i =? -1) eqn:E; [intros [= <-]; left; lia|].
  destruct (0 <=? i) eqn:E1; simpl; [|discriminate].
  destruct (i <? pod_size a) eqn:E2; simpl; [|discriminate].
  destruct (a !! Z.to_nat i) eqn:E3; [|discriminate].
  intros [= <-]; right; repeat split; lia.
Qed.

Lemma padded_at_in_range a i :
  -1 ≤ i → i < pod_size a → ∃ v, padded_at a i = Ok v.
Proof.
  intros Hlo Hhi.
  destruct (Z.eq_dec i (-1)) as [->|Hne]; [now exists 0|].
  destruct (lookup_lt_is_Some_2 a (Z.to_nat i)) as [v Hv]; [unfold pod_size in Hhi; lia|].
  exists v; apply padded_at_lookup; [lia|done].
Qed.

Lemma padded_at_app_l a b i :
  -1 ≤ i → i < pod_size a → padded_at (a ++ b) i = padded_at a i.
Proof.
  intros Hlo Hhi.
  destruct (Z.eq_dec i (-1)) as [->|Hne]; [done|].
  destruct (padded_at_in_range a i) as [v Hv]; [lia..|].
  rewrite Hv.
  apply padded_at_Ok in Hv as [[? _]|(? & ? & Hv)]; [lia|].
  apply padded_at_lookup; [lia|].
  rewrite lookup_app_l; [done|unfold pod_size in Hhi; lia].
Qed.

Lemma padded_at_snoc a x : padded_at (a ++ [x]) (pod_size a) = Ok x.
Proof.
  apply padded_at_lookup; [apply pod_size_nonneg|].
  unfold pod_size; rewrite Nat2Z.id.
  rewrite lookup_app_r by lia.
  now rewrite Nat.sub_diag.
Qed.

Lemma padded_at_take a n i :
  -1 ≤ i → i < Z.of_nat n → (n ≤ length a)%nat → padded_at (take n a) i = padded_at a i.
Proof.
  intros Hlo Hhi Hn.
  destruct (Z.eq_dec i (-1)) as [->|Hne]; [done|].
  destruct (padded_at_in_range a i) as [v Hv]; [lia|unfold pod_size; lia|].
  rewrite Hv.
  apply padded_at_Ok in Hv as [[? _]|(? & ? & Hv)]; [lia|].
  apply padded_at_lookup; [lia|].
  rewrite lookup_take_lt; [done|lia].
Qed.

Lemma take_seqZ m k : 0 ≤ m → m ≤ k → take (Z.to_nat m) (seqZ 0 k) = seqZ 0 m.
Proof.
  intros Hm Hk.
  replace k with (m + (k - m)) by lia.
  rewrite seqZ_app by lia.
  rewrite take_app_length'; [done|].
  now rewrite length_seqZ.
Qed.

Section pod_array_facts.
Context {T : Type} (u : T).

Lemma pod_resize_grow (a : list T) k :
  0 ≤ k → pod_resize u (pod_size a + k) a = a ++ replicate (Z.to_nat k) u.
Proof.
  intros Hk; unfold pod_resize, pod_size.
  rewrite take_ge by lia.
  f_equal; f_equal; lia.
Qed.

Lemma pod_resize_shrink (a : list T) n :
  0 ≤ n → n ≤ pod_size a → pod_resize u n a = take (Z.to_nat n) a.
Proof.
  intros Hn Hle; unfold pod_resize, pod_size in *.
  replace (Z.to_nat n - length a)%nat with O by lia.
  apply app_nil_r.
Qed.

Lemma pod_memcpy_tail (a src : list T) n k :
  0 ≤ n → n ≤ pod_size src → n ≤ Z.of_nat k →
  pod_memcpy (pod_size a) src n (a ++ replicate k u)
  = Ok (a ++ take (Z.to_nat n) src ++ replicate (k - Z.to_nat n) u).
Proof.
  intros Hn Hsrc Hk; unfold pod_memcpy.
  pose proof (pod_size_nonneg a) as Ha.
  rewrite pod_size_app.
  replace (pod_size (replicate k u)) with (Z.of_nat k)
    by (unfold pod_size; now rewrite length_replicate).
  destruct (0 <=? pod_size a) eqn:E1; [|lia].
  destruct (0 <=? n) eqn:E2; [|lia].
  destruct (n <=? pod_size src) eqn:E3; [|lia].
  destruct (pod_size a + n <=? pod_size a + Z.of_nat k) eqn:E4; [|lia].
  simpl; f_equal.
  unfold pod_size; rewrite Nat2Z.id, take_app_length.
  f_equal; f_equal.
  replace (Z.to_nat (Z.of_nat (length a) + n)) with (length a + Z.to_nat n)%nat by lia.
  rewrite drop_app_add.
  rewrite drop_replicate; done.
Qed.

Lemma pod_store_tail (a l : list T) x y :
  pod_store (pod_size a) x (a ++ y :: l) = Ok (a ++ x :: l).
Proof.
  unfold pod_store.
  pose proof (pod_size_nonneg a) as Ha.
  rewrite pod_size_app.
  assert (0 < pod_size (y :: l)) by (unfold pod_size; simpl; lia).
  destruct (0 <=? pod_size a) eqn:E1; [|lia].
  destruct (pod_size a <? pod_size a + pod_size (y :: l)) eqn:E2; [|lia].
  simpl; f_equal.
  unfold pod_size; rewrite Nat2Z.id.
  rewrite insert_app_r_alt by lia.
  now rewrite Nat.sub_diag.
Qed.
End pod_array_facts.

(** ** ColumnString: every insertion appends one stored element *)

Section column_string_facts.
Variable uninit : byte.

Import ColumnString.

Lemma size_appended stored c : size (appended stored c) = size c + 1.
Proof. unfold size, appended; simpl. rewrite pod_size_app. reflexivity. Qed.

Lemma chars_size_appended stored c :
  chars_size (appended stored c) = chars_size c + pod_size stored.
Proof. unfold chars_size, appended; simpl. apply pod_size_app. Qed.

Lemma insertData_appended data c :
  chars_size c + pod_size data + 1 ≤ PTRDIFF_MAX →
  insertData uninit data c = Ok (appended (data ++ [x00]) c).
Proof.
  intros Hfit; rewrite PTRDIFF_MAX_eq in Hfit.
  pose proof (pod_size_nonneg data) as Hd.
  pose proof (pod_size_nonneg (chars c)) as Hc.
  unfold insertData, chars_size in *.
  rewrite !wrap64_small by lia.
  replace (pod_size (chars c) + pod_size data + 1)
    with (pod_size (chars c) + (pod_size data + 1)) by lia.
  rewrite pod_resize_grow by lia.
  assert (Hcopy :
    (if negb (pod_size data =? 0)
     then pod_memcpy (pod_size (chars c)) data (pod_size data)
            (chars c ++ replicate (Z.to_nat (pod_size data + 1)) uninit)
     else Ok (chars c ++ replicate (Z.to_nat (pod_size data + 1)) uninit))
    = Ok (chars c ++ data ++ [uninit])).
  { destruct (pod_size data =? 0) eqn:E; simpl.
    - assert (data = []) as -> by (destruct data; [done|unfold pod_size in E; simpl in E; lia]).
      reflexivity.
    - rewrite pod_memcpy_tail by lia.
      do 2 f_equal.
      unfold pod_size; rewrite Nat2Z.id, firstn_all.
      f_equal.
      replace (Z.to_nat (Z.of_nat (length data) + 1) - length data)%nat
        with 1%nat by lia.
      reflexivity. }
  rewrite Hcopy; simpl.
  replace (pod_size (chars c) + pod_size data) with (pod_size (chars c ++ data))
    by apply pod_size_app.
  rewrite app_assoc, pod_store_tail; simpl.
  unfold appended, pod_push_back, chars_size.
  rewrite <- app_assoc, !pod_size_app.
  do 3 f_equal.
Qed.

Lemma insert_appended s c :
  chars_size c + pod_size s + 1 ≤ PTRDIFF_MAX →
  insert uninit (FString s) c = Ok (appended (s ++ [x00]) c).
Proof.
  intros Hfit; rewrite PTRDIFF_MAX_eq in Hfit.
  pose proof (pod_size_nonneg s) as Hd.
  pose proof (pod_size_nonneg (chars c)) as Hc.
  unfold insert, chars_size in *; simpl.
  rewrite (wrap64_small (pod_size s + 1)) by lia.
  rewrite wrap64_small by lia.
  rewrite pod_resize_grow by lia.
  rewrite pod_memcpy_tail; [|lia|rewrite pod_size_app; unfold pod_size; simpl; lia|lia].
  simpl.
  replace (Z.to_nat (pod_size s + 1)) with (length (s ++ [x00]))
    by (rewrite length_app; unfold pod_size; simpl; lia).
  rewrite firstn_all, Nat.sub_diag; simpl.
  rewrite app_nil_r.
  unfold appended, pod_push_back, chars_size.
  rewrite !pod_size_app.
  do 3 f_equal.
Qed.

(** *** Offsets of an appended column *)

Lemma offset_m1 c : offset c (-1) = 0.
Proof. reflexivity. Qed.

Lemma offset_padded c i :
  -1 ≤ i → i < size c → padded_at (offsets c) i = Ok (offset c i).
Proof.
  intros Hlo Hhi; unfold offset.
  destruct (padded_at_in_range (offsets c) i) as [v ->]; done.
Qed.

Lemma offset_appended_old stored c i :
  -1 ≤ i → i < size c → offset (appended stored c) i = offset c i.
Proof.
  intros Hlo Hhi; unfold offset, appended; simpl.
  now rewrite padded_at_app_l.
Qed.

Lemma offset_appended_new stored c :
  offset (appended stored c) (size c) = chars_size c + pod_size stored.
Proof.
  unfold offset, appended, size; simpl.
  now rewrite padded_at_snoc.
Qed.

Lemma terminated_non_decreasing c : terminated c → non_decreasing c.
Proof.
  intros Ht i j Hi Hij Hj.
  assert (H : ∀ n : nat, ∀ j, j = i + Z.of_nat n → j < size c → offset c i ≤ offset c j).
  { induction n as [|n IH]; intros k Hk Hlt.
    - replace k with i by lia; lia.
    - specialize (IH (k - 1) ltac:(lia) ltac:(lia)).
      destruct (Ht k) as (Hstep & _); lia. }
  apply (H (Z.to_nat (j - i))); lia.
Qed.

Lemma terminated_offset_lower c i :
  terminated c → -1 ≤ i → i < size c → i + 1 ≤ offset c i.
Proof.
  intros Ht Hi Hlt.
  assert (H : ∀ n : nat, ∀ j, j = -1 + Z.of_nat n → j < size c → j + 1 ≤ offset c j).
  { induction n as [|n IH]; intros k Hk Hk'.
    - replace k with (-1) by lia; rewrite offset_m1; lia.
    - specialize (IH (k - 1) ltac:(lia) ltac:(lia)).
      destruct (Ht k) as (Hstep & _); lia. }
  apply (H (Z.to_nat (i + 1))); lia.
Qed.

Lemma invariant_size_bound c : invariant c → size c ≤ chars_size c.
Proof.
  intros (_ & Ht & Hlast & _).
  pose proof (pod_size_nonneg (offsets c)) as Hs; fold (size c) in Hs.
  pose proof (terminated_offset_lower c (size c - 1) Ht ltac:(lia) ltac:(lia)).
  lia.
Qed.

Lemma invariant_empty : invariant empty.
Proof.
  assert (Hsize : size empty = 0) by reflexivity.
  split; [|split; [|split]].
  - intros i j Hi Hij Hj; replace j with i by lia; lia.
  - intros i Hi Hlt; lia.
  - reflexivity.
  - rewrite PTRDIFF_MAX_eq; unfold chars_size, pod_size; simpl; lia.
Qed.

Lemma invariant_appended s c :
  invariant c →
  chars_size c + pod_size s + 1 ≤ PTRDIFF_MAX →
  invariant (appended (s ++ [x00]) c).
Proof.
  intros (Hnd & Ht & Hlast & Hbound) Hfit.
  pose proof (pod_size_nonneg s) as Hs.
  pose proof (pod_size_nonneg (offsets c)) as Hsz; fold (size c) in Hsz.
  assert (Hlen : pod_size (s ++ [x00]) = pod_size s + 1)
    by (rewrite pod_size_app; reflexivity).
  assert (Ht' : terminated (appended (s ++ [x00]) c)).
  { intros i Hi Hlt; rewrite size_appended in Hlt.
    rewrite chars_size_appended, Hlen.
    destruct (Z.eq_dec i (size c)) as [->|Hne].
    - rewrite offset_appended_new, Hlen.
      rewrite offset_appended_old by lia.
      rewrite Hlast.
      repeat split; try lia.
      unfold appended; simpl.
      replace (Z.to_nat (chars_size c + (pod_size s + 1) - 1))
        with (length (chars c ++ s))
        by (rewrite length_app; unfold chars_size, pod_size; lia).
      rewrite app_assoc.
      rewrite lookup_app_r by lia.
      now rewrite Nat.sub_diag.
    - rewrite !offset_appended_old by lia.
      destruct (Ht i) as (H1 & H2 & H3); [lia..|].
      repeat split; try lia.
      unfold appended; simpl.
      rewrite lookup_app_l; [done|].
      pose proof (terminated_offset_lower c (i - 1) Ht ltac:(lia) ltac:(lia)).
      unfold chars_size, pod_size in H2; lia. }
  split; [now apply terminated_non_decreasing|].
  split; [done|].
  split.
  - rewrite size_appended.
    replace (size c + 1 - 1) with (size c) by lia.
    now rewrite offset_appended_new, chars_size_appended.
  - rewrite chars_size_appended, Hlen; lia.
Qed.

Lemma insertDefault_appended c :
  invariant c →
  chars_size c + 1 ≤ PTRDIFF_MAX →
  insertDefault c = Ok (appended [x00] c).
Proof.
  intros (_ & Ht & Hlast & _) Hfit; rewrite PTRDIFF_MAX_eq in Hfit.
  pose proof (pod_size_nonneg (offsets c)) as Hsz; fold (size c) in Hsz.
  pose proof (pod_size_nonneg (chars c)) as Hc; fold (chars_size c) in Hc.
  unfold insertDefault, offsets_back.
  rewrite offset_padded by lia; simpl.
  rewrite Hlast, wrap64_small by lia.
  reflexivity.
Qed.

(** *** Elements *)

Lemma slice_prefix c c' rest i :
  chars c = chars c' ++ rest →
  offset c i = offset c' i →
  offset c (i - 1) = offset c' (i - 1) →
  0 ≤ offset c' (i - 1) → offset c' (i - 1) < offset c' i →
  offset c' i ≤ chars_size c' →
  slice c i = slice c' i.
Proof.
  intros Hchars Hi Hi1 Hlo Hlt Hhi; unfold slice.
  rewrite Hchars, Hi, Hi1.
  unfold chars_size, pod_size in Hhi.
  rewrite drop_app_le by lia.
  rewrite take_app_le; [done|].
  rewrite length_drop; lia.
Qed.

Lemma stored_slice c i :
  invariant c → 0 ≤ i → i < size c →
  take (Z.to_nat (offset c i - offset c (i - 1)))
       (drop (Z.to_nat (offset c (i - 1))) (chars c))
  = slice c i ++ [x00].
Proof.
  intros (_ & Ht & _) Hi Hlt; unfold slice.
  destruct (Ht i Hi Hlt) as (H1 & H2 & H3).
  pose proof (terminated_offset_lower c (i - 1) Ht ltac:(lia) ltac:(lia)) as Hlo.
  replace (Z.to_nat (offset c i - offset c (i - 1)))
    with (S (Z.to_nat (offset c i - offset c (i - 1) - 1))) by lia.
  erewrite take_S_r; [done|].
  rewrite lookup_drop.
  replace (Z.to_nat (offset c (i - 1)) + Z.to_nat (offset c i - offset c (i - 1) - 1))%nat
    with (Z.to_nat (offset c i - 1)) by lia.
  done.
Qed.

Lemma getDataAt_invariant c i :
  invariant c → 0 ≤ i → i < size c →
  getDataAt i c
  = Ok (StringRef.mk (Some (drop (Z.to_nat (offset c (i - 1))) (chars c)))
          (offset c i - offset c (i - 1) - 1)).
Proof.
  intros Hinv Hi Hlt.
  pose proof (invariant_size_bound c Hinv) as Hsz.
  destruct Hinv as (_ & Ht & _ & Hb); rewrite PTRDIFF_MAX_eq in Hb.
  destruct (Ht i Hi Hlt) as (H1 & H2 & _).
  pose proof (terminated_offset_lower c (i - 1) Ht ltac:(lia) ltac:(lia)) as Hlo.
  unfold getDataAt, offsetAt, sizeAt.
  destruct (0 <=? i) eqn:E1; [|lia].
  destruct (i <? size c) eqn:E2; [|lia].
  simpl.
  rewrite to_ssize_small by lia.
  rewrite !offset_padded by lia; simpl.
  rewrite (wrap64_small (offset c i - offset c (i - 1))) by lia.
  rewrite wrap64_small by lia.
  reflexivity.
Qed.

Lemma element_slice c i :
  invariant c → 0 ≤ i → i < size c → element i c = Ok (slice c i).
Proof.
  intros Hinv Hi Hlt; unfold element.
  rewrite getDataAt_invariant by done; simpl.
  destruct Hinv as (_ & Ht & _ & Hb).
  destruct (Ht i Hi Hlt) as (H1 & H2 & _).
  pose proof (terminated_offset_lower c (i - 1) Ht ltac:(lia) ltac:(lia)) as Hlo.
  unfold StringRef.bytes; simpl.
  rewrite length_drop.
  unfold chars_size, pod_size in H2.
  destruct (0 <=? offset c i - offset c (i - 1) - 1) eqn:E1; [|lia].
  destruct (offset c i - offset c (i - 1) - 1
            <=? Z.of_nat (length (chars c) - Z.to_nat (offset c (i - 1)))) eqn:E2; [|apply Z.leb_gt in E2; lia].
  reflexivity.
Qed.

Lemma invariant_logical_lengths c : invariant c → logical_lengths c.
Proof.
  intros Hinv i Hi Hlt.
  eexists; split; [now apply getDataAt_invariant|]; simpl.
  destruct Hinv as (_ & Ht & _).
  destruct (Ht i Hi Hlt) as (H1 & _).
  repeat split; lia.
Qed.

Lemma length_contents c : length (contents c) = Z.to_nat (size c).
Proof. unfold contents; now rewrite length_fmap, length_seqZ. Qed.

Lemma contents_lookup c i :
  0 ≤ i → i < size c → contents c !! Z.to_nat i = Some (slice c i).
Proof.
  intros Hi Hlt; unfold contents.
  rewrite list_lookup_fmap, lookup_seqZ_lt by lia; simpl.
  do 2 f_equal; lia.
Qed.

Lemma contents_appended s c :
  invariant c →
  contents (appended (s ++ [x00]) c) = contents c ++ [s].
Proof.
  intros Hinv.
  pose proof Hinv as (_ & Ht & Hlast & _).
  pose proof (pod_size_nonneg (offsets c)) as Hsz; fold (size c) in Hsz.
  unfold contents; rewrite size_appended.
  replace (size c + 1) with (Z.succ (size c)) by lia.
  replace (Z.succ (size c)) with (Z.of_nat (S (Z.to_nat (size c)))) by lia.
  rewrite seqZ_S, fmap_app; simpl.
  replace (Z.of_nat (Z.to_nat (size c))) with (size c) by lia.
  f_equal.
  - apply list_fmap_ext; intros k i Hk.
    apply lookup_seqZ in Hk as [-> Hk].
    simpl in *.
    destruct (Ht (Z.of_nat k)) as (H1 & H2 & _); [lia..|].
    pose proof (terminated_offset_lower c (Z.of_nat k - 1) Ht ltac:(lia) ltac:(lia)).
    rewrite Z.add_0_l.
    apply slice_prefix with (rest := s ++ [x00]);
      rewrite ?offset_appended_old by lia; try done; lia.
  - f_equal; unfold slice.
    rewrite !Z.add_0_l.
    rewrite offset_appended_new, offset_appended_old by lia.
    rewrite Hlast.
    unfold appended, chars_size, pod_size; simpl.
    rewrite Nat2Z.id, drop_app_length.
    rewrite length_app; simpl.
    replace (Z.to_nat (Z.of_nat (length (chars c)) + Z.of_nat (length s + 1)
                       - Z.of_nat (length (chars c)) - 1)) with (length s) by lia.
    now rewrite take_app_length.
Qed.

Lemma insertFrom_appended src n c :
  invariant src → 0 ≤ n → n < size src →
  chars_size c + pod_size (slice src n) + 1 ≤ PTRDIFF_MAX →
  insertFrom uninit src n c = Ok (appended (slice src n ++ [x00]) c).
Proof.
  intros Hinv Hn Hlt Hfit.
  pose proof (invariant_size_bound src Hinv) as Hsz.
  pose proof (stored_slice src n Hinv Hn Hlt) as Hstored.
  destruct Hinv as (_ & Ht & _ & Hb); rewrite PTRDIFF_MAX_eq in *.
  destruct (Ht n Hn Hlt) as (H1 & H2 & _).
  pose proof (terminated_offset_lower src (n - 1) Ht ltac:(lia) ltac:(lia)) as Hlo.
  pose proof (pod_size_nonneg (chars c)) as Hc; fold (chars_size c) in Hc.
  assert (Hlen : pod_size (slice src n) = offset src n - offset src (n - 1) - 1).
  { unfold slice, pod_size. rewrite length_take, length_drop.
    unfold chars_size, pod_size in H2. lia. }
  assert (Hprev : to_ssize (wrap64 (n - 1)) = n - 1).
  { destruct (Z.eq_dec n 0) as [->|Hne].
    - now rewrite to_ssize_wrap_neg by lia.
    - rewrite wrap64_small, to_ssize_small; lia. }
  unfold insertFrom.
  rewrite Hprev, to_ssize_small by lia.
  rewrite !offset_padded by lia; simpl.
  rewrite (wrap64_small (offset src n - offset src (n - 1))) by lia.
  destruct (offset src n - offset src (n - 1) =? 1) eqn:E.
  - assert (slice src n = []) as ->.
    { unfold slice. replace (offset src n - offset src (n - 1) - 1) with 0 by lia.
      reflexivity. }
    unfold appended, pod_push_back, chars_size; simpl.
    rewrite pod_size_app.
    reflexivity.
  - unfold chars_size in *.
    rewrite wrap64_small by lia.
    rewrite pod_resize_grow by lia.
    rewrite pod_memcpy_tail;
      [|lia|unfold pod_size in *; rewrite length_drop; lia|lia].
    simpl.
    rewrite Hstored, Nat.sub_diag; simpl.
    rewrite app_nil_r.
    unfold appended, pod_push_back.
    rewrite pod_size_app, Hlen.
    do 4 f_equal.
    unfold chars_size, pod_size; simpl. lia.
Qed.

(** *** popBack *)

(** The column cut back to its first [m] elements. *)
Lemma popBack_invariant n c :
  invariant c → 0 ≤ n → n ≤ size c →
  popBack uninit n c
  = Ok (mk (take (Z.to_nat (size c - n)) (offsets c))
           (take (Z.to_nat (offset c (size c - n - 1))) (chars c))).
Proof.
  intros Hinv Hn Hle.
  pose proof (invariant_size_bound c Hinv) as Hsz.
  destruct Hinv as (Hnd & Ht & Hlast & Hb); rewrite PTRDIFF_MAX_eq in *.
  pose proof (Hnd (-1) (size c - n - 1) ltac:(lia) ltac:(lia) ltac:(lia)) as Hlo.
  pose proof (Hnd (size c - n - 1) (size c - 1) ltac:(lia) ltac:(lia) ltac:(lia)) as Hhi.
  rewrite offset_m1 in Hlo. rewrite Hlast in Hhi.
  pose proof (pod_size_nonneg (offsets c)) as Hs0; fold (size c) in Hs0.
  unfold popBack, offsets_back, offsetAt.
  rewrite (offset_padded c (size c - 1)) by lia; simpl.
  rewrite (wrap64_small (size c - n)) by lia.
  rewrite to_ssize_small by lia.
  rewrite offset_padded by lia; simpl.
  rewrite Hlast.
  rewrite (wrap64_small (chars_size c - offset c (size c - n - 1))) by lia.
  replace (chars_size c - (chars_size c - offset c (size c - n - 1)))
    with (offset c (size c - n - 1)) by lia.
  rewrite wrap64_small by lia.
  rewrite pod_resize_shrink by (fold (chars_size c); lia).
  unfold pod_resize_assume_reserved.
  fold (size c).
  destruct (0 <=? size c - n) eqn:E1; [|lia].
  destruct (size c - n <=? size c) eqn:E2; [|lia].
  reflexivity.
Qed.

Lemma popped_facts n c :
  invariant c → 0 ≤ n → n ≤ size c →
  let c' := mk (take (Z.to_nat (size c - n)) (offsets c))
               (take (Z.to_nat (offset c (size c - n - 1))) (chars c)) in
  size c' = size c - n ∧
  chars_size c' = offset c (size c - n - 1) ∧
  (∀ i, -1 ≤ i → i < size c - n → offset c' i = offset c i).
Proof.
  intros Hinv Hn Hle c'.
  destruct Hinv as (Hnd & Ht & Hlast & Hb).
  pose proof (Hnd (-1) (size c - n - 1) ltac:(lia) ltac:(lia) ltac:(lia)) as Hlo.
  pose proof (Hnd (size c - n - 1) (size c - 1) ltac:(lia) ltac:(lia) ltac:(lia)) as Hhi.
  rewrite offset_m1 in Hlo. rewrite Hlast in Hhi.
  assert (Hsize : size c' = size c - n).
  { unfold c', size, pod_size; simpl. rewrite length_take.
    unfold size, pod_size in Hle. lia. }
  split; [done|]. split.
  - unfold c', chars_size, pod_size; simpl. rewrite length_take.
    unfold chars_size, pod_size in Hhi. lia.
  - intros i Hi Hlt. unfold offset, c'; simpl.
    unfold size, pod_size in *.
    rewrite padded_at_take; [done|lia|lia|lia].
Qed.

Lemma invariant_popped n c :
  invariant c → 0 ≤ n → n ≤ size c →
  invariant (mk (take (Z.to_nat (size c - n)) (offsets c))
                (take (Z.to_nat (offset c (size c - n - 1))) (chars c))).
Proof.
  intros Hinv Hn Hle.
  destruct (popped_facts n c Hinv Hn Hle) as (Hsize & Hchars & Hoff).
  set (c' := mk _ _) in *.
  destruct Hinv as (Hnd & Ht & Hlast & Hb).
  assert (Ht' : terminated c').
  { intros i Hi Hlt. rewrite Hsize in Hlt.
    rewrite !Hoff by lia. rewrite Hchars.
    destruct (Ht i) as (H1 & H2 & H3); [lia..|].
    pose proof (Hnd i (size c - n - 1) ltac:(lia) ltac:(lia) ltac:(lia)).
    repeat split; try lia.
    unfold c'; simpl.
    rewrite lookup_take_lt; [done|].
    pose proof (terminated_offset_lower c (i - 1) Ht ltac:(lia) ltac:(lia)).
    lia. }
  split; [now apply terminated_non_decreasing|].
  split; [done|].
  split.
  - rewrite Hsize, Hchars. apply Hoff; lia.
  - rewrite Hchars.
    pose proof (Hnd (size c - n - 1) (size c - 1) ltac:(lia) ltac:(lia) ltac:(lia)).
    lia.
Qed.

Lemma contents_popped n c :
  invariant c → 0 ≤ n → n ≤ size c →
  contents (mk (take (Z.to_nat (size c - n)) (offsets c))
               (take (Z.to_nat (offset c (size c - n - 1))) (chars c)))
  = take (Z.to_nat (size c - n)) (contents c).
Proof.
  intros Hinv Hn Hle.
  destruct (popped_facts n c Hinv Hn Hle) as (Hsize & Hchars & Hoff).
  set (c' := mk _ _) in *.
  destruct Hinv as (Hnd & Ht & Hlast & Hb).
  unfold contents. rewrite Hsize.
  rewrite <- fmap_take.
  replace (take (Z.to_nat (size c - n)) (seqZ 0 (size c))) with (seqZ 0 (size c - n)).
  2:{ symmetry; apply take_seqZ; lia. }
  apply list_fmap_ext; intros k i Hk.
  apply lookup_seqZ in Hk as [-> Hk].
  rewrite Z.add_0_l.
  destruct (Ht (Z.of_nat k)) as (H1 & H2 & _); [lia..|].
  pose proof (terminated_offset_lower c (Z.of_nat k - 1) Ht ltac:(lia) ltac:(lia)).
  pose proof (Hnd (Z.of_nat k) (size c - n - 1) ltac:(lia) ltac:(lia) ltac:(lia)).
  symmetry.
  apply slice_prefix
    with (rest := drop (Z.to_nat (offset c (size c - n - 1))) (chars c));
    rewrite ?Hoff by lia; try done; try lia.
  unfold c'; simpl. now rewrite take_drop.
Qed.

Lemma element_lookup c k s :
  invariant c → contents c !! k = Some s → element (Z.of_nat k) c = Ok s.
Proof.
  intros Hinv Hk.
  apply lookup_lt_Some in Hk as Hlt. rewrite length_contents in Hlt.
  rewrite <- (Nat2Z.id k), contents_lookup in Hk by lia.
  injection Hk as <-.
  apply element_slice; [done|lia..].
Qed.

Lemma keeps_invariant_intro r c' :
  r = Ok c' → invariant c' → keeps_invariant r.
Proof.
  intros -> Hinv; exists c'; split; [done|].
  split; [done|now apply invariant_logical_lengths].
Qed.

Lemma run_call_appended k c :
  chars_size c + pod_size (passed k) + 1 ≤ PTRDIFF_MAX →
  run_call uninit k c = Ok (appended (passed k ++ [x00]) c).
Proof.
  intros Hfit; destruct k as [s|data]; simpl.
  - now apply insert_appended.
  - now apply insertData_appended.
Qed.

Lemma footprint_nonneg ks : 0 ≤ footprint ks.
Proof.
  induction ks as [|k ks IH]; simpl; [done|].
  pose proof (pod_size_nonneg (passed k)); lia.
Qed.

Lemma run_calls_contents ks : ∀ c,
  invariant c →
  chars_size c + footprint ks ≤ PTRDIFF_MAX →
  ∃ c', run_calls uninit ks c = Ok c' ∧ invariant c' ∧
        contents c' = contents c ++ (passed <$> ks).
Proof.
  induction ks as [|k ks IH]; intros c Hinv Hfit; simpl in *.
  - exists c; rewrite app_nil_r; done.
  - pose proof (footprint_nonneg ks) as Hks.
    rewrite run_call_appended by lia; simpl.
    destruct (IH (appended (passed k ++ [x00]) c)) as (c' & Hrun & Hinv' & Hc').
    + apply invariant_appended; [done|lia].
    + rewrite chars_size_appended, pod_size_app.
      unfold pod_size at 2; simpl. lia.
    + exists c'; split; [done|]; split; [done|].
      rewrite Hc', contents_appended by done.
      now rewrite <- app_assoc.
Qed.
End column_string_facts.

(** ** ColumnString: the properties of the spec *)

(** C4.  Each of insert, insertData, insertFrom, insertDefault and popBack,
    applied to a column that satisfies the representation invariant (and,
    for an insertion, with room in memory for the new bytes), gives a
    column that satisfies it again: the offsets are non-decreasing, each
    element lies between its two offsets in [chars] and ends with the zero
    terminator, and the view of element i has offsets[i] - offsets[i-1] - 1
    bytes. *)
Theorem C4_operations_keep_invariant
    (uninit : byte) (c src : ColumnString.t) (x : Field) (s : String)
    (data : list byte) (n m : Z) :
  ColumnString.invariant c →
  ColumnString.invariant src →
  get Types.String x = Ok s →
  ColumnString.chars_size c + pod_size s + 1 ≤ PTRDIFF_MAX →
  ColumnString.chars_size c + pod_size data + 1 ≤ PTRDIFF_MAX →
  0 ≤ n → n < ColumnString.size src →
  ColumnString.chars_size c + pod_size (ColumnString.slice src n) + 1 ≤ PTRDIFF_MAX →
  0 ≤ m → m ≤ ColumnString.size c →
  ColumnString.keeps_invariant (ColumnString.insert uninit x c) ∧
  ColumnString.keeps_invariant (ColumnString.insertData uninit data c) ∧
  ColumnString.keeps_invariant (ColumnString.insertFrom uninit src n c) ∧
  ColumnString.keeps_invariant (ColumnString.insertDefault c) ∧
  ColumnString.keeps_invariant (ColumnString.popBack uninit m c).
Proof.
  intros Hc Hsrc Hx Hs Hdata Hn Hlt Hfrom Hm Hle.
  assert (x = FString s) as ->.
  { destruct x; simpl in Hx; try discriminate. now injection Hx as ->. }
  pose proof (pod_size_nonneg s). pose proof (pod_size_nonneg data).
  repeat split.
  - eapply keeps_invariant_intro; [now apply insert_appended|].
    now apply invariant_appended.
  - eapply keeps_invariant_intro; [now apply insertData_appended|].
    now apply invariant_appended.
  - eapply keeps_invariant_intro; [now apply insertFrom_appended|].
    now apply invariant_appended.
  - eapply keeps_invariant_intro; [apply insertDefault_appended; [done|lia]|].
    apply (invariant_appended [] c); [done|].
    unfold pod_size at 1; simpl; lia.
  - eapply keeps_invariant_intro; [now apply popBack_invariant|].
    now apply invariant_popped.
Qed.

Lemma C4_operations_keep_invariant_witness :
  let src := ColumnString.appended [x61; x62; x00] ColumnString.empty in
  ColumnString.keeps_invariant
    (ColumnString.insert xff (FString [x68; x69]) ColumnString.empty) ∧
  ColumnString.keeps_invariant
    (ColumnString.insertData xff [x78; x79; x7a] ColumnString.empty) ∧
  ColumnString.keeps_invariant
    (ColumnString.insertFrom xff src 0 ColumnString.empty) ∧
  ColumnString.keeps_invariant (ColumnString.insertDefault ColumnString.empty) ∧
  ColumnString.keeps_invariant (ColumnString.popBack xff 0 ColumnString.empty).
Proof.
  intros src.
  apply (C4_operations_keep_invariant xff ColumnString.empty src
           (FString [x68; x69]) [x68; x69] [x78; x79; x7a] 0 0).
  - apply invariant_empty.
  - apply (invariant_appended [x61; x62] ColumnString.empty).
    + apply invariant_empty.
    + vm_compute; discriminate.
  - reflexivity.
  - vm_compute; discriminate.
  - vm_compute; discriminate.
  - lia.
  - vm_compute; reflexivity.
  - vm_compute; discriminate.
  - lia.
  - vm_compute; discriminate.
Defined.

(** C5.  After any sequence of insert and insertData calls on an empty
    column (whose bytes and terminators fit in memory), size() is the
    number of calls and getDataAt(i) shows exactly the bytes the i-th call
    passed, without the terminator. *)
Theorem C5_inserted_bytes_are_read_back
    (uninit : byte) (ks : list ColumnString.call) :
  ColumnString.footprint ks ≤ PTRDIFF_MAX →
  ∃ c, ColumnString.run_calls uninit ks ColumnString.empty = Ok c ∧
       ColumnString.size c = Z.of_nat (length ks) ∧
       ∀ i k, ks !! i = Some k →
         ∃ r, ColumnString.getDataAt (Z.of_nat i) c = Ok r ∧
              StringRef.bytes r = Ok (ColumnString.passed k).
Proof.
  intros Hfit.
  destruct (run_calls_contents uninit ks ColumnString.empty) as (c & Hrun & Hinv & Hc).
  - apply invariant_empty.
  - exact Hfit.
  - exists c; split; [done|].
    assert (Hsize : ColumnString.size c = Z.of_nat (length ks)).
    { pose proof (length_contents c) as Hlen.
      rewrite Hc in Hlen; simpl in Hlen. rewrite length_fmap in Hlen.
      pose proof (pod_size_nonneg (ColumnString.offsets c)) as H0.
      fold (ColumnString.size c) in H0. lia. }
    split; [done|].
    intros i k Hk.
    assert (He : ColumnString.element (Z.of_nat i) c = Ok (ColumnString.passed k)).
    { apply element_lookup; [done|].
      rewrite Hc; simpl. now rewrite list_lookup_fmap, Hk. }
    unfold ColumnString.element in He.
    destruct (ColumnString.getDataAt (Z.of_nat i) c) as [r| |]; simpl in He;
      try discriminate.
    exists r; done.
Qed.

Lemma C5_inserted_bytes_are_read_back_witness :
  ∃ c, ColumnString.run_calls xff
         [ColumnString.call_insert [x68; x69]; ColumnString.call_insertData [];
          ColumnString.call_insertData [x61]] ColumnString.empty = Ok c ∧
       ColumnString.size c = 3 ∧
       ∀ i k, [ColumnString.call_insert [x68; x69]; ColumnString.call_insertData [];
               ColumnString.call_insertData [x61]] !! i = Some k →
         ∃ r, ColumnString.getDataAt (Z.of_nat i) c = Ok r ∧
              StringRef.bytes r = Ok (ColumnString.passed k).
Proof.
  apply (C5_inserted_bytes_are_read_back xff
           [ColumnString.call_insert [x68; x69]; ColumnString.call_insertData [];
            ColumnString.call_insertData [x61]]).
  vm_compute; discriminate.
Defined.

(** C7, as the code has it.  For n <= size(), popBack(n) gives the column
    cut back to its first size() - n elements: both arrays are truncated
    and the elements that remain read as before.  For n > size() the code
    makes no check and signals no failure: it reads [offsets] out of its
    bounds, and its result is undefined. *)
Theorem C7_popBack_removes_last_elements
    (uninit : byte) (c : ColumnString.t) (n : Z) :
  ColumnString.invariant c → 0 ≤ n → n < 2 ^ 64 →
  (n ≤ ColumnString.size c →
   ∃ c', ColumnString.popBack uninit n c = Ok c' ∧
         ColumnString.invariant c' ∧
         ColumnString.size c' = ColumnString.size c - n ∧
         ColumnString.offsets c'
         = take (Z.to_nat (ColumnString.size c - n)) (ColumnString.offsets c) ∧
         ColumnString.chars c'
         = take (Z.to_nat (ColumnString.chars_size c')) (ColumnString.chars c) ∧
         ColumnString.contents c'
         = take (Z.to_nat (ColumnString.size c - n)) (ColumnString.contents c) ∧
         ∀ i, 0 ≤ i → i < ColumnString.size c - n →
              ColumnString.element i c' = ColumnString.element i c) ∧
  (ColumnString.size c < n →
   ColumnString.popBack uninit n c = Undefined).
Proof.
  intros Hinv Hn Hmax; split.
  - intros Hle.
    destruct (popped_facts n c Hinv Hn Hle) as (Hsize & Hchars & Hoff).
    pose proof (invariant_popped n c Hinv Hn Hle) as Hinv'.
    pose proof (contents_popped n c Hinv Hn Hle) as Hcont.
    eexists; split; [now apply popBack_invariant|].
    split; [done|]. split; [done|]. split; [done|].
    split; [now rewrite Hchars|].
    split; [done|].
    intros i Hi Hlt.
    rewrite !element_slice by (try done; lia).
    f_equal.
    assert (Hl : ColumnString.contents c !! Z.to_nat i = Some (ColumnString.slice c i))
      by (apply contents_lookup; lia).
    rewrite <- (lookup_take_lt _ (Z.to_nat (ColumnString.size c - n))) in Hl by lia.
    rewrite <- Hcont, contents_lookup in Hl by lia.
    now injection Hl.
  - intros Hgt.
    pose proof (pod_size_nonneg (ColumnString.offsets c)) as Hs0.
    fold (ColumnString.size c) in Hs0.
    pose proof (invariant_size_bound c Hinv) as Hsz.
    destruct Hinv as (_ & _ & _ & Hb); rewrite PTRDIFF_MAX_eq in Hb.
    unfold ColumnString.popBack, ColumnString.offsets_back, ColumnString.offsetAt.
    rewrite (offset_padded c (ColumnString.size c - 1)) by lia; simpl.
    assert (Hidx : to_ssize (wrap64 (ColumnString.size c - n)) - 1 < -1 ∨
                   ColumnString.size c ≤ to_ssize (wrap64 (ColumnString.size c - n)) - 1).
    { destruct (Z_lt_le_dec (ColumnString.size c - n) (- 2 ^ 63)) as [Hfar|Hnear].
      - right. unfold wrap64.
        replace ((ColumnString.size c - n) mod 2 ^ 64)
          with (ColumnString.size c - n + 2 ^ 64).
        2:{ apply Z.mod_unique with (q := -1); lia. }
        rewrite to_ssize_small by lia. lia.
      - left. rewrite to_ssize_wrap_neg by lia. lia. }
    unfold padded_at.
    fold (ColumnString.size c).
    destruct Hidx as [Hidx|Hidx].
    + destruct (_ =? -1) eqn:E1; [lia|].
      destruct (0 <=? _) eqn:E2; [lia|]. reflexivity.
    + destruct (_ =? -1) eqn:E1; [lia|].
      destruct (0 <=? _) eqn:E2; simpl; [|reflexivity].
      destruct (_ <? ColumnString.size c) eqn:E3; [lia|]. reflexivity.
Qed.

Lemma C7_popBack_removes_last_elements_witness :
  (1 ≤ 1 →
   ∃ c', ColumnString.popBack xff 1
           (ColumnString.appended [x68; x65; x6c; x6c; x6f; x00] ColumnString.empty)
         = Ok c' ∧
         ColumnString.invariant c' ∧
         ColumnString.size c' = 1 - 1 ∧
         ColumnString.offsets c' = take (Z.to_nat (1 - 1)) [6] ∧
         ColumnString.chars c'
         = take (Z.to_nat (ColumnString.chars_size c')) [x68; x65; x6c; x6c; x6f; x00] ∧
         ColumnString.contents c'
         = take (Z.to_nat (1 - 1))
             (ColumnString.contents
                (ColumnString.appended [x68; x65; x6c; x6c; x6f; x00] ColumnString.empty)) ∧
         ∀ i, 0 ≤ i → i < 1 - 1 →
              ColumnString.element i c'
              = ColumnString.element i
                  (ColumnString.appended [x68; x65; x6c; x6c; x6f; x00] ColumnString.empty)) ∧
  (1 < 1 →
   ColumnString.popBack xff 1
     (ColumnString.appended [x68; x65; x6c; x6c; x6f; x00] ColumnString.empty)
   = Undefined).
Proof.
  apply (C7_popBack_removes_last_elements xff
           (ColumnString.appended [x68; x65; x6c; x6c; x6f; x00] ColumnString.empty) 1).
  - apply (invariant_appended [x68; x65; x6c; x6c; x6f] ColumnString.empty).
    + apply invariant_empty.
    + vm_compute; discriminate.
  - lia.
  - lia.
Defined.

(** C7 as the spec states it asks popBack(n) to fail for n > size().
    On the empty column popBack(1) signals nothing: no exception leaves
    the function; it reads [offsets[-2]]. *)
Lemma C7_popBack_beyond_size_signals_no_failure :
  ColumnString.size ColumnString.empty < 1 ∧
  ColumnString.popBack x00 1 ColumnString.empty = Undefined ∧
  throws (ColumnString.popBack x00 1 ColumnString.empty) = false.
Proof. repeat split. Qed.

(** The scenario of the spec: "hello", then popBack(1), gives back the
    empty column. *)
Example popBack_hello :
  (c ← ColumnString.insertData x00 [x68; x65; x6c; x6c; x6f] ColumnString.empty;
   ColumnString.popBack x00 1 c) = Ok ColumnString.empty.
Proof. reflexivity. Qed.

(** C10.  On a column that satisfies the invariant, insertDefault does
    what insertData does with no bytes: one element is added, and it reads
    as the empty string; the elements before it read as they did. *)
Theorem C10_insertDefault_is_insertData_of_nothing
    (uninit : byte) (c : ColumnString.t) :
  ColumnString.invariant c →
  ColumnString.chars_size c + 1 ≤ PTRDIFF_MAX →
  ColumnString.insertDefault c = ColumnString.insertData uninit [] c ∧
  ∃ c', ColumnString.insertDefault c = Ok c' ∧
        ColumnString.size c' = ColumnString.size c + 1 ∧
        ColumnString.element (ColumnString.size c) c' = Ok [] ∧
        ColumnString.contents c' = ColumnString.contents c ++ [[]].
Proof.
  intros Hinv Hfit.
  pose proof (pod_size_nonneg (ColumnString.offsets c)) as Hs0.
  fold (ColumnString.size c) in Hs0.
  rewrite insertDefault_appended by done.
  rewrite insertData_appended by (unfold pod_size at 1; simpl; lia).
  split; [reflexivity|].
  exists (ColumnString.appended [x00] c).
  split; [reflexivity|].
  split; [apply size_appended|].
  pose proof (contents_appended [] c Hinv) as Hc; simpl in Hc.
  split; [|done].
  rewrite <- (Z2Nat.id (ColumnString.size c)) by lia.
  apply element_lookup.
  - apply (invariant_appended [] c); [done|]. unfold pod_size at 1; simpl; lia.
  - rewrite Hc, <- length_contents.
    rewrite lookup_app_r by lia. now rewrite Nat.sub_diag.
Qed.

Lemma C10_insertDefault_is_insertData_of_nothing_witness :
  ColumnString.insertDefault ColumnString.empty
  = ColumnString.insertData xff [] ColumnString.empty ∧
  ∃ c', ColumnString.insertDefault ColumnString.empty = Ok c' ∧
        ColumnString.size c' = ColumnString.size ColumnString.empty + 1 ∧
        ColumnString.element (ColumnString.size ColumnString.empty) c' = Ok [] ∧
        ColumnString.contents c' = ColumnString.contents ColumnString.empty ++ [[]].
Proof.
  apply (C10_insertDefault_is_insertData_of_nothing xff ColumnString.empty).
  - apply invariant_empty.
  - vm_compute; discriminate.
Defined.

(** ** Field: exceptions *)

Lemma String_eq_spec (x y : String) : String_eq x y = bool_decide (x = y).
Proof.
  revert y; induction x as [|a x IH]; intros [|b y]; simpl; try done.
  rewrite IH.
  destruct (Byte.eqb a b) eqn:E.
  - apply Byte.byte_dec_bl in E as ->; simpl.
    destruct (decide (x = y)) as [->|Hne].
    + rewrite !bool_decide_eq_true_2 by done. reflexivity.
    + rewrite !bool_decide_eq_false_2 by congruence. reflexivity.
  - simpl. symmetry; apply bool_decide_eq_false_2.
    intros [= -> ->].
    rewrite Byte.byte_dec_lb in E by reflexivity. discriminate.
Qed.

Lemma Types_eqb_spec (a b : Types.Which) : Types.eqb a b = bool_decide (a = b).
Proof. destruct a, b; reflexivity. Qed.

(** C9.  Between two AggregateFunctionStateData values each of <, <=, >
    and >= throws ("Operator ... is not implemented for
    AggregateFunctionStateData.", ILLEGAL_TYPE_OF_ARGUMENT) and gives no
    boolean; == throws when the names differ and is otherwise the equality
    of the two data.  The comparisons of two Fields that carry such values
    do the same ([>] and [>=] of Field through [<] and [<=]). *)
Theorem C9_aggregate_state_comparisons (a b : AggregateFunctionStateData.t) :
  (AggregateFunctionStateData.operator_lt a b
   = Throw (mkException
              "Operator < is not implemented for AggregateFunctionStateData."
              ILLEGAL_TYPE_OF_ARGUMENT) ∧
   AggregateFunctionStateData.operator_le a b
   = Throw (mkException
              "Operator <= is not implemented for AggregateFunctionStateData."
              ILLEGAL_TYPE_OF_ARGUMENT) ∧
   AggregateFunctionStateData.operator_gt a b
   = Throw (mkException
              "Operator > is not implemented for AggregateFunctionStateData."
              ILLEGAL_TYPE_OF_ARGUMENT) ∧
   AggregateFunctionStateData.operator_ge a b
   = Throw (mkException
              "Operator >= is not implemented for AggregateFunctionStateData."
              ILLEGAL_TYPE_OF_ARGUMENT)) ∧
  AggregateFunctionStateData.operator_eq a b
  = (if bool_decide (AggregateFunctionStateData.name a = AggregateFunctionStateData.name b)
     then Ok (bool_decide (AggregateFunctionStateData.data a
                           = AggregateFunctionStateData.data b))
     else Throw
            (mkException
               ("Comparing aggregate functions with different types: "
                  ++ string_of_list_byte (AggregateFunctionStateData.name a)
                  ++ " and "
                  ++ string_of_list_byte (AggregateFunctionStateData.name b))%string
               ILLEGAL_TYPE_OF_ARGUMENT)) ∧
  (operator_lt (FAggregateFunctionState a) (FAggregateFunctionState b)
   = AggregateFunctionStateData.operator_lt a b ∧
   operator_le (FAggregateFunctionState a) (FAggregateFunctionState b)
   = AggregateFunctionStateData.operator_le a b ∧
   operator_gt (FAggregateFunctionState a) (FAggregateFunctionState b)
   = AggregateFunctionStateData.operator_lt b a ∧
   operator_ge (FAggregateFunctionState a) (FAggregateFunctionState b)
   = AggregateFunctionStateData.operator_le b a ∧
   operator_eq (FAggregateFunctionState a) (FAggregateFunctionState b)
   = AggregateFunctionStateData.operator_eq a b).
Proof.
  repeat split.
  unfold AggregateFunctionStateData.operator_eq.
  rewrite !String_eq_spec.
  now destruct (bool_decide _).
Qed.


(** ** Field: the order *)

Lemma Field_nested_ind (P : Field → Prop)
    (Hleaf : ∀ f, (∀ l, f ≠ FArray l) → (∀ l, f ≠ FTuple l) → P f)
    (HArray : ∀ l, Forall P l → P (FArray l))
    (HTuple : ∀ l, Forall P l → P (FTuple l)) :
  ∀ f, P f.
Proof.
  fix IH 1.
  intros f; destruct f as [ | | | | | | |l|l| | | | ];
    try (apply Hleaf; discriminate).
  - apply HArray. revert l. fix IHl 1.
    intros [|x l]; constructor; [apply IH|apply IHl].
  - apply HTuple. revert l. fix IHl 1.
    intros [|x l]; constructor; [apply IH|apply IHl].
Qed.

(** [less2] is [operator<] in its two directions: its second part is the
    first part with the arguments exchanged.  With it, [operator<] on two
    arrays is the loop of [std::lexicographical_compare]. *)
Lemma lexicographical_compare2_swap {A} (less2 : A → A → outcome bool * outcome bool) xs :
  Forall (fun x => ∀ y, less2 y x = (snd (less2 x y), fst (less2 x y))) xs →
  ∀ ys, lexicographical_compare2 less2 ys xs
        = (snd (lexicographical_compare2 less2 xs ys),
           fst (lexicographical_compare2 less2 xs ys)).
Proof.
  induction 1 as [|x xs Hx Hxs IH]; intros [|y ys]; simpl; try done.
  now rewrite (Hx y), (IH ys).
Qed.

Lemma less2_swap a : ∀ b, less2 b a = (snd (less2 a b), fst (less2 a b)).
Proof.
  induction a as [a Hna Hnt|l IH|l IH] using Field_nested_ind; intros b.
  - destruct a, b; try reflexivity.
    + now destruct (Hna a).
    + now destruct (Hnt a).
  - destruct b; try reflexivity. simpl.
    now apply lexicographical_compare2_swap.
  - destruct b; try reflexivity. simpl.
    now apply lexicographical_compare2_swap.
Qed.

Lemma operator_lt_Array x xs y ys :
  operator_lt (FArray []) (FArray []) = Ok false ∧
  operator_lt (FArray []) (FArray (y :: ys)) = Ok true ∧
  operator_lt (FArray (x :: xs)) (FArray []) = Ok false ∧
  operator_lt (FArray (x :: xs)) (FArray (y :: ys))
  = (c1 ← operator_lt x y; if c1 : bool then Ok true else
     c2 ← operator_lt y x; if c2 : bool then Ok false else
     operator_lt (FArray xs) (FArray ys)).
Proof.
  repeat split. unfold operator_lt; simpl.
  now rewrite (less2_swap x y).
Qed.

Lemma Zltb_compare x y : (x <? y) = is_lt (x ?= y).
Proof. unfold Z.ltb; now destruct (x ?= y). Qed.

Lemma Zleb_compare x y : (x <=? y) = negb (is_gt (x ?= y)).
Proof. unfold Z.leb; now destruct (x ?= y). Qed.

Lemma Zeqb_compare x y : (x =? y) = is_eq (x ?= y).
Proof.
  destruct (Z.compare_spec x y) as [->|H|H]; simpl.
  - apply Z.eqb_refl.
  - apply Z.eqb_neq; lia.
  - apply Z.eqb_neq; lia.
Qed.

Lemma Zgtb_compare x y : (x >? y) = is_gt (x ?= y).
Proof. unfold Z.gtb; now destruct (x ?= y). Qed.

Lemma Zcompare_antisym x y : (y ?= x) = CompOpp (x ?= y).
Proof. apply Z.compare_antisym. Qed.

Lemma is_lt_CompOpp c : is_lt (CompOpp c) = is_gt c.
Proof. now destruct c. Qed.

Lemma is_gt_CompOpp c : is_gt (CompOpp c) = is_lt c.
Proof. now destruct c. Qed.

Lemma is_eq_CompOpp c : is_eq (CompOpp c) = is_eq c.
Proof. now destruct c. Qed.

Lemma byte_compare_antisym a b : byte_compare b a = CompOpp (byte_compare a b).
Proof. apply N.compare_antisym. Qed.

Lemma byte_compare_eq a b : byte_compare a b = Eq → a = b.
Proof.
  unfold byte_compare; intros H%N.compare_eq.
  pose proof (Byte.of_to_N a) as Ha. pose proof (Byte.of_to_N b) as Hb.
  rewrite H in Ha. congruence.
Qed.

Lemma byte_compare_refl a : byte_compare a a = Eq.
Proof. apply N.compare_refl. Qed.

Section lex_compare_facts.
Context {A : Type} (cmp : A → A → comparison).

Lemma lex_compare_antisym xs :
  Forall (fun x => ∀ y, cmp y x = CompOpp (cmp x y)) xs →
  ∀ ys, lex_compare cmp ys xs = CompOpp (lex_compare cmp xs ys).
Proof.
  induction 1 as [|x xs Hx Hxs IH]; intros [|y ys]; simpl; try done.
  rewrite Hx. destruct (cmp x y); simpl; auto.
Qed.

Lemma lex_compare_laws xs :
  Forall (compare_laws cmp) xs → compare_laws (lex_compare cmp) xs.
Proof.
  induction 1 as [|x xs Hx Hxs IH]; intros ys zs.
  - destruct ys as [|y ys], zs as [|z zs]; simpl; repeat split; try done.
    all: destruct (cmp y z); done.
  - destruct ys as [|y ys], zs as [|z zs]; simpl; repeat split; try done.
    all: destruct (Hx y z) as (HE & HT & HLE).
    all: destruct (IH ys zs) as (IE & IT & ILE).
    all: destruct (cmp x y) eqn:Exy; try done.
    all: try (rewrite (HE eq_refl)).
    all: destruct (cmp y z) eqn:Eyz; try done.
    all: try (rewrite (HT eq_refl eq_refl)); try (rewrite (HLE eq_refl eq_refl)); auto.
Qed.

Lemma lex_compare_Eq_length xs : ∀ ys,
  lex_compare cmp xs ys = Eq → length xs = length ys.
Proof.
  induction xs as [|x xs IH]; intros [|y ys]; simpl; try done.
  destruct (cmp x y); try done. intros H; f_equal; auto.
Qed.
End lex_compare_facts.

Lemma byte_compare_laws a : compare_laws byte_compare a.
Proof.
  intros b c; unfold byte_compare; repeat split.
  - intros H%N.compare_eq. now rewrite H.
  - rewrite !N.compare_lt_iff. lia.
  - intros H1 H2%N.compare_eq. now rewrite <- H2.
Qed.

Lemma Zcompare_laws a : compare_laws Z.compare a.
Proof.
  intros b c; repeat split.
  - intros H%Z.compare_eq. now rewrite H.
  - rewrite !Z.compare_lt_iff. lia.
  - intros H1 H2%Z.compare_eq. now rewrite <- H2.
Qed.

(** [std::string]: the comparisons of the code are those of the
    lexicographic order of the bytes. *)
Lemma String_lt_compare x : ∀ y, String_lt x y = is_lt (lex_compare byte_compare x y).
Proof.
  induction x as [|a x IH]; intros [|b y]; simpl; try done.
  unfold byte_compare at 1.
  rewrite !N.ltb_compare, (N.compare_antisym (Byte.to_N a)).
  destruct (Byte.to_N a ?= Byte.to_N b)%N; simpl; auto.
Qed.

Lemma String_eq_compare x : ∀ y, String_eq x y = is_eq (lex_compare byte_compare x y).
Proof.
  induction x as [|a x IH]; intros [|b y]; simpl; try done.
  destruct (byte_compare a b) eqn:E.
  - apply byte_compare_eq in E as ->.
    rewrite Byte.byte_dec_lb by reflexivity. simpl. apply IH.
  - destruct (Byte.eqb a b) eqn:E'; [|done].
    apply Byte.byte_dec_bl in E' as ->. now rewrite byte_compare_refl in E.
  - destruct (Byte.eqb a b) eqn:E'; [|done].
    apply Byte.byte_dec_bl in E' as ->. now rewrite byte_compare_refl in E.
Qed.

Lemma String_le_compare x y :
  String_le x y = negb (is_gt (lex_compare byte_compare x y)).
Proof.
  unfold String_le. rewrite String_lt_compare.
  rewrite (lex_compare_antisym byte_compare x).
  - now rewrite is_lt_CompOpp.
  - apply Forall_forall; intros a _ b. apply byte_compare_antisym.
Qed.

Lemma sign_scale u v p q :
  0 < p → 0 < q → u * q = p * v → (u ?= 0) = (v ?= 0).
Proof.
  intros Hp Hq H.
  destruct (Z.compare_spec u 0), (Z.compare_spec v 0);
    try reflexivity; exfalso; nia.
Qed.

Lemma decimal_compare_laws (w : Z) (a : DecimalField.t) :
  compare_laws
    (fun d e => DecimalField.getValue w d * 10 ^ DecimalField.getScale e
                ?= DecimalField.getValue w e * 10 ^ DecimalField.getScale d) a.
Proof.
  unfold compare_laws; intros b c; cbv beta.
  assert (Hpos : ∀ d, 0 < 10 ^ DecimalField.getScale d).
  { intros d. apply Z.pow_pos_nonneg; [lia|].
    unfold DecimalField.getScale, wrap32. apply Z.mod_pos_bound. lia. }
  pose proof (Hpos a) as Ha. pose proof (Hpos b) as Hb. pose proof (Hpos c) as Hc.
  generalize dependent (10 ^ DecimalField.getScale a).
  generalize dependent (10 ^ DecimalField.getScale b).
  generalize dependent (10 ^ DecimalField.getScale c).
  generalize (DecimalField.getValue w a) (DecimalField.getValue w b)
             (DecimalField.getValue w c).
  clear Hpos. intros x y z pc Hc pb Hb pa Ha.
  repeat split.
  - intros H%Z.compare_eq.
    assert (H' : x * pb * pc = y * pa * pc) by now rewrite H.
    assert (Hk : (x * pc - z * pa) * pb = pa * (y * pc - z * pb)) by lia.
    rewrite (Z.compare_sub (x * pc)), (Z.compare_sub (y * pc)).
    now apply (sign_scale _ _ pa pb).
  - rewrite !Z.compare_lt_iff. intros H1 H2.
    assert (x * pb * pc < y * pa * pc) by (apply Zmult_lt_compat_r; lia).
    assert (y * pc * pa < z * pb * pa) by (apply Zmult_lt_compat_r; lia).
    apply (Zmult_lt_reg_r _ _ pb); lia.
  - rewrite !Z.compare_lt_iff. intros H1 H2%Z.compare_eq.
    assert (x * pb * pc < y * pa * pc) by (apply Zmult_lt_compat_r; lia).
    assert (y * pc * pa = z * pb * pa) by now rewrite H2.
    apply (Zmult_lt_reg_r _ _ pb); lia.
Qed.

Lemma spec_compare_antisym a : ∀ b, spec_compare b a = CompOpp (spec_compare a b).
Proof.
  induction a as [a Hna Hnt|l IH|l IH] using Field_nested_ind; intros b.
  - destruct a, b; simpl; try reflexivity; try apply Z.compare_antisym.
    + apply lex_compare_antisym, Forall_forall.
      intros x _ y; apply byte_compare_antisym.
    + now destruct (Hna a).
    + now destruct (Hnt a).
  - destruct b; simpl; try reflexivity.
    now apply lex_compare_antisym.
  - destruct b; simpl; try reflexivity.
    now apply lex_compare_antisym.
Qed.

Lemma spec_compare_laws a : compare_laws spec_compare a.
Proof.
  induction a as [a Hna Hnt|l IH|l IH] using Field_nested_ind; intros b c.
  - destruct a; try (now destruct (Hna a)); try (now destruct (Hnt a));
      destruct b, c; simpl;
      first [ done
            | exact (Zcompare_laws _ _ _)
            | exact (decimal_compare_laws _ _ _ _)
            | apply (lex_compare_laws byte_compare);
              apply Forall_forall; intros x _; apply byte_compare_laws ].
  - destruct b, c; simpl; first [done | now apply lex_compare_laws].
  - destruct b, c; simpl; first [done | now apply lex_compare_laws].
Qed.

Lemma Zltb_swap_compare x y : (y <? x) = is_gt (x ?= y).
Proof. rewrite Z.ltb_antisym, Zleb_compare. now destruct (x ?= y). Qed.

Lemma Zleb_swap_compare x y : (y <=? x) = negb (is_lt (x ?= y)).
Proof. rewrite Z.leb_antisym, Zltb_compare. reflexivity. Qed.

Lemma String_lt_swap_compare x y :
  String_lt y x = is_gt (lex_compare byte_compare x y).
Proof.
  rewrite String_lt_compare, (lex_compare_antisym byte_compare x).
  - apply is_lt_CompOpp.
  - apply Forall_forall; intros a _ b. apply byte_compare_antisym.
Qed.

Lemma wrap64_eq_signed x y : wrap64 x = wrap64 y ↔ signed 64 x = signed 64 y.
Proof.
  unfold wrap64, signed.
  change (2 ^ (64 - 1)) with 9223372036854775808.
  change (2 ^ 64) with 18446744073709551616.
  split; intros H; Z.div_mod_to_equations; lia.
Qed.

Lemma wrap64_eqb_signed x y :
  (wrap64 x =? wrap64 y) = is_eq (signed 64 x ?= signed 64 y).
Proof.
  rewrite <- Zeqb_compare.
  destruct (Z.eqb_spec (wrap64 x) (wrap64 y)) as [H|H];
    destruct (Z.eqb_spec (signed 64 x) (signed 64 y)) as [H'|H']; try done.
  - now apply wrap64_eq_signed in H.
  - now apply wrap64_eq_signed in H'.
Qed.

Create HintDb compare_facts.
#[local] Hint Resolve Zltb_compare Zltb_swap_compare Zleb_compare Zleb_swap_compare
  Zeqb_compare String_lt_compare String_lt_swap_compare String_eq_compare
  String_le_compare wrap64_eqb_signed : compare_facts.

Section vector_compare_facts.
Context {A : Type} (cmp : A → A → comparison) (Q : A → Prop).

Lemma lexicographical_compare2_spec less2 xs :
  Forall (fun x => ∀ y, Q y →
            less2 x y = (Ok (is_lt (cmp x y)), Ok (is_gt (cmp x y)))) xs →
  ∀ ys, Forall Q ys →
  lexicographical_compare2 less2 xs ys
  = (Ok (is_lt (lex_compare cmp xs ys)), Ok (is_gt (lex_compare cmp xs ys))).
Proof.
  induction 1 as [|x xs Hx Hxs IH]; intros ys Hys.
  - now destruct ys.
  - destruct Hys as [|y ys Hy Hys]; [done|].
    simpl. rewrite (Hx y Hy), (IH ys Hys); simpl.
    now destruct (cmp x y).
Qed.

Lemma std_equal_spec equal1 xs :
  Forall (fun x => ∀ y, Q y → equal1 x y = Ok (is_eq (cmp x y))) xs →
  ∀ ys, Forall Q ys → length xs = length ys →
  std_equal equal1 xs ys = Ok (is_eq (lex_compare cmp xs ys)).
Proof.
  induction 1 as [|x xs Hx Hxs IH]; intros ys Hys Hlen.
  - now destruct ys.
  - destruct Hys as [|y ys Hy Hys]; [done|].
    simpl. rewrite (Hx y Hy); simpl.
    destruct (cmp x y); simpl; try done.
    apply IH; [done|]. simpl in Hlen; lia.
Qed.

Lemma vector_eq_spec equal1 xs ys :
  Forall (fun x => ∀ y, Q y → equal1 x y = Ok (is_eq (cmp x y))) xs →
  Forall Q ys →
  vector_eq equal1 xs ys = Ok (is_eq (lex_compare cmp xs ys)).
Proof.
  intros Hxs Hys; unfold vector_eq.
  destruct (Nat.eqb_spec (length xs) (length ys)) as [Hlen|Hlen].
  - now apply std_equal_spec.
  - destruct (lex_compare cmp xs ys) eqn:E; try done.
    now apply lex_compare_Eq_length in E.
Qed.
End vector_compare_facts.

Lemma ordered_Forall l : forallb ordered l = true → Forall (fun x => ordered x = true) l.
Proof. intros H. apply Forall_forall. intros x Hx%list_elem_of_In. revert x Hx. now apply forallb_forall. Qed.

(** On ordered Fields [operator<] (both ways) and [operator==] are the
    comparison of the spec. *)
Lemma less2_eq_ordered a : ∀ b,
  ordered a = true → ordered b = true →
  less2 a b = (Ok (is_lt (spec_compare a b)), Ok (is_gt (spec_compare a b))) ∧
  operator_eq a b = Ok (is_eq (spec_compare a b)).
Proof.
  induction a as [a Hna Hnt|l IH|l IH] using Field_nested_ind; intros b Ha Hb.
  - destruct a; try (now destruct (Hna a)); try (now destruct (Hnt a));
      destruct b; try discriminate; simpl; split; try reflexivity;
      unfold DecimalField.operator_lt, DecimalField.operator_eq,
        decimalLess, decimalEqual;
      repeat f_equal; auto with compare_facts.
  - destruct b; try discriminate; simpl; split; try reflexivity.
    + apply (lexicographical_compare2_spec spec_compare (fun x => ordered x = true)).
      * apply ordered_Forall in Ha. rewrite Forall_forall in IH, Ha.
        apply Forall_forall. intros x Hx y Hy. now apply IH; auto.
      * now apply ordered_Forall.
    + apply (vector_eq_spec spec_compare (fun x => ordered x = true)).
      * apply ordered_Forall in Ha. rewrite Forall_forall in IH, Ha.
        apply Forall_forall. intros x Hx y Hy. now apply IH; auto.
      * now apply ordered_Forall.
  - destruct b; try discriminate; simpl; split; try reflexivity.
    + apply (lexicographical_compare2_spec spec_compare (fun x => ordered x = true)).
      * apply ordered_Forall in Ha. rewrite Forall_forall in IH, Ha.
        apply Forall_forall. intros x Hx y Hy. now apply IH; auto.
      * now apply ordered_Forall.
    + apply (vector_eq_spec spec_compare (fun x => ordered x = true)).
      * apply ordered_Forall in Ha. rewrite Forall_forall in IH, Ha.
        apply Forall_forall. intros x Hx y Hy. now apply IH; auto.
      * now apply ordered_Forall.
Qed.

Lemma vector_lt_ordered xs ys :
  forallb ordered xs = true → forallb ordered ys = true →
  vector_lt xs ys = Ok (is_lt (lex_compare spec_compare xs ys)).
Proof.
  intros Hxs%ordered_Forall Hys%ordered_Forall; unfold vector_lt.
  rewrite (lexicographical_compare2_spec spec_compare (fun x => ordered x = true));
    [done| |done].
  rewrite Forall_forall in Hxs. apply Forall_forall.
  intros x Hx y Hy. now apply less2_eq_ordered; auto.
Qed.

Lemma operator_le_ordered a b :
  ordered a = true → ordered b = true →
  operator_le a b = Ok (negb (is_gt (spec_compare a b))).
Proof.
  intros Ha Hb.
  assert (Hvec : ∀ x y, forallb ordered x = true → forallb ordered y = true →
            vector_le x y = Ok (negb (is_gt (lex_compare spec_compare x y)))).
  { intros x y Hx Hy; unfold vector_le.
    rewrite vector_lt_ordered by done; simpl.
    rewrite (lex_compare_antisym spec_compare x), is_lt_CompOpp; [done|].
    apply Forall_forall; intros e _ e'. apply spec_compare_antisym. }
  destruct a, b; try discriminate; unfold operator_le; simpl; try reflexivity;
    unfold DecimalField.operator_le, decimalLessOrEqual;
    first [ apply Hvec; assumption | f_equal; solve [auto with compare_facts] ].
Qed.

Lemma discriminant_first a b :
  Types.to_int (which a) < Types.to_int (which b) →
  spec_compare a b = Lt ∧
  operator_lt a b = Ok true ∧ operator_lt b a = Ok false ∧
  operator_le a b = Ok true ∧ operator_le b a = Ok false ∧
  operator_eq a b = Ok false ∧ operator_eq b a = Ok false.
Proof.
  destruct a, b; simpl; intros H; try lia; done.
Qed.

(** C6, as the code has it.  [operator<] and its kin order Fields by the
    variant discriminant first.  On Fields that hold no Float64 and no
    AggregateFunctionState the five comparisons are those of one total
    order, [spec_compare]: numeric within a numeric variant, lexicographic
    for String, Array and Tuple, rational at the two scales for the
    decimals; [spec_compare] is antisymmetric and transitive, and its [Eq]
    is a congruence.  Two Fields of one variant among UInt64, Int64,
    UInt128 and Int128 are equal exactly when their numeric values are.
    For Float64, [<] and [<=] are the comparisons of doubles, and [==]
    compares the 64 bits that are stored. *)
Theorem C6_field_comparison (a b c : Field) (x y : Z) :
  (Types.to_int (which a) < Types.to_int (which b) →
   spec_compare a b = Lt ∧
   operator_lt a b = Ok true ∧ operator_lt b a = Ok false ∧
   operator_le a b = Ok true ∧ operator_le b a = Ok false ∧
   operator_eq a b = Ok false ∧ operator_eq b a = Ok false) ∧
  (ordered a = true → ordered b = true →
   operator_lt a b = Ok (is_lt (spec_compare a b)) ∧
   operator_gt a b = Ok (is_gt (spec_compare a b)) ∧
   operator_le a b = Ok (negb (is_gt (spec_compare a b))) ∧
   operator_ge a b = Ok (negb (is_lt (spec_compare a b))) ∧
   operator_eq a b = Ok (is_eq (spec_compare a b)) ∧
   operator_ne a b = Ok (negb (is_eq (spec_compare a b)))) ∧
  (spec_compare a a = Eq ∧
   spec_compare b a = CompOpp (spec_compare a b) ∧
   (spec_compare a b = Eq → spec_compare a c = spec_compare b c) ∧
   (spec_compare a b = Lt → spec_compare b c = Lt → spec_compare a c = Lt) ∧
   (spec_compare a b = Lt → spec_compare b c = Eq → spec_compare a c = Lt)) ∧
  (operator_eq (FUInt64 x) (FUInt64 y) = Ok (bool_decide (wrap64 x = wrap64 y)) ∧
   operator_eq (FInt64 x) (FInt64 y) = Ok (bool_decide (signed 64 x = signed 64 y)) ∧
   operator_eq (FUInt128 x) (FUInt128 y) = Ok (bool_decide (wrap128 x = wrap128 y)) ∧
   operator_eq (FInt128 x) (FInt128 y) = Ok (bool_decide (signed 128 x = signed 128 y))) ∧
  (operator_lt (FFloat64 x) (FFloat64 y) = Ok (Float64.lt x y) ∧
   operator_le (FFloat64 x) (FFloat64 y) = Ok (Float64.le x y) ∧
   operator_eq (FFloat64 x) (FFloat64 y) = Ok (bool_decide (wrap64 x = wrap64 y))).
Proof.
  assert (Heqb : ∀ u v, (u =? v) = bool_decide (u = v)).
  { intros u v. destruct (Z.eqb_spec u v) as [->|H].
    - now rewrite bool_decide_eq_true_2.
    - now rewrite bool_decide_eq_false_2. }
  split; [apply discriminant_first|].
  split.
  { intros Ha Hb.
    destruct (less2_eq_ordered a b Ha Hb) as [Hlt Heq].
    destruct (less2_eq_ordered b a Hb Ha) as [Hgt _].
    unfold operator_gt, operator_ge, operator_ne, operator_lt.
    rewrite Hlt, Hgt, Heq, !operator_le_ordered by done; simpl.
    rewrite (spec_compare_antisym a b), is_lt_CompOpp, is_gt_CompOpp.
    done. }
  split.
  { destruct (spec_compare_laws a b c) as (HE & HT & HLE).
    split; [|split; [apply spec_compare_antisym|done]].
    pose proof (spec_compare_antisym a a) as H.
    now destruct (spec_compare a a). }
  split.
  { simpl. rewrite <- !Heqb.
    repeat split; f_equal.
    rewrite wrap64_eqb_signed. symmetry. apply Zeqb_compare. }
  simpl. now rewrite <- Heqb.
Qed.

(** C6 as the spec states it makes the comparison of Fields a total order
    in which the numeric comparison serves Float64 too, and makes two
    Fields of one numeric variant equal exactly when their values are.
    The doubles +0.0 and -0.0 are equal as numbers, and as Fields they are
    neither equal nor one below the other; a NaN is no number equal to
    itself, and as a Field it is equal to itself, and neither below nor
    above 1.0. *)
Lemma C6_float64_fields_are_not_totally_ordered :
  (Float64.eq Float64.pos_zero Float64.neg_zero = true ∧
   operator_eq (FFloat64 Float64.pos_zero) (FFloat64 Float64.neg_zero) = Ok false ∧
   operator_lt (FFloat64 Float64.pos_zero) (FFloat64 Float64.neg_zero) = Ok false ∧
   operator_lt (FFloat64 Float64.neg_zero) (FFloat64 Float64.pos_zero) = Ok false) ∧
  (Float64.eq Float64.quiet_nan Float64.quiet_nan = false ∧
   operator_eq (FFloat64 Float64.quiet_nan) (FFloat64 Float64.quiet_nan) = Ok true ∧
   operator_le (FFloat64 Float64.quiet_nan) (FFloat64 Float64.one) = Ok false ∧
   operator_le (FFloat64 Float64.one) (FFloat64 Float64.quiet_nan) = Ok false).
Proof. vm_compute. repeat split. Qed.

(** ** MysqlResultWriter *)

Lemma put_unbounded enc b :
  SpecRowBuffer.capacity b = None →
  SpecRowBuffer.put enc b
  = (0, SpecRowBuffer.mk (SpecRowBuffer.content b ++ enc) None).
Proof. intros H; unfold SpecRowBuffer.put; now rewrite H. Qed.

(** The choice of the call for a string value, over any row buffer: both
    paths make the same three-way choice. *)
Lemma string_cell_calls {B} `{!MysqlRowBuffer B} `{!Renderers}
    (ptr : char_ptr) (len scale : Z) (b : B) :
  push_item TYPE_VARCHAR scale (ItemStringValue (StringValue.mk ptr len)) b
  = Ok (match ptr with
        | None => if len =? 0 then push_string magic_0x01 len b else push_null b
        | Some mem => push_string (Some mem) len b
        end) ∧
  push_item TYPE_CHAR scale (ItemStringValue (StringValue.mk ptr len)) b
  = push_item TYPE_VARCHAR scale (ItemStringValue (StringValue.mk ptr len)) b.
Proof. split; simpl; destruct ptr; try destruct (len =? 0); reflexivity. Qed.

(** C3.  A string cell whose pointer is null and whose length is zero
    adds an empty payload to its row (the length field 0, and not the null
    marker); one whose pointer is null with another length adds the null
    marker; one with a pointer adds the length field and exactly its
    bytes.  This holds in the row-at-a-time path (VARCHAR and CHAR) and in
    the vectorized path (the VARCHAR instance, which serves CHAR too), for
    row buffers that append as the spec describes. *)
Theorem C3_string_cells
    (cap : option Z) (float_text double_text : Z → list byte) (R : Renderers)
    (ptr : char_ptr) (len scale : Z) (enc : list byte) (b : SpecRowBuffer.t)
    (column : IColumn) (i buf_ret : Z) (bufs : list SpecRowBuffer.t) :
  SpecRowBuffer.capacity b = None →
  string_cell_encoding ptr len = Some enc →
  column_getDataAt column i = Ok (StringRef.mk ptr len) →
  array_at bufs i = Ok b →
  let ops := SpecRowBuffer.ops cap float_text double_text in
  let b' := SpecRowBuffer.mk (SpecRowBuffer.content b ++ enc) None in
  @push_item _ ops R TYPE_VARCHAR scale (ItemStringValue (StringValue.mk ptr len)) b
  = Ok (0, b') ∧
  @push_item _ ops R TYPE_CHAR scale (ItemStringValue (StringValue.mk ptr len)) b
  = Ok (0, b') ∧
  @push_cell _ ops R TYPE_VARCHAR column i buf_ret bufs
  = Ok (0, <[Z.to_nat i := b']> bufs) ∧
  column_type TYPE_CHAR = Some TYPE_VARCHAR ∧
  column_type TYPE_VARCHAR = Some TYPE_VARCHAR ∧
  (ptr = None → len = 0 → enc = [x00]) ∧
  (ptr = None → len ≠ 0 → enc = [SpecRowBuffer.null_marker]) ∧
  (∀ mem, ptr = Some mem →
     enc = SpecRowBuffer.length_field len ++ take (Z.to_nat len) mem ∧
     length (take (Z.to_nat len) mem) = Z.to_nat len).
Proof.
  intros Hcap Henc Hcol Hbuf ops b'.
  assert (Hitem :
    @push_item _ ops R TYPE_VARCHAR scale (ItemStringValue (StringValue.mk ptr len)) b
    = Ok (0, b')).
  { simpl. unfold string_cell_encoding in Henc.
    destruct ptr as [mem|].
    - unfold SpecRowBuffer.put_string.
      destruct ((0 <=? len) && (len <=? pod_size mem)); [|discriminate].
      injection Henc as <-. now rewrite put_unbounded.
    - destruct (len =? 0) eqn:E.
      + apply Z.eqb_eq in E as ->. injection Henc as <-.
        unfold SpecRowBuffer.put_string, magic_0x01; simpl.
        now rewrite put_unbounded.
      + injection Henc as <-. now rewrite put_unbounded. }
  split; [exact Hitem|].
  split; [exact Hitem|].
  split.
  { simpl. rewrite Hcol; simpl.
    unfold at_buffer.
    simpl in Hitem.
    destruct ptr as [mem|]; [|destruct (len =? 0)]; rewrite Hbuf; simpl;
      injection Hitem as Hitem; now rewrite Hitem. }
  split; [reflexivity|]. split; [reflexivity|].
  unfold string_cell_encoding in Henc.
  split; [|split].
  - intros -> ->. simpl in Henc. now injection Henc as <-.
  - intros -> Hne. apply Z.eqb_neq in Hne. rewrite Hne in Henc. now injection Henc as <-.
  - intros mem ->.
    destruct (0 <=? len) eqn:E1; [|discriminate].
    destruct (len <=? pod_size mem) eqn:E2; [|discriminate].
    simpl in Henc. injection Henc as <-.
    split; [reflexivity|].
    rewrite length_take. unfold pod_size in E2. lia.
Qed.

Lemma C3_string_cells_witness :
  let b := SpecRowBuffer.mk [] None in
  let ops := SpecRowBuffer.ops None (fun _ => []) (fun _ => []) in
  let b' := SpecRowBuffer.mk ([] ++ [x00]) None in
  @push_item _ ops run_renderers TYPE_VARCHAR 0
    (ItemStringValue (StringValue.mk None 0)) b = Ok (0, b') ∧
  @push_item _ ops run_renderers TYPE_CHAR 0
    (ItemStringValue (StringValue.mk None 0)) b = Ok (0, b') ∧
  @push_cell _ ops run_renderers TYPE_VARCHAR
    (ColumnGeneric [StringRef.mk None 0]) 0 0 [b]
  = Ok (0, <[Z.to_nat 0 := b']> [b]) ∧
  column_type TYPE_CHAR = Some TYPE_VARCHAR ∧
  column_type TYPE_VARCHAR = Some TYPE_VARCHAR ∧
  (@None (list byte) = None → 0 = 0 → [x00] = [x00]) ∧
  (@None (list byte) = None → 0 ≠ 0 → [x00] = [SpecRowBuffer.null_marker]) ∧
  (∀ mem, None = Some mem →
     [x00] = SpecRowBuffer.length_field 0 ++ take (Z.to_nat 0) mem ∧
     length (take (Z.to_nat 0) mem) = Z.to_nat 0).
Proof.
  apply (C3_string_cells None (fun _ => []) (fun _ => []) run_renderers
           None 0 0 [x00] (SpecRowBuffer.mk [] None)
           (ColumnGeneric [StringRef.mk None 0]) 0 0 [SpecRowBuffer.mk [] None]);
    reflexivity.
Defined.

(** The scenario of the spec: the strings "", "ab", "" of a ColumnString,
    none of them NULL, give an empty payload, the payload "ab" of length
    2, and an empty payload. *)
Example three_strings_none_null :
  (c ← ColumnString.run_calls x00
         [ColumnString.call_insertData []; ColumnString.call_insertData [x61; x62];
          ColumnString.call_insertData []] ColumnString.empty;
   let w := (@init _ unbounded_buffers 3
               (new_writer true [] [mkVExprContext TYPE_VARCHAR] [0])).2 in
   observed (@append_block _ unbounded_buffers run_renderers accepting_sink
               [mkColumnWithTypeAndName (ColumnString_ c) false] w))
  = Ok (OK, [[[x00]; [x02; x61; x62]; [x00]]]).
Proof. vm_compute. reflexivity. Qed.

(** The scenario of the spec: the nullable integers 5, NULL, -3. *)
Example nullable_integers :
  (let w := (@init _ unbounded_buffers 3
               (new_writer true [] [mkVExprContext TYPE_INT] [0])).2 in
   observed (@append_block _ unbounded_buffers run_renderers accepting_sink
               [mkColumnWithTypeAndName
                  (ColumnNullable (ColumnVector_Int32 [5; 0; -3]) [false; true; false])
                  true] w))
  = Ok (OK, [[[x01; x35]; [xfb]; [x02; x2d; x33]]]).
Proof. vm_compute. reflexivity. Qed.

(** C1 at a decimal with an output scale.  The value 1.5 with the output
    scale 2: the row-at-a-time path sends "1.50", the vectorized path
    sends "1.5". *)
Lemma C1_decimal_output_scale_differs :
  decimal_row_run = Ok (OK, [[[x04; x31; x2e; x35; x30]]]) ∧
  decimal_vec_run = Ok (OK, [[[x03; x31; x2e; x35]]]).
Proof. split; vm_compute; reflexivity. Qed.

(** C2 at a NULL cell whose [push_null] fails.  With row buffers that
    report exhaustion, the vectorized path answers OK and hands the sink a
    batch; the row-at-a-time path, on the same data, answers with the error
    and hands the sink nothing. *)
Lemma C2_failed_push_null_reaches_the_sink :
  (@push_null _ exhausted_buffers (@new_buffer _ exhausted_buffers)).1 = -1 ∧
  null_vec_run = Ok (OK, [[[]]]) ∧
  null_row_run = Ok (InternalError "pack mysql buffer failed.", []).
Proof. repeat split. Qed.

(** For one cell that holds the same value in both paths, of a type that
    [append_block] serves and that is no decimal with an output scale
    between 1 and 30, the vectorized path makes the call the
    row-at-a-time path makes, on the buffer of its row. *)
Theorem paths_agree_on_a_cell {B} `{!MysqlRowBuffer B} `{!Renderers}
    (type T : PrimitiveType) (scale : Z) (item : Item)
    (column : IColumn) (i buf_ret : Z) (bufs : list B) (b : B) :
  column_type type = Some T →
  same_cell type column i item →
  array_at bufs i = Ok b →
  scaled_decimal type scale = false →
  push_cell T column i buf_ret bufs
  = (r ← push_item type scale item b; Ok (r.1, <[Z.to_nat i := r.2]> bufs)).
Proof.
  intros HT Hsame Hbuf Hscale.
  destruct type; simpl in HT; try discriminate; injection HT as <-;
    simpl in Hsame, Hscale.
  all: try (simpl; unfold at_buffer; rewrite Hbuf; reflexivity).
  all: try (destruct column; simpl in Hsame; try discriminate;
            destruct (array_at data i) as [v| |] eqn:Hv; simpl in Hsame;
            try discriminate; injection Hsame as <-;
            simpl; rewrite Hv; simpl; unfold at_buffer; rewrite Hbuf;
            rewrite ?Hscale; reflexivity).
  all: destruct (column_getDataAt column i) as [r| |] eqn:Hr;
    [|destruct column; discriminate..].
  all: assert (item = ItemStringValue (StringValue.mk (StringRef.data r) (StringRef.size r)))
         as -> by (destruct column; simpl in Hsame; rewrite ?Hr in Hsame;
                   simpl in Hsame; congruence).
  all: simpl; rewrite Hr; simpl; unfold at_buffer.
  all: destruct (StringRef.data r); [|destruct (StringRef.size r =? 0)];
    rewrite Hbuf; reflexivity.
Qed.

Lemma paths_agree_on_a_cell_witness :
  @push_cell _ unbounded_buffers run_renderers TYPE_INT
    (ColumnVector_Int32 [5; 0; -3]) 2 0
    (replicate 3 (SpecRowBuffer.mk [] None))
  = (r ← @push_item _ unbounded_buffers run_renderers TYPE_INT 0 (ItemInt32 (-3))
           (SpecRowBuffer.mk [] None);
     Ok (r.1, <[Z.to_nat 2 := r.2]> (replicate 3 (SpecRowBuffer.mk [] None)))).
Proof.
  apply (@paths_agree_on_a_cell _ unbounded_buffers run_renderers
           TYPE_INT TYPE_INT 0 (ItemInt32 (-3)) (ColumnVector_Int32 [5; 0; -3]) 2 0
           (replicate 3 (SpecRowBuffer.mk [] None)) (SpecRowBuffer.mk [] None));
    reflexivity.
Defined.

(** *** The row-at-a-time path hands over whole batches only *)

Section row_path_facts.
Context {B : Type} `{!MysqlRowBuffer B} `{!Renderers}.
Variable add_batch_status : BufferControlBlock → TFetchDataResult → Status.
Variable convert_to_vec_block : RowBatch → Block.
Variable execute : VExprContext → Block → Block * Z.

Lemma add_one_row_keeps_the_rest row (w w' : @MysqlResultWriter B) status :
  _add_one_row row w = Ok (status, w') →
  _sinker w' = _sinker w ∧ _output_expr_ctxs w' = _output_expr_ctxs w ∧
  _is_vec w' = _is_vec w ∧ _written_rows w' = _written_rows w.
Proof.
  unfold _add_one_row.
  destruct (_row_buffer w) as [b0|]; [|discriminate].
  destruct (add_one_row_loop _ _ _ _) as [r| |]; simpl; try discriminate.
  destruct (negb (r.1 =? 0)); intros [= <- <-]; done.
Qed.

Lemma append_rows_loop_spec todo : ∀ i (w w1 : @MysqlResultWriter B) acc status result,
  length acc = (i + length todo)%nat →
  append_rows_loop todo i w acc = Ok (status, w1, result) →
  _sinker w1 = _sinker w ∧ _output_expr_ctxs w1 = _output_expr_ctxs w ∧
  _written_rows w1 = _written_rows w ∧
  (status = OK →
   length result = length acc ∧ take i result = take i acc ∧
   Forall2 (row_converted (_output_expr_ctxs w)) todo (drop i result)).
Proof.
  induction todo as [|row rest IH]; intros i w w1 acc status result Hlen Hrun;
    simpl in Hrun.
  - injection Hrun as <- <- <-. split; [done|split; [done|split; [done|]]].
    intros _. simpl in Hlen. rewrite drop_ge by lia.
    split; [done|split; [done|constructor]].
  - destruct (_add_one_row row w) as [[st w2]| |] eqn:Hrow; simpl in Hrun;
      try discriminate.
    destruct (add_one_row_keeps_the_rest _ _ _ _ Hrow) as (Hs & He & _ & Hw).
    destruct (ok st) eqn:Hok.
    + destruct st; [|discriminate].
      destruct (_row_buffer w2) as [b|] eqn:Hb; [|discriminate].
      simpl in Hlen.
      apply IH in Hrun as (Hs' & He' & Hw' & Hres);
        [|rewrite length_insert; lia].
      split; [congruence|split; [congruence|split; [congruence|]]].
      intros Hst. destruct (Hres Hst) as (Hl & Htake & Hall).
      rewrite length_insert in Hl.
      split; [done|].
      assert (Hi : result !! i = Some (buf b)).
      { rewrite <- (lookup_take_lt result (S i) i) by lia.
        rewrite Htake, lookup_take_lt by lia.
        apply list_lookup_insert_eq. lia. }
      split.
      * apply (f_equal (take i)) in Htake. rewrite !take_take in Htake.
        replace (i `min` S i)%nat with i in Htake by lia.
        rewrite Htake. apply take_insert_ge. lia.
      * rewrite (drop_S result (buf b) i Hi).
        constructor; [|now rewrite <- He].
        exists w, w2, b. done.
    + injection Hrun as <- <- <-. split; [done|split; [done|split; [done|]]].
      intros ->. discriminate.
Qed.

(** In the row-at-a-time path an append either hands the sink nothing
    (the batch is absent or empty, or a row failed to convert, and then
    the status is not OK), or hands it one batch that holds, for every row
    and in order, what [_add_one_row] left in the row buffer when it
    answered OK; the status is then the answer of the sink. *)
Theorem row_path_hands_whole_batches
    (batch : option RowBatch) (w w' : @MysqlResultWriter B) (status : Status) :
  _is_vec w = false →
  append_row_batch add_batch_status convert_to_vec_block execute batch w
  = Ok (status, w') →
  (sink_log w' = sink_log w ∧
   (status = OK → batch = None ∨ batch = Some [])) ∨
  (∃ rows result s,
     batch = Some rows ∧ _sinker w = Some s ∧
     sink_log w' = sink_log w ++ [result] ∧
     status = add_batch_status s result ∧
     Forall2 (row_converted (_output_expr_ctxs w)) rows result).
Proof.
  intros Hvec Hrun; unfold append_row_batch in Hrun; rewrite Hvec in Hrun.
  destruct batch as [[|row rows]|].
  - injection Hrun as <- <-. left; split; auto.
  - set (todo := row :: rows) in *.
    destruct (append_rows_loop todo 0 w _) as [[[st w1] result]| |] eqn:Hloop;
      simpl in Hrun; try discriminate.
    apply append_rows_loop_spec in Hloop as (Hs & He & Hw & Hres);
      [|now rewrite length_replicate].
    destruct (ok st) eqn:Hok.
    + destruct st; [|discriminate].
      destruct (Hres eq_refl) as (_ & _ & Hall). rewrite drop_0 in Hall.
      destruct (_sinker w1) as [s|] eqn:Hsink; [|discriminate].
      right. exists todo, result, s.
      assert (Hlog : sink_log w' = sink_log w ++ [result] ∧
                     status = add_batch_status s result).
      { unfold add_batch in Hrun; simpl in Hrun.
        destruct (ok (add_batch_status s result));
          injection Hrun as <- <-; unfold sink_log; simpl;
          rewrite <- Hs; done. }
      destruct Hlog as [Hlog Hst].
      repeat split; try done; congruence.
    + injection Hrun as <- <-. left; split.
      * unfold sink_log. now rewrite Hs.
      * intros ->. discriminate.
  - injection Hrun as <- <-. left; split; auto.
Qed.
End row_path_facts.

Lemma row_path_hands_whole_batches_witness :
  let w := (@init _ exhausted_buffers 1 (new_writer false [tinyint_expr] [] [])).2 in
  let r := (InternalError "pack mysql buffer failed.",
            set_row_buffer (SpecRowBuffer.mk [] (Some 0)) w) in
  (sink_log r.2 = sink_log w ∧
   (r.1 = OK → Some null_rows = None ∨ Some null_rows = Some [])) ∨
  (∃ rows result s,
     Some null_rows = Some rows ∧ _sinker w = Some s ∧
     sink_log r.2 = sink_log w ++ [result] ∧
     r.1 = accepting_sink s result ∧
     Forall2 (@row_converted _ exhausted_buffers run_renderers (_output_expr_ctxs w))
       rows result).
Proof.
  intros w r.
  apply (@row_path_hands_whole_batches _ exhausted_buffers run_renderers
           accepting_sink no_convert no_execute (Some null_rows) w r.2 r.1);
    reflexivity.
Defined.

(** ** ColumnString: the other members *)

Section column_string_more.
Variable uninit : byte.

Import ColumnString.

Lemma run_calls_extends ks : ∀ c,
  chars_size c + footprint ks ≤ PTRDIFF_MAX →
  ∃ os bs, run_calls uninit ks c = Ok (mk (offsets c ++ os) (chars c ++ bs)) ∧
           length os = length ks.
Proof.
  induction ks as [|k ks IH]; intros c Hfit; simpl in *.
  - exists [], []. rewrite !app_nil_r. now destruct c.
  - pose proof (footprint_nonneg ks) as Hks.
    rewrite run_call_appended by lia; simpl.
    destruct (IH (appended (passed k ++ [x00]) c)) as (os & bs & Hrun & Hlen).
    + rewrite chars_size_appended, pod_size_app.
      unfold pod_size at 2; simpl. lia.
    + rewrite Hrun. unfold appended; simpl.
      exists ((chars_size c + pod_size (passed k ++ [x00])) :: os),
             ((passed k ++ [x00]) ++ bs); split.
      * now rewrite <- !app_assoc.
      * simpl; now rewrite Hlen.
Qed.

Lemma element_appended_old s c i :
  invariant c → chars_size c + pod_size s + 1 ≤ PTRDIFF_MAX →
  0 ≤ i → i < size c →
  element i (appended (s ++ [x00]) c) = element i c.
Proof.
  intros Hinv Hfit Hi Hlt.
  pose proof (invariant_appended s c Hinv Hfit) as Hinv'.
  rewrite !element_slice; try done.
  - f_equal.
    assert (Hl : contents (appended (s ++ [x00]) c) !! Z.to_nat i = Some (slice c i)).
    { rewrite contents_appended by done.
      rewrite lookup_app_l by (rewrite length_contents; lia).
      now apply contents_lookup. }
    rewrite contents_lookup in Hl; [now injection Hl|lia|rewrite size_appended; lia].
  - rewrite size_appended; lia.
Qed.

Lemma element_appended_new s c :
  invariant c → chars_size c + pod_size s + 1 ≤ PTRDIFF_MAX →
  element (size c) (appended (s ++ [x00]) c) = Ok s.
Proof.
  intros Hinv Hfit.
  pose proof (pod_size_nonneg (offsets c)) as Hs0; fold (size c) in Hs0.
  rewrite <- (Z2Nat.id (size c)) at 1 by lia.
  apply element_lookup.
  - now apply invariant_appended.
  - rewrite contents_appended by done.
    rewrite <- length_contents, lookup_app_r by lia.
    now rewrite Nat.sub_diag.
Qed.
End column_string_more.

(** insertFrom(src, n) appends a copy of element n of [src]: the column
    keeps its elements, has one more, and the new one reads as element n
    of [src] reads (the empty string through the shortcut of the code). *)
Theorem insertFrom_copies_the_element
    (uninit : byte) (src c : ColumnString.t) (n : Z) :
  ColumnString.invariant src → ColumnString.invariant c →
  0 ≤ n → n < ColumnString.size src →
  ColumnString.chars_size c + pod_size (ColumnString.slice src n) + 1 ≤ PTRDIFF_MAX →
  ∃ c', ColumnString.insertFrom uninit src n c = Ok c' ∧
        ColumnString.invariant c' ∧
        ColumnString.size c' = ColumnString.size c + 1 ∧
        ColumnString.contents c'
        = ColumnString.contents c ++ [ColumnString.slice src n] ∧
        ColumnString.element (ColumnString.size c) c' = ColumnString.element n src ∧
        ∀ i, 0 ≤ i → i < ColumnString.size c →
             ColumnString.element i c' = ColumnString.element i c.
Proof.
  intros Hsrc Hinv Hn Hlt Hfit.
  eexists; split; [now apply insertFrom_appended|].
  split; [now apply invariant_appended|].
  split; [apply size_appended|].
  split; [now apply contents_appended|].
  split.
  - rewrite element_appended_new by done.
    symmetry; now apply element_slice.
  - intros i Hi Hi'. now apply element_appended_old.
Qed.

Lemma insertFrom_copies_the_element_witness :
  let src := ColumnString.appended [x61; x62; x00]
               (ColumnString.appended [x00] ColumnString.empty) in
  ∃ c', ColumnString.insertFrom xff src 1 src = Ok c' ∧
        ColumnString.invariant c' ∧
        ColumnString.size c' = ColumnString.size src + 1 ∧
        ColumnString.contents c'
        = ColumnString.contents src ++ [ColumnString.slice src 1] ∧
        ColumnString.element (ColumnString.size src) c' = ColumnString.element 1 src ∧
        ∀ i, 0 ≤ i → i < ColumnString.size src →
             ColumnString.element i c' = ColumnString.element i src.
Proof.
  intros src.
  assert (Hsrc : ColumnString.invariant src).
  { apply (invariant_appended [x61; x62]); [|vm_compute; discriminate].
    apply (invariant_appended []); [apply invariant_empty|vm_compute; discriminate]. }
  apply (insertFrom_copies_the_element xff src src 1 Hsrc Hsrc).
  - lia.
  - reflexivity.
  - vm_compute; discriminate.
Defined.

(** popBack undoes insertions: after any insert and insertData calls on a
    well-formed column, popBack of their number gives back the column as
    it was, both arrays included. *)
Theorem popBack_undoes_insertions
    (uninit : byte) (ks : list ColumnString.call) (c : ColumnString.t) :
  ColumnString.invariant c →
  ColumnString.chars_size c + ColumnString.footprint ks ≤ PTRDIFF_MAX →
  (c' ← ColumnString.run_calls uninit ks c;
   ColumnString.popBack uninit (Z.of_nat (length ks)) c') = Ok c.
Proof.
  intros Hinv Hfit.
  destruct (run_calls_contents uninit ks c Hinv Hfit) as (c' & Hrun & Hinv' & Hc').
  destruct (run_calls_extends uninit ks c Hfit) as (os & bs & Hrun' & Hlen).
  rewrite Hrun in Hrun'. injection Hrun' as ->.
  rewrite Hrun; simpl.
  pose proof (pod_size_nonneg (ColumnString.offsets c)) as Hs0.
  fold (ColumnString.size c) in Hs0.
  set (c' := ColumnString.mk _ _) in *.
  assert (Hsize : ColumnString.size c' = ColumnString.size c + Z.of_nat (length ks)).
  { unfold ColumnString.size, c'; simpl. rewrite pod_size_app.
    unfold pod_size at 2. now rewrite Hlen. }
  rewrite popBack_invariant by (try done; lia).
  rewrite Hsize.
  replace (ColumnString.size c + Z.of_nat (length ks) - Z.of_nat (length ks))
    with (ColumnString.size c) by lia.
  assert (Hoff : ColumnString.offset c' (ColumnString.size c - 1)
                 = ColumnString.chars_size c).
  { destruct Hinv as (_ & _ & Hlast & _). rewrite <- Hlast.
    unfold ColumnString.offset, c'; simpl.
    rewrite padded_at_app_l; [done|lia|]. fold (ColumnString.size c). lia. }
  rewrite Hoff. unfold c'; simpl.
  unfold ColumnString.size, ColumnString.chars_size, pod_size.
  rewrite !Nat2Z.id, !take_app_length.
  now destruct c.
Qed.

Lemma popBack_undoes_insertions_witness :
  (c' ← ColumnString.run_calls xff
          [ColumnString.call_insertData [x61]; ColumnString.call_insert []]
          (ColumnString.appended [x68; x69; x00] ColumnString.empty);
   ColumnString.popBack xff (Z.of_nat (length
     [ColumnString.call_insertData [x61]; ColumnString.call_insert []])) c')
  = Ok (ColumnString.appended [x68; x69; x00] ColumnString.empty).
Proof.
  apply (popBack_undoes_insertions xff
           [ColumnString.call_insertData [x61]; ColumnString.call_insert []]
           (ColumnString.appended [x68; x69; x00] ColumnString.empty)).
  - apply (invariant_appended [x68; x69]); [apply invariant_empty|].
    vm_compute; discriminate.
  - vm_compute; discriminate.
Defined.

Section column_string_zero.
Variable uninit : byte.

Import ColumnString.

Lemma insertDataWithTerminatingZero_appended data c :
  chars_size c + pod_size data ≤ PTRDIFF_MAX →
  insertDataWithTerminatingZero uninit data c = Ok (appended data c).
Proof.
  intros Hfit; rewrite PTRDIFF_MAX_eq in Hfit.
  pose proof (pod_size_nonneg data) as Hd.
  pose proof (pod_size_nonneg (chars c)) as Hc.
  unfold insertDataWithTerminatingZero, chars_size in *.
  rewrite wrap64_small by lia.
  rewrite pod_resize_grow by lia.
  rewrite pod_memcpy_tail by lia; simpl.
  unfold pod_size at 2 3. rewrite Nat2Z.id, firstn_all, Nat.sub_diag; simpl.
  rewrite app_nil_r.
  reflexivity.
Qed.

Lemma slice_size c i :
  invariant c → 0 ≤ i → i < size c →
  pod_size (slice c i) = offset c i - offset c (i - 1) - 1.
Proof.
  intros (_ & Ht & _) Hi Hlt.
  destruct (Ht i Hi Hlt) as (H1 & H2 & _).
  pose proof (terminated_offset_lower c (i - 1) Ht ltac:(lia) ltac:(lia)) as Hlo.
  unfold slice, pod_size. rewrite length_take, length_drop.
  unfold chars_size, pod_size in H2. lia.
Qed.

Lemma stored_bytes_app l l' :
  stored_bytes (l ++ l') = stored_bytes l + stored_bytes l'.
Proof. induction l as [|s l IH]; simpl; [done|]. fold (stored_bytes (l ++ l')). fold (stored_bytes l). lia. Qed.

Lemma stored_bytes_prefix c (k : nat) :
  invariant c → Z.of_nat k ≤ size c →
  stored_bytes (slice c <$> seqZ 0 (Z.of_nat k))
  = offset c (Z.of_nat k - 1) + 8 * Z.of_nat k.
Proof.
  intros Hinv; induction k as [|k IH]; intros Hk.
  - reflexivity.
  - rewrite seqZ_S, fmap_app, stored_bytes_app, IH by lia.
    simpl. rewrite Z.add_0_l, slice_size by (try done; lia).
    replace (Z.of_nat (S k) - 1) with (Z.of_nat k) by lia.
    lia.
Qed.
End column_string_zero.

(** getDataAtWithTerminatingZero(n) is the view of getDataAt(n) made one
    byte longer: it starts at the same place, and its bytes are the element
    followed by the zero terminator. *)
Theorem getDataAtWithTerminatingZero_shows_the_terminator
    (c : ColumnString.t) (n : Z) :
  ColumnString.invariant c → 0 ≤ n → n < ColumnString.size c →
  ∃ r r0, ColumnString.getDataAt n c = Ok r ∧
          ColumnString.getDataAtWithTerminatingZero n c = Ok r0 ∧
          StringRef.data r0 = StringRef.data r ∧
          StringRef.size r0 = StringRef.size r + 1 ∧
          StringRef.bytes r = Ok (ColumnString.slice c n) ∧
          StringRef.bytes r0 = Ok (ColumnString.slice c n ++ [x00]).
Proof.
  intros Hinv Hn Hlt.
  pose proof (element_slice c n Hinv Hn Hlt) as Helem.
  pose proof (stored_slice c n Hinv Hn Hlt) as Hstored.
  pose proof (getDataAt_invariant c n Hinv Hn Hlt) as Hget.
  pose proof (invariant_size_bound c Hinv) as Hsz.
  destruct Hinv as (_ & Ht & _ & Hb); rewrite PTRDIFF_MAX_eq in Hb.
  destruct (Ht n Hn Hlt) as (H1 & H2 & _).
  pose proof (terminated_offset_lower c (n - 1) Ht ltac:(lia) ltac:(lia)) as Hlo.
  unfold ColumnString.element in Helem. rewrite Hget in Helem; simpl in Helem.
  eexists _, _; split; [exact Hget|].
  split.
  { unfold ColumnString.getDataAtWithTerminatingZero,
      ColumnString.offsetAt, ColumnString.sizeAt.
    destruct (0 <=? n) eqn:E1; [|lia].
    destruct (n <? ColumnString.size c) eqn:E2; [|lia].
    simpl.
    rewrite to_ssize_small by lia.
    rewrite !offset_padded by lia; simpl.
    rewrite wrap64_small by lia.
    reflexivity. }
  simpl. split; [done|]. split; [lia|]. split; [exact Helem|].
  unfold StringRef.bytes; simpl.
  rewrite length_drop.
  unfold ColumnString.chars_size, pod_size in H2.
  destruct (0 <=? _) eqn:E1; [|lia].
  destruct (_ <=? Z.of_nat _) eqn:E2; [|apply Z.leb_gt in E2; lia].
  simpl. now rewrite Hstored.
Qed.

Lemma getDataAtWithTerminatingZero_shows_the_terminator_witness :
  let c := ColumnString.appended [x68; x69; x00] ColumnString.empty in
  ∃ r r0, ColumnString.getDataAt 0 c = Ok r ∧
          ColumnString.getDataAtWithTerminatingZero 0 c = Ok r0 ∧
          StringRef.data r0 = StringRef.data r ∧
          StringRef.size r0 = StringRef.size r + 1 ∧
          StringRef.bytes r = Ok (ColumnString.slice c 0) ∧
          StringRef.bytes r0 = Ok (ColumnString.slice c 0 ++ [x00]).
Proof.
  intros c.
  apply (getDataAtWithTerminatingZero_shows_the_terminator c 0).
  - apply (invariant_appended [x68; x69]); [apply invariant_empty|].
    vm_compute; discriminate.
  - lia.
  - reflexivity.
Defined.

(** insertDataWithTerminatingZero, given bytes that end with the zero
    byte, does what insertData does given the bytes before it: both append
    the same stored element. *)
Theorem insertDataWithTerminatingZero_is_insertData
    (uninit : byte) (c : ColumnString.t) (s : list byte) :
  ColumnString.chars_size c + pod_size s + 1 ≤ PTRDIFF_MAX →
  ColumnString.insertDataWithTerminatingZero uninit (s ++ [x00]) c
  = ColumnString.insertData uninit s c ∧
  ColumnString.insertData uninit s c = Ok (ColumnString.appended (s ++ [x00]) c).
Proof.
  intros Hfit.
  rewrite insertData_appended by done.
  rewrite insertDataWithTerminatingZero_appended; [done|].
  rewrite pod_size_app. unfold pod_size at 2; simpl. lia.
Qed.

Lemma insertDataWithTerminatingZero_is_insertData_witness :
  ColumnString.insertDataWithTerminatingZero xff ([x61; x62] ++ [x00]) ColumnString.empty
  = ColumnString.insertData xff [x61; x62] ColumnString.empty ∧
  ColumnString.insertData xff [x61; x62] ColumnString.empty
  = Ok (ColumnString.appended ([x61; x62] ++ [x00]) ColumnString.empty).
Proof.
  apply (insertDataWithTerminatingZero_is_insertData xff ColumnString.empty [x61; x62]).
  vm_compute; discriminate.
Defined.

(** insertDataWithTerminatingZero takes the terminator on trust.  Given
    bytes that do not end with the zero byte it still adds an element, and
    the column it leaves is not well-formed; given no bytes at all, the
    element it adds has a view of 2^64 - 1 bytes. *)
Theorem insertDataWithTerminatingZero_trusts_the_caller
    (uninit : byte) (c : ColumnString.t) (data : list byte) :
  ColumnString.invariant c →
  ColumnString.chars_size c + pod_size data ≤ PTRDIFF_MAX →
  last data ≠ Some x00 →
  ∃ c', ColumnString.insertDataWithTerminatingZero uninit data c = Ok c' ∧
        ColumnString.size c' = ColumnString.size c + 1 ∧
        ¬ ColumnString.invariant c' ∧
        (data = [] →
         ∃ r, ColumnString.getDataAt (ColumnString.size c) c' = Ok r ∧
              StringRef.size r = 2 ^ 64 - 1).
Proof.
  intros Hinv Hfit Hlast.
  pose proof (invariant_size_bound c Hinv) as Hsz.
  pose proof (pod_size_nonneg (ColumnString.offsets c)) as Hs0.
  fold (ColumnString.size c) in Hs0.
  destruct Hinv as (_ & Ht & Hend & Hb).
  rewrite insertDataWithTerminatingZero_appended by done.
  assert (Hnew : ColumnString.offset (ColumnString.appended data c) (ColumnString.size c)
                 = ColumnString.chars_size c + pod_size data)
    by apply offset_appended_new.
  assert (Hold : ColumnString.offset (ColumnString.appended data c) (ColumnString.size c - 1)
                 = ColumnString.chars_size c)
    by (rewrite offset_appended_old by lia; exact Hend).
  pose proof (size_appended data c) as Hsize.
  assert (Hchars : ColumnString.chars (ColumnString.appended data c)
                   = ColumnString.chars c ++ data) by reflexivity.
  set (c' := ColumnString.appended data c) in *.
  exists c'; split; [reflexivity|].
  split; [exact Hsize|].
  split.
  - intros (_ & Ht' & _).
    destruct (Ht' (ColumnString.size c)) as (H1 & _ & H3); [lia..|].
    rewrite Hnew, Hold in H1. rewrite Hnew, Hchars in H3.
    apply Hlast. rewrite last_lookup, <- H3.
    unfold ColumnString.chars_size, pod_size in *.
    rewrite lookup_app_r by lia.
    f_equal. lia.
  - intros ->. rewrite PTRDIFF_MAX_eq in Hb.
    unfold pod_size in Hnew at 1; simpl in Hnew. rewrite Z.add_0_r in Hnew.
    eexists; split.
    + unfold ColumnString.getDataAt, ColumnString.offsetAt, ColumnString.sizeAt.
      rewrite Hsize.
      destruct (0 <=? ColumnString.size c) eqn:E1; [|lia].
      destruct (ColumnString.size c <? ColumnString.size c + 1) eqn:E2; [|lia].
      cbn [andb].
      rewrite to_ssize_small by lia.
      rewrite !offset_padded by lia.
      rewrite Hnew, Hold. reflexivity.
    + cbn [StringRef.size]. rewrite Z.sub_diag. reflexivity.
Qed.

Lemma insertDataWithTerminatingZero_trusts_the_caller_witness :
  ∃ c', ColumnString.insertDataWithTerminatingZero xff [] ColumnString.empty = Ok c' ∧
        ColumnString.size c' = ColumnString.size ColumnString.empty + 1 ∧
        ¬ ColumnString.invariant c' ∧
        (@nil byte = [] →
         ∃ r, ColumnString.getDataAt (ColumnString.size ColumnString.empty) c' = Ok r ∧
              StringRef.size r = 2 ^ 64 - 1).
Proof.
  apply (insertDataWithTerminatingZero_trusts_the_caller xff ColumnString.empty []).
  - apply invariant_empty.
  - vm_compute; discriminate.
  - discriminate.
Defined.

(** operator[] gives element n as a String Field, and inserting that
    Field is what insertFrom does with the element itself. *)
Theorem insert_of_index_is_insertFrom
    (uninit : byte) (src c : ColumnString.t) (n : Z) :
  ColumnString.invariant src → 0 ≤ n → n < ColumnString.size src →
  ColumnString.chars_size c + pod_size (ColumnString.slice src n) + 1 ≤ PTRDIFF_MAX →
  ColumnString.operator_index n src = Ok (FString (ColumnString.slice src n)) ∧
  (x ← ColumnString.operator_index n src; ColumnString.insert uninit x c)
  = ColumnString.insertFrom uninit src n c.
Proof.
  intros Hsrc Hn Hlt Hfit.
  assert (Hidx : ColumnString.operator_index n src
                 = Ok (FString (ColumnString.slice src n))).
  { pose proof (element_slice src n Hsrc Hn Hlt) as He.
    unfold ColumnString.element in He. unfold ColumnString.operator_index.
    destruct (ColumnString.getDataAt n src) as [r| |]; simpl in *; try discriminate.
    now rewrite He. }
  split; [exact Hidx|].
  rewrite Hidx; simpl.
  rewrite insertFrom_appended by done.
  now apply insert_appended.
Qed.

Lemma insert_of_index_is_insertFrom_witness :
  let src := ColumnString.appended [x61; x62; x00] ColumnString.empty in
  ColumnString.operator_index 0 src = Ok (FString (ColumnString.slice src 0)) ∧
  (x ← ColumnString.operator_index 0 src; ColumnString.insert xff x ColumnString.empty)
  = ColumnString.insertFrom xff src 0 ColumnString.empty.
Proof.
  intros src.
  apply (insert_of_index_is_insertFrom xff src ColumnString.empty 0).
  - apply (invariant_appended [x61; x62]); [apply invariant_empty|].
    vm_compute; discriminate.
  - lia.
  - reflexivity.
  - vm_compute; discriminate.
Defined.

(** byteSize() of a well-formed column is what its elements need: for
    each element its bytes, one terminator and one offset of 8 bytes. *)
Theorem byteSize_is_the_sum_over_the_elements (c : ColumnString.t) :
  ColumnString.invariant c →
  ColumnString.chars_size c + 8 * ColumnString.size c < 2 ^ 64 →
  ColumnString.byteSize c = ColumnString.stored_bytes (ColumnString.contents c).
Proof.
  intros Hinv Hfit.
  pose proof (pod_size_nonneg (ColumnString.offsets c)) as Hs0.
  fold (ColumnString.size c) in Hs0.
  pose proof (pod_size_nonneg (ColumnString.chars c)) as Hc0.
  fold (ColumnString.chars_size c) in Hc0.
  unfold ColumnString.byteSize, ColumnString.contents.
  rewrite <- (Z2Nat.id (ColumnString.size c)) at 2 by lia.
  rewrite stored_bytes_prefix by (try done; lia).
  rewrite Z2Nat.id by lia.
  destruct Hinv as (_ & _ & Hend & _). rewrite Hend.
  rewrite (wrap64_small (ColumnString.size c * 8)) by lia.
  rewrite wrap64_small by lia.
  lia.
Qed.

Lemma byteSize_is_the_sum_over_the_elements_witness :
  ColumnString.byteSize
    (ColumnString.appended [x00] (ColumnString.appended [x68; x69; x00] ColumnString.empty))
  = ColumnString.stored_bytes
      (ColumnString.contents
         (ColumnString.appended [x00]
            (ColumnString.appended [x68; x69; x00] ColumnString.empty))).
Proof.
  apply (byteSize_is_the_sum_over_the_elements
           (ColumnString.appended [x00]
              (ColumnString.appended [x68; x69; x00] ColumnString.empty))).
  - apply (invariant_appended []); [|vm_compute; discriminate].
    apply (invariant_appended [x68; x69]); [apply invariant_empty|].
    vm_compute; discriminate.
  - reflexivity.
Defined.

(** ** Field: equality and order on every Field *)

Section std_equal_facts.
Context {A : Type} (equal1 : A → A → outcome bool).

Lemma std_equal_refl xs :
  Forall (fun x => equal1 x x = Ok true) xs → std_equal equal1 xs xs = Ok true.
Proof. induction 1 as [|x xs Hx _ IH]; simpl; [done|]. now rewrite Hx. Qed.

Lemma std_equal_sym xs :
  Forall (fun x => ∀ y r, equal1 x y = Ok r → equal1 y x = Ok r) xs →
  ∀ ys r, length xs = length ys →
  std_equal equal1 xs ys = Ok r → std_equal equal1 ys xs = Ok r.
Proof.
  induction 1 as [|x xs Hx _ IH]; intros [|y ys] r Hlen; simpl; try done.
  destruct (equal1 x y) as [c| |] eqn:E; simpl; try discriminate.
  rewrite (Hx y c E); simpl.
  destruct c; [|done].
  apply IH. simpl in Hlen; lia.
Qed.

Lemma std_equal_trans xs :
  Forall (fun x => ∀ y z, equal1 x y = Ok true → equal1 y z = Ok true →
                          equal1 x z = Ok true) xs →
  ∀ ys zs, length xs = length ys → length ys = length zs →
  std_equal equal1 xs ys = Ok true → std_equal equal1 ys zs = Ok true →
  std_equal equal1 xs zs = Ok true.
Proof.
  induction 1 as [|x xs Hx _ IH]; intros [|y ys] [|z zs] Hxy Hyz; simpl; try done.
  destruct (equal1 x y) as [[]| |] eqn:E1; simpl; try discriminate.
  destruct (equal1 y z) as [[]| |] eqn:E2; simpl; try discriminate.
  rewrite (Hx y z E1 E2); simpl.
  apply IH; simpl in *; lia.
Qed.

Lemma vector_eq_true xs ys :
  vector_eq equal1 xs ys = Ok true →
  length xs = length ys ∧ std_equal equal1 xs ys = Ok true.
Proof.
  unfold vector_eq.
  destruct (Nat.eqb_spec (length xs) (length ys)); [done|discriminate].
Qed.
End std_equal_facts.

Lemma Zeqb_trans_scaled (w : Z) (a b c : DecimalField.t) :
  DecimalField.operator_eq w a b = true →
  DecimalField.operator_eq w b c = true →
  DecimalField.operator_eq w a c = true.
Proof.
  unfold DecimalField.operator_eq, decimalEqual.
  rewrite !Zeqb_compare.
  destruct (decimal_compare_laws w a b c) as (HE & _).
  cbv beta in HE.
  destruct (_ ?= _) eqn:E1; try discriminate. intros _.
  now rewrite (HE eq_refl).
Qed.

Lemma operator_eq_refl a : operator_eq a a = Ok true.
Proof.
  induction a as [a Hna Hnt|l IH|l IH] using Field_nested_ind.
  - destruct a; try (now destruct (Hna a)); try (now destruct (Hnt a)); simpl;
      unfold DecimalField.operator_eq, decimalEqual,
        AggregateFunctionStateData.operator_eq;
      rewrite ?String_eq_spec, ?bool_decide_eq_true_2, ?Z.eqb_refl by done;
      reflexivity.
  - simpl. unfold vector_eq. rewrite Nat.eqb_refl. now apply std_equal_refl.
  - simpl. unfold vector_eq. rewrite Nat.eqb_refl. now apply std_equal_refl.
Qed.

Lemma operator_eq_sym a : ∀ b r, operator_eq a b = Ok r → operator_eq b a = Ok r.
Proof.
  assert (Hvec : ∀ l, Forall (fun x => ∀ y r, operator_eq x y = Ok r →
                                         operator_eq y x = Ok r) l →
            ∀ l' r, vector_eq operator_eq l l' = Ok r →
                    vector_eq operator_eq l' l = Ok r).
  { intros l IH l' r. unfold vector_eq.
    destruct (Nat.eqb_spec (length l) (length l')) as [Hlen|Hlen].
    - rewrite <- Hlen, Nat.eqb_refl. now apply std_equal_sym.
    - destruct (Nat.eqb_spec (length l') (length l)); [lia|done]. }
  induction a as [a Hna Hnt|l IH|l IH] using Field_nested_ind; intros b r.
  - destruct a; try (now destruct (Hna a)); try (now destruct (Hnt a));
      destruct b; simpl; try done;
      unfold DecimalField.operator_eq, decimalEqual,
        AggregateFunctionStateData.operator_eq;
      rewrite ?String_eq_spec;
      try (now rewrite (Z.eqb_sym (wrap64 _)));
      try (now rewrite (Z.eqb_sym (wrap128 _)));
      try (now rewrite (Z.eqb_sym (signed 128 _)));
      try (now rewrite (Z.eqb_sym (_ * _))).
    + intros [= <-]. f_equal. apply bool_decide_ext. split; congruence.
    + destruct (decide (AggregateFunctionStateData.name s
                        = AggregateFunctionStateData.name s0)) as [E|E].
      * rewrite (bool_decide_eq_true_2 _ E),
          (bool_decide_eq_true_2 _ (eq_sym E)); simpl.
        intros [= <-]. f_equal. apply bool_decide_ext. split; congruence.
      * rewrite bool_decide_eq_false_2 by done. discriminate.
  - destruct b; simpl; try done. now apply Hvec.
  - destruct b; simpl; try done. now apply Hvec.
Qed.

Lemma operator_eq_trans a : ∀ b c,
  operator_eq a b = Ok true → operator_eq b c = Ok true → operator_eq a c = Ok true.
Proof.
  assert (Hvec : ∀ l, Forall (fun x => ∀ y z, operator_eq x y = Ok true →
                                operator_eq y z = Ok true →
                                operator_eq x z = Ok true) l →
            ∀ l' l'', vector_eq operator_eq l l' = Ok true →
                      vector_eq operator_eq l' l'' = Ok true →
                      vector_eq operator_eq l l'' = Ok true).
  { intros l IH l' l'' [H1 H1']%vector_eq_true [H2 H2']%vector_eq_true.
    unfold vector_eq. rewrite H1, H2, Nat.eqb_refl.
    now apply (std_equal_trans operator_eq l IH l' l''). }
  assert (Hz : ∀ x y z, (x =? y) = true → (y =? z) = true → (x =? z) = true) by lia.
  induction a as [a Hna Hnt|l IH|l IH] using Field_nested_ind; intros b c.
  - destruct a; try (now destruct (Hna a)); try (now destruct (Hnt a));
      destruct b; simpl; try discriminate;
      destruct c; simpl; try discriminate;
      unfold AggregateFunctionStateData.operator_eq;
      rewrite ?String_eq_spec;
      intros H1 H2; try reflexivity;
      try (injection H1 as H1; injection H2 as H2; f_equal;
           solve [eauto using Zeqb_trans_scaled]).
    + injection H1 as H1; injection H2 as H2; f_equal.
      apply bool_decide_eq_true in H1, H2. apply bool_decide_eq_true. congruence.
    + revert H1 H2.
      destruct (decide (AggregateFunctionStateData.name s
                        = AggregateFunctionStateData.name s0)) as [E|E];
        [|rewrite bool_decide_eq_false_2 by done; discriminate].
      destruct (decide (AggregateFunctionStateData.name s0
                        = AggregateFunctionStateData.name s1)) as [E'|E'];
        [|rewrite (bool_decide_eq_false_2 (_ = AggregateFunctionStateData.name s1))
            by done; discriminate].
      rewrite (bool_decide_eq_true_2 _ E), (bool_decide_eq_true_2 _ E'),
        (bool_decide_eq_true_2 _ (eq_trans E E')). simpl.
      intros [= H1] [= H2]. f_equal.
      apply bool_decide_eq_true in H1, H2. apply bool_decide_eq_true. congruence.
  - destruct b; simpl; try discriminate; destruct c; simpl; try discriminate.
    now apply Hvec.
  - destruct b; simpl; try discriminate; destruct c; simpl; try discriminate.
    now apply Hvec.
Qed.

(** Field::operator== is an equivalence on all Fields: every Field is
    equal to itself (a Float64 that holds a NaN too, and an
    AggregateFunctionState); when a == b gives a boolean, b == a gives the
    same; and a == b with b == c gives a == c. *)
Theorem operator_eq_is_an_equivalence (a b c : Field) (r : bool) :
  operator_eq a a = Ok true ∧
  operator_ne a a = Ok false ∧
  (operator_eq a b = Ok r → operator_eq b a = Ok r) ∧
  (operator_eq a b = Ok true → operator_eq b c = Ok true →
   operator_eq a c = Ok true).
Proof.
  split; [apply operator_eq_refl|].
  split; [unfold operator_ne; now rewrite operator_eq_refl|].
  split; [apply operator_eq_sym|apply operator_eq_trans].
Qed.

Section lexicographical_facts.
Context {A : Type}.
Variable less2 : A → A → outcome bool * outcome bool.
Variable equal1 : A → A → outcome bool.

Lemma lexicographical_compare2_std_equal xs :
  Forall (fun x => ∀ y, comparisons_agree (less2 x y).1 (less2 x y).2 (equal1 x y)) xs →
  ∀ ys,
    ((lexicographical_compare2 less2 xs ys).1 = Ok true →
     (lexicographical_compare2 less2 xs ys).2 = Ok false ∧
     (length xs = length ys → std_equal equal1 xs ys = Ok false)) ∧
    ((lexicographical_compare2 less2 xs ys).2 = Ok true →
     (lexicographical_compare2 less2 xs ys).1 = Ok false ∧
     (length xs = length ys → std_equal equal1 xs ys = Ok false)) ∧
    ((lexicographical_compare2 less2 xs ys).1 = Ok false →
     (lexicographical_compare2 less2 xs ys).2 = Ok false →
     length xs = length ys ∧ ∃ r, std_equal equal1 xs ys = Ok r).
Proof.
  induction 1 as [|x xs Hx _ IH]; intros [|y ys]; simpl;
    try (repeat split; intros; first [discriminate | lia | eauto]; fail).
  destruct (Hx y) as (HA & HB & HC).
  destruct (IH ys) as (IA & IB & IC).
  destruct (less2 x y) as [[[|]| |] [[|]| |]]; simpl in *;
    try (destruct (HA eq_refl) as [? ?]); try (destruct (HB eq_refl) as [? ?]);
    try discriminate;
    try (repeat split; intros; first [discriminate | done]; fail).
  - rewrite H0; simpl. repeat split; intros; first [discriminate | done].
  - rewrite H0; simpl. repeat split; intros; first [discriminate | done].
  - destruct (HC eq_refl eq_refl) as [r Hr]. rewrite Hr; simpl.
    split; [|split].
    + intros H1. destruct (IA H1) as [H2 H3]. split; [done|].
      intros Hlen. destruct r; [apply H3; lia|done].
    + intros H1. destruct (IB H1) as [H2 H3]. split; [done|].
      intros Hlen. destruct r; [apply H3; lia|done].
    + intros H1 H2. destruct (IC H1 H2) as [Hlen [r' Hr']].
      split; [lia|]. destruct r; eauto.
Qed.

Lemma lexicographical_compare2_vector_eq xs ys :
  Forall (fun x => ∀ y, comparisons_agree (less2 x y).1 (less2 x y).2 (equal1 x y)) xs →
  comparisons_agree (lexicographical_compare2 less2 xs ys).1
        (lexicographical_compare2 less2 xs ys).2
        (vector_eq equal1 xs ys).
Proof.
  intros Hxs.
  destruct (lexicographical_compare2_std_equal xs Hxs ys) as (HA & HB & HC).
  unfold vector_eq.
  split; [|split].
  - intros H. destruct (HA H) as [H1 H2]. split; [done|].
    destruct (Nat.eqb_spec (length xs) (length ys)); auto.
  - intros H. destruct (HB H) as [H1 H2]. split; [done|].
    destruct (Nat.eqb_spec (length xs) (length ys)); auto.
  - intros H1 H2. destruct (HC H1 H2) as [Hlen Hr].
    now rewrite Hlen, Nat.eqb_refl.
Qed.

Lemma lexicographical_compare2_irreflexive xs :
  Forall (fun x => less2 x x = (Ok false, Ok false)) xs →
  lexicographical_compare2 less2 xs xs = (Ok false, Ok false).
Proof.
  induction 1 as [|x xs Hx _ IH]; simpl; [done|].
  rewrite Hx, IH. reflexivity.
Qed.
End lexicographical_facts.

Lemma Float64_key_wrap x y : wrap64 x = wrap64 y → Float64.key x = Float64.key y.
Proof. unfold Float64.key, Float64.sign. now intros ->. Qed.

Lemma vector_lt_swap l l' :
  vector_lt l' l = (lexicographical_compare2 less2 l l').2.
Proof.
  unfold vector_lt.
  rewrite (lexicographical_compare2_swap less2 l); [done|].
  apply Forall_forall. intros x _ y. apply less2_swap.
Qed.

Lemma leaf_agree (L G E : bool) :
  (L = true → G = false ∧ E = false) →
  (G = true → L = false ∧ E = false) →
  (Ok L = Ok true → Ok G = Ok false ∧ Ok E = Ok false) ∧
  (Ok G = Ok true → Ok L = Ok false ∧ Ok E = Ok false) ∧
  (Ok L = Ok false → Ok G = Ok false → ∃ r, Ok E = Ok r).
Proof.
  intros H1 H2. split; [|split].
  - intros [= H]. destruct (H1 H) as [-> ->]. done.
  - intros [= H]. destruct (H2 H) as [-> ->]. done.
  - eauto.
Qed.

(** [<] in its two directions and [==], at one pair of Fields. *)
Lemma less2_consistent a : ∀ b,
  ((less2 a b).1 = Ok true →
   (less2 a b).2 = Ok false ∧ operator_eq a b = Ok false) ∧
  ((less2 a b).2 = Ok true →
   (less2 a b).1 = Ok false ∧ operator_eq a b = Ok false) ∧
  ((less2 a b).1 = Ok false → (less2 a b).2 = Ok false →
   ∃ r, operator_eq a b = Ok r).
Proof.
  induction a as [a Hna Hnt|l IH|l IH] using Field_nested_ind; intros b.
  - destruct a; try (now destruct (Hna a)); try (now destruct (Hnt a));
      destruct b; simpl;
      try (repeat split; intros; first [discriminate | reflexivity | eauto]; fail);
      apply leaf_agree;
      unfold DecimalField.operator_lt, DecimalField.operator_eq,
        decimalLess, decimalEqual;
      try lia.
    + rewrite wrap64_eqb_signed, <- Zeqb_compare. lia.
    + rewrite wrap64_eqb_signed, <- Zeqb_compare. lia.
    + unfold Float64.lt.
      destruct (Float64.is_nan bits), (Float64.is_nan bits0); simpl; try done.
      intros H; split; [lia|].
      apply Z.eqb_neq; intros Hw%Float64_key_wrap; lia.
    + unfold Float64.lt.
      destruct (Float64.is_nan bits), (Float64.is_nan bits0); simpl; try done.
      intros H; split; [lia|].
      apply Z.eqb_neq; intros Hw%Float64_key_wrap; lia.
    + rewrite (String_lt_compare s s0), (String_lt_swap_compare s s0),
        String_eq_compare.
      destruct (lex_compare byte_compare s s0); simpl; try discriminate; auto.
    + rewrite (String_lt_compare s s0), (String_lt_swap_compare s s0),
        String_eq_compare.
      destruct (lex_compare byte_compare s s0); simpl; try discriminate; auto.
  - destruct b; simpl;
      try (repeat split; intros; first [discriminate | reflexivity | eauto]; fail).
    now apply (lexicographical_compare2_vector_eq less2 operator_eq).
  - destruct b; simpl;
      try (repeat split; intros; first [discriminate | reflexivity | eauto]; fail).
    now apply (lexicographical_compare2_vector_eq less2 operator_eq).
Qed.

Lemma String_lt_irrefl s : String_lt s s = false.
Proof.
  induction s as [|a s IH]; simpl; [done|].
  now rewrite N.ltb_irrefl.
Qed.

Lemma less2_irreflexive a : stateless a = true → less2 a a = (Ok false, Ok false).
Proof.
  assert (Hvec : ∀ l,
            Forall (fun x => stateless x = true → less2 x x = (Ok false, Ok false)) l →
            forallb stateless l = true →
            lexicographical_compare2 less2 l l = (Ok false, Ok false)).
  { intros l IH Hl. apply lexicographical_compare2_irreflexive.
    rewrite Forall_forall in IH. apply Forall_forall. intros x Hx.
    apply IH; [done|].
    rewrite forallb_forall in Hl. apply Hl. now apply list_elem_of_In. }
  induction a as [a Hna Hnt|l IH|l IH] using Field_nested_ind; intros Ha.
  - destruct a; try (now destruct (Hna a)); try (now destruct (Hnt a));
      try discriminate; simpl;
      unfold DecimalField.operator_lt, decimalLess, Float64.lt;
      rewrite ?Z.ltb_irrefl, ?String_lt_irrefl, ?andb_false_r; reflexivity.
  - simpl in *. now apply Hvec.
  - simpl in *. now apply Hvec.
Qed.

Lemma operator_le_of_less2 a b :
  (less2 a b).1 = Ok true →
  operator_le a b = Ok true ∧ operator_le b a = Ok false.
Proof.
  assert (Hvec : ∀ l l', (lexicographical_compare2 less2 l l').1 = Ok true →
            (lexicographical_compare2 less2 l l').2 = Ok false →
            vector_le l l' = Ok true ∧ vector_le l' l = Ok false).
  { intros l l' H1 H2. unfold vector_le.
    rewrite vector_lt_swap, H2. unfold vector_lt. now rewrite H1. }
  intros Hlt.
  destruct (less2_consistent a b) as ((Hgt & _) & _); [done|].
  destruct a, b; simpl in *; unfold operator_le; simpl;
    try discriminate; try (split; reflexivity);
    try (now apply Hvec);
    injection Hlt as Hlt;
    unfold DecimalField.operator_lt, DecimalField.operator_le,
      decimalLess, decimalLessOrEqual in *;
    try (split; f_equal; lia).
  - unfold Float64.lt, Float64.le in *.
    destruct (Float64.is_nan bits), (Float64.is_nan bits0); simpl in *;
      try discriminate.
    split; f_equal; lia.
  - unfold String_le. injection Hgt as Hgt. now rewrite Hlt, Hgt.
Qed.

(** The comparisons agree with one another on all Fields, a Float64 or
    an AggregateFunctionState inside them or not: whenever a < b gives
    true, b < a gives false, a <= b true, b <= a false, and a == b and
    b == a false.  On a Field with no AggregateFunctionState in it, a < a
    gives false. *)
Theorem operator_lt_is_consistent (a b : Field) :
  (stateless a = true → operator_lt a a = Ok false) ∧
  (operator_lt a b = Ok true →
   operator_lt b a = Ok false ∧
   operator_gt a b = Ok false ∧
   operator_le a b = Ok true ∧
   operator_ge a b = Ok false ∧
   operator_eq a b = Ok false ∧
   operator_eq b a = Ok false ∧
   operator_ne a b = Ok true).
Proof.
  split.
  - intros Ha. unfold operator_lt. now rewrite less2_irreflexive.
  - unfold operator_gt, operator_ge, operator_ne, operator_lt. intros Hlt.
    destruct (less2_consistent a b) as ((Hgt & Heq) & _); [done|].
    destruct (operator_le_of_less2 a b Hlt) as (Hle & Hge).
    rewrite (less2_swap a b); simpl.
    rewrite Heq; simpl.
    repeat split; try done.
    now apply operator_eq_sym.
Qed.

(** ** DecimalField: addition and subtraction in place *)

Lemma signed_representable w z :
  0 < w → DecimalField.representable w z = true → signed w z = z.
Proof.
  intros Hw H. unfold DecimalField.representable in H. unfold signed.
  assert (Hp : 2 ^ w = 2 * 2 ^ (w - 1)).
  { rewrite <- Z.pow_succ_r by lia. f_equal. lia. }
  rewrite Z.mod_small; lia.
Qed.

Lemma representable_signed w z :
  0 < w → DecimalField.representable w (signed w z) = true.
Proof.
  intros Hw. unfold DecimalField.representable, signed.
  assert (Hp : 2 ^ w = 2 * 2 ^ (w - 1)).
  { rewrite <- Z.pow_succ_r by lia. f_equal. lia. }
  assert (0 < 2 ^ (w - 1)) by (apply Z.pow_pos_nonneg; lia).
  pose proof (Z.mod_pos_bound (z + 2 ^ (w - 1)) (2 ^ w) ltac:(lia)).
  lia.
Qed.

(** DecimalField += and -= throw LOGICAL_ERROR when the two scales
    differ, and rescale nothing.  With equal scales, and a sum that the
    integer type holds, += gives the sum at the same scale, and -= of the
    same operand gives back the value there was. *)
Theorem decimal_field_add_then_sub (w : Z) (l r : DecimalField.t) :
  (DecimalField.getScale l ≠ DecimalField.getScale r →
   DecimalField.operator_add_assign w l r
   = Throw (mkException "Add different decimal fields" LOGICAL_ERROR) ∧
   DecimalField.operator_sub_assign w l r
   = Throw (mkException "Sub different decimal fields" LOGICAL_ERROR)) ∧
  (0 < w →
   DecimalField.getScale l = DecimalField.getScale r →
   DecimalField.representable w
     (DecimalField.getValue w l + DecimalField.getValue w r) = true →
   ∃ s, DecimalField.operator_add_assign w l r = Ok s ∧
        DecimalField.getScale s = DecimalField.getScale l ∧
        DecimalField.getValue w s
        = DecimalField.getValue w l + DecimalField.getValue w r ∧
        ∃ d, DecimalField.operator_sub_assign w s r = Ok d ∧
             DecimalField.getScale d = DecimalField.getScale l ∧
             DecimalField.getValue w d = DecimalField.getValue w l).
Proof.
  split.
  - intros Hne. apply Z.eqb_neq in Hne.
    unfold DecimalField.operator_add_assign, DecimalField.operator_sub_assign.
    now rewrite Hne.
  - intros Hw Heq Hfit.
    unfold DecimalField.operator_add_assign.
    rewrite (proj2 (Z.eqb_eq _ _) Heq), Hfit; simpl.
    set (s := DecimalField.mk _ _).
    assert (Hscale : DecimalField.getScale s = DecimalField.getScale l)
      by reflexivity.
    assert (Hvalue : DecimalField.getValue w s
                     = DecimalField.getValue w l + DecimalField.getValue w r)
      by now apply signed_representable.
    exists s; split; [reflexivity|].
    split; [done|]. split; [done|].
    unfold DecimalField.operator_sub_assign.
    rewrite (proj2 (Z.eqb_eq _ _) (eq_trans Hscale Heq)).
    rewrite Hvalue; simpl.
    replace (DecimalField.getValue w l + DecimalField.getValue w r
             - DecimalField.getValue w r)
      with (DecimalField.getValue w l) by lia.
    unfold DecimalField.getValue at 1.
    rewrite representable_signed by done.
    eexists; split; [reflexivity|].
    split; [reflexivity|].
    unfold DecimalField.getValue at 1; simpl.
    apply signed_representable; [done|]. now apply representable_signed.
Qed.

(** ** Field: tryGet *)

(** tryGet<T> never fails: it gives true and the stored value exactly
    when safeGet<T> gives the value, and otherwise false, leaving what it
    was given for the result as it was. *)
Theorem tryGet_agrees_with_safeGet
    (T : Types.Which) (result : storage_type T) (f : Field) :
  tryGet T result f
  = match safeGet T f with
    | Ok v => Ok (true, v)
    | _ => Ok (false, result)
    end ∧
  (r ← tryGet T result f; Ok r.1) = Ok (bool_decide (which f = T)).
Proof.
  unfold tryGet, safeGet.
  rewrite Types_eqb_spec.
  destruct (decide (which f = T)) as [<-|Hne].
  - rewrite bool_decide_eq_true_2 by done; simpl.
    assert (Hget : get (which f) f = Ok (stored f)) by (destruct f; reflexivity).
    now rewrite Hget.
  - now rewrite bool_decide_eq_false_2 by done.
Qed.

(** ** MysqlResultWriter: what an append hands over, and what it counts *)

Lemma column_size_nonneg c : 0 ≤ column_size c.
Proof.
  induction c; simpl; first [apply pod_size_nonneg | assumption].
Qed.

Lemma block_rows_nonneg block : 0 ≤ block_rows block.
Proof. destruct block; simpl; [lia|apply column_size_nonneg]. Qed.

Section vectorized_path_facts.
Context {B : Type} `{!MysqlRowBuffer B} `{!Renderers}.
Variable add_batch_status : BufferControlBlock → TFetchDataResult → Status.
Variable convert_to_vec_block : RowBatch → Block.
Variable execute : VExprContext → Block → Block * Z.

Lemma add_one_column_keeps_the_rest type is_nullable column_ptr
    (w w' : @MysqlResultWriter B) status :
  _add_one_column type is_nullable column_ptr w = Ok (status, w') →
  _sinker w' = _sinker w ∧ _written_rows w' = _written_rows w ∧
  _output_vexpr_ctxs w' = _output_vexpr_ctxs w ∧
  _output_expr_ctxs w' = _output_expr_ctxs w ∧
  _result_column_ids w' = _result_column_ids w.
Proof.
  unfold _add_one_column.
  destruct (if is_nullable then _ else _) as [column| |]; simpl; try discriminate.
  destruct (add_one_column_loop _ _ _ _ _ _ _) as [r| |]; simpl; try discriminate.
  intros [= <- <-]. done.
Qed.

Lemma rows_append_length rows : ∀ (bufs : list B) rows',
  rows_append rows bufs = Ok rows' → length rows' = length rows.
Proof.
  induction rows as [|r rows IH]; intros [|b bufs] rows'; simpl;
    try (intros [= <-]; done); try discriminate.
  destruct (rows_append rows bufs) as [rest| |] eqn:E; simpl; try discriminate.
  intros [= <-]. simpl. f_equal. now apply (IH bufs).
Qed.

Lemma append_block_loop_keeps ctxs : ∀ i block (w w1 : @MysqlResultWriter B)
    rows status result,
  append_block_loop ctxs i block w rows = Ok (status, w1, result) →
  _sinker w1 = _sinker w ∧ _written_rows w1 = _written_rows w ∧
  length result = length rows ∧
  (Exists (fun ctx => column_type (result_type ctx) = None) ctxs →
   ok status = false).
Proof.
  induction ctxs as [|ctx ctxs IH]; intros i block w w1 rows status result; simpl.
  - intros [= <- <- <-]. repeat split. intros Hx; inversion Hx.
  - destruct (array_at (_result_column_ids w) i) as [id| |]; simpl; try discriminate.
    destruct (array_at block id) as [c| |]; simpl; try discriminate.
    destruct (column_type (result_type ctx)) as [type|] eqn:Htype.
    + destruct (_add_one_column type _ _ w) as [[st w2]| |] eqn:Hcol; simpl;
        try discriminate.
      destruct (add_one_column_keeps_the_rest _ _ _ _ _ _ Hcol)
        as (Hs & Hw & Hv & He & Hi).
      destruct (ok st) eqn:Hok.
      * destruct (rows_append rows (_vec_buffers w2)) as [rows'| |] eqn:Hrows;
          simpl; try discriminate.
        intros Hloop. apply IH in Hloop as (Hs' & Hw' & Hlen & Hun).
        apply rows_append_length in Hrows.
        repeat split; try congruence.
        intros Hex. apply Hun. inversion Hex; subst; [congruence|done].
      * intros [= <- <- <-]. repeat split; try congruence.
    + destruct (array_at (_output_expr_ctxs w) i); simpl; try discriminate.
      intros [= <- <- <-]. repeat split.
Qed.

(** An append of a block hands the sink nothing, or one whole batch.
    Nothing: the block has no rows, or the status is not OK (a column was
    not converted).  One batch: it has a row for every row of the block,
    the status is the answer of the sink, and _written_rows grows by the
    rows of the block exactly when that answer is OK. *)
Theorem append_block_hands_whole_batches
    (block : Block) (w w' : @MysqlResultWriter B) (status : Status) :
  append_block add_batch_status block w = Ok (status, w') →
  (sink_log w' = sink_log w ∧ _written_rows w' = _written_rows w ∧
   (status = OK → block_rows block = 0)) ∨
  (∃ result s,
     _sinker w = Some s ∧
     sink_log w' = sink_log w ++ [result] ∧
     status = add_batch_status s result ∧
     Z.of_nat (length result) = block_rows block ∧
     _written_rows w'
     = _written_rows w + (if ok status then block_rows block else 0)).
Proof.
  unfold append_block.
  destruct (block_rows block =? 0) eqn:Erows.
  { intros [= <- <-]. left. repeat split. lia. }
  destruct (append_block_loop _ 0 block w _) as [[[st w1] result]| |] eqn:Hloop;
    simpl; try discriminate.
  apply append_block_loop_keeps in Hloop as (Hs & Hw & Hlen & _).
  rewrite length_replicate in Hlen.
  destruct (ok st) eqn:Hok.
  - destruct (_sinker w1) as [s|] eqn:Hsink; [|discriminate].
    intros Hrun. right. exists result, s.
    pose proof (block_rows_nonneg block) as Hn.
    assert (Hres : status = add_batch_status s result ∧
                   sink_log w' = sink_log w ++ [result] ∧
                   _written_rows w'
                   = _written_rows w
                     + (if ok (add_batch_status s result)
                        then block_rows block else 0)).
    { unfold add_batch in Hrun; simpl in Hrun.
      destruct (ok (add_batch_status s result));
        injection Hrun as <- <-; unfold sink_log; simpl;
        rewrite <- Hs; repeat split; lia. }
    destruct Hres as (-> & Hlog & Hwritten).
    split; [congruence|]. split; [done|]. split; [done|]. split; [lia|done].
  - intros [= <- <-]. left. unfold sink_log. rewrite Hs.
    repeat split; [done|]. intros ->. discriminate.
Qed.

(** A result type that append_block does not serve (TIME and the old
    DECIMAL are among them) makes the append of a block with rows fail:
    the status is never OK, the sink is handed nothing and no row is
    counted. *)
Theorem append_block_rejects_unserved_types
    (block : Block) (w w' : @MysqlResultWriter B) (status : Status) :
  Exists (fun ctx => column_type (result_type ctx) = None) (_output_vexpr_ctxs w) →
  block_rows block ≠ 0 →
  append_block add_batch_status block w = Ok (status, w') →
  ok status = false ∧ sink_log w' = sink_log w ∧
  _written_rows w' = _written_rows w.
Proof.
  intros Hex Hrows. unfold append_block.
  apply Z.eqb_neq in Hrows. rewrite Hrows.
  destruct (append_block_loop _ 0 block w _) as [[[st w1] result]| |] eqn:Hloop;
    simpl; try discriminate.
  apply append_block_loop_keeps in Hloop as (Hs & Hw & _ & Hun).
  rewrite (Hun Hex).
  intros [= <- <-]. unfold sink_log. rewrite Hs. auto.
Qed.

(** What append_row_batch counts: _written_rows, which close() reports,
    grows by the rows it was given to send when the status is OK, and
    stays as it was otherwise, in both paths. *)
Theorem written_rows_counts_the_rows_sent
    (batch : option RowBatch) (w w' : @MysqlResultWriter B) (status : Status) :
  append_row_batch add_batch_status convert_to_vec_block execute batch w
  = Ok (status, w') →
  (close w').2
  = (close w).2
    + (if ok status then batch_rows convert_to_vec_block execute batch w else 0).
Proof.
  unfold append_row_batch, batch_rows, close; simpl.
  destruct (_is_vec w) eqn:Hvec.
  - destruct batch as [rows|]; [|discriminate].
    set (r := execute_loop _ _ _).
    intros Hblock.
    destruct (append_block_hands_whole_batches _ _ _ _ Hblock)
      as [(_ & Hw & Hzero)|(result & s & _ & _ & _ & _ & Hw)].
    + simpl in Hw. rewrite Hw.
      destruct status; simpl; [rewrite Hzero by done|]; lia.
    + exact Hw.
  - destruct batch as [[|row rows]|].
    + intros [= <- <-]. simpl. lia.
    + set (todo := row :: rows).
      destruct (append_rows_loop todo 0 w _) as [[[st w1] result]| |] eqn:Hloop;
        simpl; try discriminate.
      apply append_rows_loop_spec in Hloop as (Hs & He & Hw & _);
        [|now rewrite length_replicate].
      destruct (ok st) eqn:Hok.
      * destruct (_sinker w1) as [s|]; [|discriminate].
        unfold add_batch; simpl.
        destruct (ok (add_batch_status s result)) eqn:Hsent;
          intros [= <- <-]; simpl; rewrite Hsent; lia.
      * intros [= <- <-]. rewrite Hok. lia.
    + intros [= <- <-]. simpl. lia.
Qed.
End vectorized_path_facts.

Section row_buffers_facts.
Context {B : Type} `{!MysqlRowBuffer B} `{!Renderers}.
Variable add_batch_status : BufferControlBlock → TFetchDataResult → Status.

Lemma at_buffer_Ok (bufs : list B) i push r :
  at_buffer bufs i push = Ok r →
  ∃ b, array_at bufs i = Ok b ∧ r = ((push b).1, <[Z.to_nat i := (push b).2]> bufs).
Proof.
  unfold at_buffer.
  destruct (array_at bufs i) as [b| |]; simpl; try discriminate.
  intros [= <-]. now exists b.
Qed.

Lemma array_at_Ok {T} (a : list T) i v :
  array_at a i = Ok v → 0 ≤ i ∧ i < pod_size a ∧ a !! Z.to_nat i = Some v.
Proof.
  unfold array_at.
  destruct (0 <=? i) eqn:E1; simpl; [|discriminate].
  destruct (i <? pod_size a) eqn:E2; simpl; [|discriminate].
  destruct (a !! Z.to_nat i) eqn:E3; [|discriminate].
  intros [= <-]. repeat split; lia.
Qed.

Lemma at_buffer_in_range (bufs : list B) i push r :
  at_buffer bufs i push = Ok r →
  0 ≤ i ∧ i < pod_size bufs ∧ length r.2 = length bufs.
Proof.
  intros (b & Hb & ->)%at_buffer_Ok.
  apply array_at_Ok in Hb as (H1 & H2 & _).
  simpl. now rewrite length_insert.
Qed.

Lemma push_cell_in_range served type column i buf_ret (bufs : list B) r :
  column_type served = Some type →
  push_cell type column i buf_ret bufs = Ok r →
  0 ≤ i ∧ i < pod_size bufs ∧ length r.2 = length bufs.
Proof.
  intros Hserved.
  destruct served; simpl in Hserved; try discriminate; injection Hserved as <-;
    unfold push_cell.
  all: try (destruct (getData column _ i) as [v| |]; simpl; try discriminate;
            apply at_buffer_in_range).
  all: try apply at_buffer_in_range.
  all: destruct (column_getDataAt column i) as [v| |]; simpl; try discriminate.
  all: destruct (StringRef.data v); [|destruct (StringRef.size v =? 0)];
    apply at_buffer_in_range.
Qed.

Lemma add_one_column_loop_short served type is_nullable column_ptr column todo :
  column_type served = Some type →
  ∀ buf_ret (bufs bufs' : list B) status,
    Exists (fun i => pod_size bufs ≤ i) todo →
    add_one_column_loop type is_nullable column_ptr column todo buf_ret bufs
    = Ok (status, bufs') →
    ok status = false.
Proof.
  intros Hserved.
  induction todo as [|i todo IH]; intros buf_ret bufs bufs' status Hex; simpl.
  { inversion Hex. }
  destruct (if is_nullable then isNullAt column_ptr i else Ok false)
    as [isnull| |]; simpl; try discriminate.
  destruct isnull.
  - destruct (at_buffer bufs i push_null) as [r| |] eqn:Hat; simpl;
      try discriminate.
    apply at_buffer_in_range in Hat as (H1 & H2 & Hlen).
    apply IH. unfold pod_size in *. rewrite Hlen.
    inversion Hex; subst; [lia|done].
  - destruct (push_cell type column i buf_ret bufs) as [r| |] eqn:Hcell; simpl;
      try discriminate.
    apply (push_cell_in_range served) in Hcell as (H1 & H2 & Hlen); [|done].
    destruct (negb (r.1 =? 0)).
    + now intros [= <- <-].
    + apply IH. unfold pod_size in *. rewrite Hlen.
      inversion Hex; subst; [lia|done].
Qed.

Lemma add_one_column_short served type is_nullable column_ptr
    (w w' : @MysqlResultWriter B) status :
  column_type served = Some type →
  pod_size (_vec_buffers w) < column_size column_ptr →
  _add_one_column type is_nullable column_ptr w = Ok (status, w') →
  ok status = false.
Proof.
  intros Hserved Hshort. unfold _add_one_column.
  destruct (if is_nullable then _ else _) as [column| |]; simpl; try discriminate.
  destruct (add_one_column_loop _ _ _ _ _ _ _) as [[st bufs']| |] eqn:Hloop;
    simpl; try discriminate.
  intros [= <- <-].
  apply (add_one_column_loop_short served) in Hloop; [done..|].
  pose proof (pod_size_nonneg (_vec_buffers w)) as H0.
  apply Exists_exists. exists (pod_size (_vec_buffers w)). split.
  - apply elem_of_seqZ. lia.
  - unfold pod_size. rewrite length_map. lia.
Qed.

(** init gives the vectorized path one row buffer for each row of a
    batch of state->batch_size() rows, and append_block indexes the
    buffers by the row with no check.  A block with more rows than that
    is never appended with success: the status is not OK and the sink is
    handed nothing (or the append has no defined result at all). *)
Theorem append_block_needs_a_buffer_for_each_row
    (batch_size : Z) (block : Block) (w0 w w' : @MysqlResultWriter B)
    (status : Status) :
  0 ≤ batch_size →
  _is_vec w0 = true →
  init batch_size w0 = (OK, w) →
  _output_vexpr_ctxs w0 ≠ [] →
  Forall (fun c => column_size (column c) = block_rows block) block →
  batch_size < block_rows block →
  append_block add_batch_status block w = Ok (status, w') →
  pod_size (_vec_buffers w) = batch_size ∧
  ok status = false ∧ sink_log w' = sink_log w.
Proof.
  intros Hsize Hvec Hinit Hctxs Hcols Hshort Happ.
  unfold init in Hinit. rewrite Hvec in Hinit.
  destruct (_sinker w0) as [s|] eqn:Hs; [|discriminate].
  injection Hinit as <-.
  assert (Hbufs : pod_size (_vec_buffers (set_vec_buffers
                    (replicate (Z.to_nat batch_size) new_buffer) w0)) = batch_size).
  { unfold pod_size; simpl. rewrite length_replicate. lia. }
  set (w := set_vec_buffers _ w0) in *.
  split; [done|].
  revert Happ. unfold append_block.
  destruct (block_rows block =? 0) eqn:E; [lia|].
  destruct (append_block_loop _ 0 block w _) as [[[st w1] result]| |] eqn:Hloop;
    simpl; try discriminate.
  assert (Hst : ok st = false).
  { change (_output_vexpr_ctxs w) with (_output_vexpr_ctxs w0) in Hloop.
    destruct (_output_vexpr_ctxs w0) as [|ctx ctxs]; [done|].
    simpl in Hloop.
    destruct (array_at (_result_column_ids w0) 0) as [id| |]; simpl in Hloop;
      try discriminate.
    destruct (array_at block id) as [c| |] eqn:Hc; simpl in Hloop;
      try discriminate.
    apply array_at_Ok in Hc as (_ & _ & Hc).
    apply list_elem_of_lookup_2 in Hc.
    rewrite Forall_forall in Hcols. specialize (Hcols c Hc).
    destruct (column_type (result_type ctx)) as [type|] eqn:Htype.
    - destruct (_add_one_column type _ _ w) as [[st2 w2]| |] eqn:Hcol;
        simpl in Hloop; try discriminate.
      apply (add_one_column_short (result_type ctx)) in Hcol; [|done|lia].
      rewrite Hcol in Hloop. now injection Hloop as <- _ _.
    - destruct (array_at (_output_expr_ctxs w0) 0); simpl in Hloop;
        try discriminate.
      now injection Hloop as <- _ _. }
  apply append_block_loop_keeps in Hloop as (Hs' & _).
  rewrite Hst. intros [= <- <-].
  split; [done|]. unfold sink_log. now rewrite Hs'.
Qed.
End row_buffers_facts.

Lemma append_block_hands_whole_batches_witness :
  let w := (@init _ unbounded_buffers 3
              (new_writer true [] [mkVExprContext TYPE_INT] [0])).2 in
  let block := [mkColumnWithTypeAndName
                  (ColumnNullable (ColumnVector_Int32 [5; 0; -3]) [false; true; false])
                  true] in
  ∃ status w',
    @append_block _ unbounded_buffers run_renderers accepting_sink block w
    = Ok (status, w') ∧
    ((sink_log w' = sink_log w ∧ _written_rows w' = _written_rows w ∧
      (status = OK → block_rows block = 0)) ∨
     (∃ result s,
        _sinker w = Some s ∧
        sink_log w' = sink_log w ++ [result] ∧
        status = accepting_sink s result ∧
        Z.of_nat (length result) = block_rows block ∧
        _written_rows w'
        = _written_rows w + (if ok status then block_rows block else 0))).
Proof.
  intros w block.
  destruct (@append_block _ unbounded_buffers run_renderers accepting_sink block w)
    as [[status w']| |] eqn:E.
  - exists status, w'. split; [reflexivity|].
    exact (@append_block_hands_whole_batches _ unbounded_buffers run_renderers
             accepting_sink block w w' status E).
  - vm_compute in E. discriminate.
  - vm_compute in E. discriminate.
Defined.

Lemma append_block_rejects_unserved_types_witness :
  let w := (@init _ unbounded_buffers 1
              (new_writer true [tinyint_expr] [mkVExprContext TYPE_TIME] [0])).2 in
  let block := [mkColumnWithTypeAndName (ColumnVector_Float64 [0]) false] in
  ∃ status w',
    @append_block _ unbounded_buffers run_renderers accepting_sink block w
    = Ok (status, w') ∧
    ok status = false ∧ sink_log w' = sink_log w ∧
    _written_rows w' = _written_rows w.
Proof.
  intros w block.
  destruct (@append_block _ unbounded_buffers run_renderers accepting_sink block w)
    as [[status w']| |] eqn:E.
  - exists status, w'. split; [reflexivity|].
    apply (@append_block_rejects_unserved_types _ unbounded_buffers run_renderers
             accepting_sink block w w' status).
    + apply Exists_cons_hd. reflexivity.
    + discriminate.
    + exact E.
  - vm_compute in E. discriminate.
  - vm_compute in E. discriminate.
Defined.

Lemma written_rows_counts_the_rows_sent_witness :
  let w := (@init _ unbounded_buffers 1 (new_writer false [decimal_expr] [] [])).2 in
  ∃ status w',
    @append_row_batch _ unbounded_buffers run_renderers accepting_sink
      no_convert no_execute (Some decimal_rows) w = Ok (status, w') ∧
    (close w').2
    = (close w).2
      + (if ok status
         then batch_rows no_convert no_execute (Some decimal_rows) w else 0).
Proof.
  intros w.
  destruct (@append_row_batch _ unbounded_buffers run_renderers accepting_sink
              no_convert no_execute (Some decimal_rows) w)
    as [[status w']| |] eqn:E.
  - exists status, w'. split; [reflexivity|].
    exact (@written_rows_counts_the_rows_sent _ unbounded_buffers run_renderers
             accepting_sink no_convert no_execute (Some decimal_rows) w w' status E).
  - vm_compute in E. discriminate.
  - vm_compute in E. discriminate.
Defined.

Lemma append_block_needs_a_buffer_for_each_row_witness :
  let w0 := new_writer true [] [mkVExprContext TYPE_TINYINT] [0] in
  let w := (@init _ exhausted_buffers 1 w0).2 in
  let block := [mkColumnWithTypeAndName (ColumnVector_Int8 [1; 2]) false] in
  ∃ status w',
    @append_block _ exhausted_buffers run_renderers accepting_sink block w
    = Ok (status, w') ∧
    pod_size (_vec_buffers w) = 1 ∧
    ok status = false ∧ sink_log w' = sink_log w.
Proof.
  intros w0 w block.
  destruct (@append_block _ exhausted_buffers run_renderers accepting_sink block w)
    as [[status w']| |] eqn:E.
  - exists status, w'. split; [reflexivity|].
    apply (@append_block_needs_a_buffer_for_each_row _ exhausted_buffers
             run_renderers accepting_sink 1 block w0 w w' status).
    + lia.
    + reflexivity.
    + reflexivity.
    + discriminate.
    + repeat constructor.
    + reflexivity.
    + exact E.
  - vm_compute in E. discriminate.
  - vm_compute in E. discriminate.
Defined.

(** ** MysqlResultWriter: the two paths on one batch *)

Section batch_facts.
Context {B : Type} `{!MysqlRowBuffer B} `{!Renderers}.
Hypothesis Hsteady : steady_buffers.

Lemma steady_appends (push : B → Z * B) b :
  steady push → (push b).1 = 0 →
  ∃ enc, ∀ b', (push b').1 = 0 ∧ buf (push b').2 = buf b' ++ enc.
Proof.
  intros (status & enc & Hp) Hb.
  destruct (Hp b) as [Hst _]. rewrite Hb in Hst. subst status.
  exists enc. intros b'. destruct (Hp b') as [H1 H2]. auto.
Qed.

Lemma push_item_steady type scale item (b : B) r :
  push_item type scale item b = Ok r → r.1 = 0 →
  ∃ push, steady push ∧ ∀ b', push_item type scale item b' = Ok (push b').
Proof.
  destruct Hsteady as (_ & Hnull & Ht & Hs & Hi & Hb & Hf & Hd & Hstr).
  destruct type; simpl; try (intros [= <-]; simpl; lia);
    destruct item; try discriminate; intros _ _;
    try (eexists; split; [|reflexivity]; auto; fail).
  all: destruct v as [[mem|] len]; simpl; [|destruct (len =? 0)];
    eexists; (split; [|reflexivity]); auto.
Qed.

Lemma push_value_encodes ctx row (b : B) r :
  push_value ctx row b = Ok r → r.1 = 0 → ∃ enc, encodes ctx row enc.
Proof.
  unfold encodes, push_value.
  destruct (get_value ctx row) as [item|].
  - intros Hitem Hr.
    destruct (push_item_steady _ _ _ _ _ Hitem Hr) as (push & Hpush & Hall).
    rewrite Hall in Hitem. injection Hitem as <-.
    destruct (steady_appends push b Hpush Hr) as (enc & Henc).
    exists enc. intros b'. exists (push b'). rewrite Hall.
    destruct (Henc b'). auto.
  - intros [= <-] Hr.
    destruct Hsteady as (_ & Hnull & _).
    destruct (steady_appends push_null b Hnull Hr) as (enc & Henc).
    exists enc. intros b'. exists (push_null b').
    destruct (Henc b'). auto.
Qed.

Lemma encodes_unique ctx row enc enc' :
  encodes ctx row enc → encodes ctx row enc' → enc = enc'.
Proof.
  intros H1 H2.
  destruct (H1 new_buffer) as (r & Hr & _ & He).
  destruct (H2 new_buffer) as (r' & Hr' & _ & He').
  rewrite Hr in Hr'. injection Hr' as <-.
  rewrite He in He'. now apply app_inv_head in He'.
Qed.

Lemma add_one_row_loop_stops ctxs row buf_ret (b b' : B) :
  buf_ret ≠ 0 → add_one_row_loop ctxs row buf_ret b = Ok (0, b') → False.
Proof.
  intros Hne. destruct ctxs as [|ctx ctxs]; simpl.
  - intros [= ? _]. done.
  - apply Z.eqb_neq in Hne. rewrite Hne; simpl. intros [= ? _]. lia.
Qed.

Lemma add_one_row_loop_encodes ctxs row : ∀ (b b' : B),
  add_one_row_loop ctxs row 0 b = Ok (0, b') →
  ∃ encs, Forall2 (fun ctx enc => encodes ctx row enc) ctxs encs ∧
          buf b' = buf b ++ concat encs.
Proof.
  induction ctxs as [|ctx ctxs IH]; intros b b'; simpl.
  - intros [= <-]. exists []. split; [constructor|]. now rewrite app_nil_r.
  - fold (push_value ctx row b).
    assert (Hbody : (match get_value ctx row with
                     | Some item =>
                         push_item (expr_type ctx) (output_scale ctx) item b
                         ≫= (fun r => add_one_row_loop ctxs row r.1 r.2)
                     | None => add_one_row_loop ctxs row (push_null b).1 (push_null b).2
                     end)
                    = (r ← push_value ctx row b; add_one_row_loop ctxs row r.1 r.2)).
    { unfold push_value. now destruct (get_value ctx row). }
    rewrite Hbody. clear Hbody.
    destruct (push_value ctx row b) as [r| |] eqn:Hr; simpl; try discriminate.
    intros Hloop.
    destruct (Z.eq_dec r.1 0) as [Hz|Hnz];
      [|now destruct (add_one_row_loop_stops _ _ _ _ _ Hnz Hloop)].
    destruct (push_value_encodes _ _ _ _ Hr Hz) as (enc & Henc).
    rewrite Hz in Hloop.
    destruct (IH _ _ Hloop) as (encs & Hencs & Hbuf).
    exists (enc :: encs). split; [now constructor|].
    destruct (Henc b) as (r' & Hr' & _ & He).
    rewrite Hr in Hr'. injection Hr' as <-.
    rewrite Hbuf, He. simpl. now rewrite <- app_assoc.
Qed.

Lemma add_one_row_encodes row (w w' : @MysqlResultWriter B) b :
  _add_one_row row w = Ok (OK, w') → _row_buffer w' = Some b →
  ∃ encs, Forall2 (fun ctx enc => encodes ctx row enc) (_output_expr_ctxs w) encs ∧
          buf b = concat encs.
Proof.
  unfold _add_one_row.
  destruct (_row_buffer w) as [b0|]; [|discriminate].
  destruct (add_one_row_loop _ row 0 (reset b0)) as [[st b1]| |] eqn:Hloop;
    simpl; try discriminate.
  destruct (st =? 0) eqn:Hst; simpl; [|discriminate].
  apply Z.eqb_eq in Hst as ->.
  intros [= <-]; simpl. intros [= <-].
  destruct (add_one_row_loop_encodes _ _ _ _ Hloop) as (encs & Hencs & Hbuf).
  exists encs. split; [done|].
  destruct Hsteady as (Hreset & _). now rewrite Hbuf, Hreset.
Qed.
End batch_facts.

Section batch_vec_facts.
Context {B : Type} `{!MysqlRowBuffer B} `{!Renderers}.
Variable add_batch_status : BufferControlBlock → TFetchDataResult → Status.
Variable convert_to_vec_block : RowBatch → Block.
Variable execute : VExprContext → Block → Block * Z.
Hypothesis Hsteady : steady_buffers.

Lemma array_at_lookup {T} (a : list T) (k : nat) v :
  a !! k = Some v → array_at a (Z.of_nat k) = Ok v.
Proof.
  intros Hv. apply lookup_lt_Some in Hv as Hlt.
  unfold array_at, pod_size.
  destruct (0 <=? Z.of_nat k) eqn:E1; [|lia].
  destruct (Z.of_nat k <? Z.of_nat (length a)) eqn:E2; [|lia].
  simpl. now rewrite Nat2Z.id, Hv.
Qed.

Lemma push_cell_is_push_item (type T : PrimitiveType) (scale : Z) (item : Item)
    (column : IColumn) (i buf_ret : Z) (bufs : list B) (b : B) :
  column_type type = Some T →
  same_cell type column i item →
  array_at bufs i = Ok b →
  scaled_decimal type scale = false →
  push_cell T column i buf_ret bufs
  = (r ← push_item type scale item b; Ok (r.1, <[Z.to_nat i := r.2]> bufs)).
Proof.
  intros HT Hsame Hbuf Hscale.
  destruct type; simpl in HT; try discriminate; injection HT as <-;
    simpl in Hsame, Hscale.
  all: try (simpl; unfold at_buffer; rewrite Hbuf; reflexivity).
  all: try (destruct column; simpl in Hsame; try discriminate;
            destruct (array_at data i) as [v| |] eqn:Hv; simpl in Hsame;
            try discriminate; injection Hsame as <-;
            simpl; rewrite Hv; simpl; unfold at_buffer; rewrite Hbuf;
            rewrite ?Hscale; reflexivity).
  all: destruct (column_getDataAt column i) as [r| |] eqn:Hr;
    [|destruct column; discriminate..].
  all: assert (item = ItemStringValue (StringValue.mk (StringRef.data r) (StringRef.size r)))
         as -> by (destruct column; simpl in Hsame; rewrite ?Hr in Hsame;
                   simpl in Hsame; congruence).
  all: simpl; rewrite Hr; simpl; unfold at_buffer.
  all: destruct (StringRef.data r); [|destruct (StringRef.size r =? 0)];
    rewrite Hbuf; reflexivity.
Qed.

(** One turn of the loop of [_add_one_column], on a cell that holds what
    the expression gives on the row. *)
Lemma add_one_column_loop_step expr T (is_nullable : bool) column_ptr column row enc
    (j : nat) rest buf_ret (bufs : list B) b :
  column_type (expr_type expr) = Some T →
  scaled_decimal (expr_type expr) (output_scale expr) = false →
  (if is_nullable then getNestedColumnPtr column_ptr else Ok column_ptr) = Ok column →
  same_value (expr_type expr) is_nullable column_ptr (Z.of_nat j) (get_value expr row) →
  encodes expr row enc →
  bufs !! j = Some b →
  ∃ b', buf b' = buf b ++ enc ∧
        add_one_column_loop T is_nullable column_ptr column (Z.of_nat j :: rest)
          buf_ret bufs
        = add_one_column_loop T is_nullable column_ptr column rest 0 (<[j := b']> bufs).
Proof.
  intros HT Hscale Hcolumn Hsame Henc Hb.
  destruct (Henc b) as (r & Hr & Hz & Hbuf).
  exists r.2. split; [done|].
  pose proof (array_at_lookup _ _ _ Hb) as Hat.
  assert (Hnonnull : ∀ item, get_value expr row = Some item →
            same_cell (expr_type expr) column (Z.of_nat j) item →
            push_cell T column (Z.of_nat j) buf_ret bufs = Ok (0, <[j := r.2]> bufs)).
  { intros item Hitem Hcell.
    rewrite (push_cell_is_push_item _ _ (output_scale expr) item _ _ _ _ b) by done.
    unfold push_value in Hr. rewrite Hitem in Hr. rewrite Hr; simpl.
    now rewrite Hz, Nat2Z.id. }
  simpl. unfold same_value in Hsame.
  destruct is_nullable.
  - destruct Hsame as (nested & isnull & Hnested & Hnull & Hv).
    rewrite Hnested in Hcolumn. injection Hcolumn as <-.
    rewrite Hnull; simpl.
    destruct isnull.
    + unfold push_value in Hr. rewrite Hv in Hr. injection Hr as <-.
      unfold at_buffer. rewrite Hat; simpl. now rewrite Hz, Nat2Z.id.
    + destruct Hv as (item & Hitem & Hcell).
      now rewrite (Hnonnull item Hitem Hcell).
  - injection Hcolumn as <-. simpl.
    destruct Hsame as (item & Hitem & Hcell).
    now rewrite (Hnonnull item Hitem Hcell).
Qed.

Lemma add_one_column_loop_encodes expr T (is_nullable : bool) column_ptr column
    (rows : RowBatch) (f : nat → list byte) :
  column_type (expr_type expr) = Some T →
  scaled_decimal (expr_type expr) (output_scale expr) = false →
  (if is_nullable then getNestedColumnPtr column_ptr else Ok column_ptr) = Ok column →
  (∀ j row, rows !! j = Some row →
     same_value (expr_type expr) is_nullable column_ptr (Z.of_nat j)
       (get_value expr row) ∧
     encodes expr row (f j)) →
  ∀ (m k : nat) (bufs : list B) buf_ret,
    (k + m = length rows)%nat → (length rows ≤ length bufs)%nat →
    ∃ bufs',
      add_one_column_loop T is_nullable column_ptr column
        (seqZ (Z.of_nat k) (Z.of_nat m)) buf_ret bufs = Ok (OK, bufs') ∧
      length bufs' = length bufs ∧
      (∀ j, (k ≤ j < k + m)%nat →
         ∃ b bj, bufs !! j = Some b ∧ bufs' !! j = Some bj ∧ buf bj = buf b ++ f j) ∧
      (∀ j, ¬ (k ≤ j < k + m)%nat → bufs' !! j = bufs !! j).
Proof.
  intros HT Hscale Hcolumn Hrows.
  induction m as [|m IH]; intros k bufs buf_ret Hk Hlen.
  - exists bufs. simpl. split; [done|]. split; [done|].
    split; [intros j Hj; lia|done].
  - rewrite seqZ_cons by lia.
    replace (Z.succ (Z.of_nat k)) with (Z.of_nat (S k)) by lia.
    replace (Z.pred (Z.of_nat (S m))) with (Z.of_nat m) by lia.
    destruct (lookup_lt_is_Some_2 rows k) as [row Hrow]; [lia|].
    destruct (lookup_lt_is_Some_2 bufs k) as [b Hb]; [lia|].
    destruct (Hrows k row Hrow) as [Hsame Henc].
    destruct (add_one_column_loop_step expr T is_nullable column_ptr column row
                (f k) k (seqZ (Z.of_nat (S k)) (Z.of_nat m)) buf_ret bufs b)
      as (b' & Hb' & Hstep); try done.
    rewrite Hstep.
    destruct (IH (S k) (<[k := b']> bufs) 0) as (bufs' & Hloop & Hl & Hin & Hout);
      [lia|rewrite length_insert; lia|].
    exists bufs'. split; [done|].
    rewrite length_insert in Hl. split; [done|].
    split.
    + intros j Hj. destruct (decide (j = k)) as [->|Hne].
      * exists b, b'. split; [done|]. split; [|done].
        rewrite Hout by lia. apply list_lookup_insert_eq. lia.
      * destruct (Hin j) as (bj0 & bj & H1 & H2 & H3); [lia|].
        rewrite list_lookup_insert_ne in H1 by done.
        exists bj0, bj. done.
    + intros j Hj. rewrite Hout by lia.
      apply list_lookup_insert_ne. lia.
Qed.

Lemma add_one_column_encodes expr vexpr c (rows : RowBatch) (f : nat → list byte)
    (w : @MysqlResultWriter B) :
  same_column expr vexpr c rows →
  (∀ j row, rows !! j = Some row → encodes expr row (f j)) →
  rows ≠ [] →
  (length rows ≤ length (_vec_buffers w))%nat →
  ∃ T bufs',
    column_type (result_type vexpr) = Some T ∧
    _add_one_column T (type_isNullable c) (column c) w
    = Ok (OK, set_vec_buffers bufs' w) ∧
    length bufs' = length (_vec_buffers w) ∧
    ∀ j, (j < length rows)%nat → ∃ bj, bufs' !! j = Some bj ∧ buf bj = f j.
Proof.
  intros (Htype & (T & HT) & Hscale & Hsize & Hsame) Henc Hne Hlen.
  exists T.
  assert (Hcolumn : ∃ column',
            (if type_isNullable c then getNestedColumnPtr (column c)
             else Ok (column c)) = Ok column').
  { destruct rows as [|row rows]; [done|].
    specialize (Hsame 0%nat row eq_refl). unfold same_value in Hsame.
    destruct (type_isNullable c); [|eauto].
    destruct Hsame as (nested & _ & Hnested & _). eauto. }
  destruct Hcolumn as (column' & Hcolumn).
  destruct (add_one_column_loop_encodes expr T (type_isNullable c) (column c)
              column' rows f HT Hscale Hcolumn
              (fun j row Hrow => conj (Hsame j row Hrow) (Henc j row Hrow))
              (length rows) 0%nat (map reset (_vec_buffers w)) 0)
    as (bufs' & Hloop & Hl & Hin & _);
    [lia|rewrite length_map; lia|].
  exists bufs'. rewrite Htype. split; [done|].
  change (Z.of_nat 0) with 0 in Hloop.
  unfold _add_one_column. rewrite Hcolumn, Hsize.
  change (Ok column' ≫= ?k) with (k column'). cbv beta.
  rewrite Hloop. simpl.
  rewrite length_map in Hl.
  split; [done|]. split; [done|].
  intros j Hj.
  destruct (Hin j) as (b & bj & H1 & H2 & H3); [lia|].
  exists bj. split; [done|].
  rewrite list_lookup_fmap in H1.
  destruct (_vec_buffers w !! j) as [b0|]; [|discriminate].
  injection H1 as <-.
  destruct Hsteady as (Hreset & _). now rewrite H3, Hreset.
Qed.

Lemma rows_append_zip (acc : list (list byte)) : ∀ (bufs : list B),
  (length acc ≤ length bufs)%nat →
  rows_append acc bufs = Ok (zip_with (fun r b => r ++ buf b) acc bufs).
Proof.
  induction acc as [|r acc IH]; intros [|b bufs] Hlen; simpl in *; try done; [lia|].
  rewrite IH by lia. reflexivity.
Qed.
End batch_vec_facts.

Section batch_theorem.
Context {B : Type} `{!MysqlRowBuffer B} `{!Renderers}.
Variable add_batch_status : BufferControlBlock → TFetchDataResult → Status.
Variable convert_to_vec_block : RowBatch → Block.
Variable execute : VExprContext → Block → Block * Z.

Lemma row_encodings exprs (rows : RowBatch) (result : list (list byte)) :
  @steady_buffers B _ →
  Forall2 (@row_converted B _ _ exprs) rows result →
  ∃ R, Forall2 (fun row encs =>
                  Forall2 (fun ctx enc => encodes ctx row enc) exprs encs) rows R ∧
       result = @concat byte <$> R.
Proof.
  intros Hsteady.
  induction 1 as [|row bytes rows result Hrow _ IH].
  - exists []. split; constructor.
  - destruct Hrow as (w0 & w1 & b & He & Hrun & Hb & Hbuf).
    destruct (add_one_row_encodes Hsteady row w0 w1 b Hrun Hb) as (encs & Hencs & Hc).
    rewrite He in Hencs. destruct IH as (R & HR & ->).
    exists (encs :: R). split; [now constructor|].
    rewrite fmap_cons. f_equal. congruence.
Qed.

Lemma append_block_loop_encodes exprs vexprs ids block (rows : RowBatch)
    (R : list (list (list byte))) :
  @steady_buffers B _ →
  same_data exprs vexprs ids block rows → rows ≠ [] →
  Forall2 (fun row encs =>
             Forall2 (fun ctx enc => encodes ctx row enc) exprs encs) rows R →
  ∀ (k i : nat) (w : @MysqlResultWriter B) acc,
    (i + k = length exprs)%nat →
    _result_column_ids w = ids →
    (length rows ≤ length (_vec_buffers w))%nat →
    length acc = length rows →
    (∀ j encs, R !! j = Some encs → acc !! j = Some (concat (take i encs))) →
    ∃ w1 acc',
      append_block_loop (drop i vexprs) (Z.of_nat i) block w acc = Ok (OK, w1, acc') ∧
      _sinker w1 = _sinker w ∧ _written_rows w1 = _written_rows w ∧
      length acc' = length rows ∧
      ∀ j encs, R !! j = Some encs → acc' !! j = Some (concat encs).
Proof.
  intros Hsteady (Hlen & Hdata) Hne HR.
  assert (HRrow : ∀ j encs, R !! j = Some encs →
            (j < length rows)%nat ∧ length encs = length exprs).
  { intros j encs Hj.
    destruct (Forall2_lookup_r _ _ _ _ _ HR Hj) as (row & Hrow & Hencs).
    apply lookup_lt_Some in Hrow. apply Forall2_length in Hencs. lia. }
  induction k as [|k IH]; intros i w acc Hi Hids Hbufs Hacc Hpre.
  - rewrite drop_ge by lia. simpl. exists w, acc.
    repeat split; try done.
    intros j encs Hj. rewrite (Hpre j encs Hj).
    destruct (HRrow j encs Hj) as [_ Hl]. now rewrite take_ge by lia.
  - destruct (lookup_lt_is_Some_2 exprs i) as [expr Hexpr]; [lia|].
    destruct (Hdata i expr Hexpr) as (vexpr & id & c & Hvexpr & Hid & Hc & Hcol).
    rewrite (drop_S _ _ _ Hvexpr).
    set (f := fun j : nat => default [] (R !! j ≫= fun encs => encs !! i)).
    assert (Hf : ∀ j row, rows !! j = Some row → encodes expr row (f j)).
    { intros j row Hrow.
      destruct (Forall2_lookup_l _ _ _ _ _ HR Hrow) as (encs & Hencs & Hall).
      destruct (Forall2_lookup_l _ _ _ _ _ Hall Hexpr) as (enc & Henc & He).
      unfold f. rewrite Hencs; simpl. now rewrite Henc. }
    destruct (add_one_column_encodes Hsteady expr vexpr c rows f w Hcol Hf Hne Hbufs)
      as (T & bufs' & HT & Hrun & Hl & Hcells).
    cbn [append_block_loop].
    rewrite Hids, Hid. change (Ok id ≫= ?g) with (g id). cbv beta.
    rewrite Hc. change (Ok c ≫= ?g) with (g c). cbv beta.
    rewrite HT, Hrun. change (Ok ?x ≫= ?g) with (g x). cbv beta.
    cbn [fst snd ok _vec_buffers set_vec_buffers].
    rewrite rows_append_zip by lia.
    change (Ok ?x ≫= ?g) with (g x). cbv beta.
    replace (Z.of_nat i + 1) with (Z.of_nat (S i)) by lia.
    destruct (IH (S i) (set_vec_buffers bufs' w)
                (zip_with (fun r b => r ++ buf b) acc bufs'))
      as (w1 & acc' & Hloop & Hs & Hw & Hlen' & Hall);
      [lia|done|simpl; lia|rewrite length_zip_with; lia| |].
    + intros j encs Hj.
      destruct (HRrow j encs Hj) as [Hjlt Hl'].
      destruct (Hcells j Hjlt) as (bj & Hbj & Hbuf).
      rewrite lookup_zip_with, (Hpre j encs Hj), Hbj; simpl.
      destruct (lookup_lt_is_Some_2 encs i) as [enc Henc]; [lia|].
      rewrite (take_S_r _ _ _ Henc), concat_app; simpl.
      rewrite app_nil_r, Hbuf. unfold f. rewrite Hj; simpl. now rewrite Henc.
    + exists w1, acc'. done.
Qed.

(** The two paths agree on a batch.  For row buffers whose calls do not
    depend on what the buffer holds, and the same data in the two forms
    (the same values under the same types, all served by append_block, no
    decimal with an output scale): whenever the row-at-a-time path hands
    the sink a batch, the vectorized path, with the same sink and a buffer
    for each row, hands it the same batch, byte for byte, and returns the
    same status. *)
Theorem paths_agree_on_a_batch
    (rows : RowBatch) (block : Block) (wr wr' wv : @MysqlResultWriter B)
    (s : BufferControlBlock) (status : Status) (result : TFetchDataResult) :
  @steady_buffers B _ →
  same_data (_output_expr_ctxs wr) (_output_vexpr_ctxs wv) (_result_column_ids wv)
    block rows →
  block_rows block = Z.of_nat (length rows) →
  _is_vec wr = false →
  _sinker wr = Some s → _sinker wv = Some s →
  Z.of_nat (length rows) ≤ pod_size (_vec_buffers wv) →
  append_row_batch add_batch_status convert_to_vec_block execute (Some rows) wr
  = Ok (status, wr') →
  sink_log wr' = handed s ++ [result] →
  ∃ wv', append_block add_batch_status block wv = Ok (status, wv') ∧
         sink_log wv' = handed s ++ [result].
Proof.
  intros Hsteady Hdata Hrows Hvec Hsr Hsv Hbufs Hrun Hlog.
  assert (Hgrow : ∀ l : list TFetchDataResult, l ≠ l ++ [result]).
  { intros l Hl. apply (f_equal length) in Hl.
    rewrite length_app in Hl. simpl in Hl. lia. }
  unfold append_row_batch in Hrun. rewrite Hvec in Hrun.
  destruct rows as [|row rows'].
  { injection Hrun as <- <-. unfold sink_log in Hlog. rewrite Hsr in Hlog.
    now destruct (Hgrow _ Hlog). }
  set (rows := row :: rows') in *.
  destruct (append_rows_loop rows 0 wr _) as [[[st w1] res]| |] eqn:Hloop;
    simpl in Hrun; try discriminate.
  apply append_rows_loop_spec in Hloop as (Hs & He & Hw & Hres);
    [|now rewrite length_replicate].
  destruct (ok st) eqn:Hok.
  2:{ injection Hrun as <- <-. unfold sink_log in Hlog.
      rewrite Hs, Hsr in Hlog. now destruct (Hgrow _ Hlog). }
  destruct st; [|discriminate].
  destruct (Hres eq_refl) as (_ & _ & Hconv). rewrite drop_0 in Hconv.
  rewrite Hs, Hsr in Hrun.
  assert (Hsent : status = add_batch_status s res ∧ res = result).
  { unfold add_batch in Hrun; simpl in Hrun.
    destruct (ok (add_batch_status s res)); injection Hrun as <- <-;
      unfold sink_log in Hlog; simpl in Hlog;
      apply app_inv_head in Hlog; injection Hlog as <-; done. }
  destruct Hsent as [-> ->].
  destruct (row_encodings _ _ _ Hsteady Hconv) as (R & HR & ->).
  destruct (append_block_loop_encodes _ _ _ _ _ R Hsteady Hdata ltac:(done) HR
              (length (_output_expr_ctxs wr)) 0%nat wv
              (replicate (length rows) []))
    as (w2 & acc' & Hloop & Hs2 & Hw2 & Hlen & Hall).
  { lia. } { done. } { unfold pod_size in Hbufs. lia. }
  { apply length_replicate. }
  { intros j encs Hj. change (concat (take 0 encs)) with (@nil byte).
    apply lookup_replicate_2.
    destruct (Forall2_lookup_r _ _ _ _ _ HR Hj) as (r & Hr & _).
    now apply lookup_lt_Some in Hr. }
  assert (Hacc : acc' = @concat byte <$> R).
  { apply list_eq. intros j. rewrite list_lookup_fmap.
    destruct (R !! j) as [encs|] eqn:Hj; simpl.
    - now apply Hall.
    - apply lookup_ge_None_2. apply lookup_ge_None_1 in Hj.
      apply Forall2_length in HR. lia. }
  subst acc'.
  rewrite drop_0 in Hloop. change (Z.of_nat 0) with 0 in Hloop.
  unfold append_block.
  destruct (block_rows block =? 0) eqn:E; [simpl in Hrows; lia|].
  rewrite Hrows, Nat2Z.id, Hloop.
  change (Ok ?x ≫= ?g) with (g x). cbv beta iota.
  cbn [ok]. rewrite Hs2, Hsv.
  unfold add_batch; simpl.
  destruct (ok (add_batch_status s (@concat byte <$> R)));
    eexists; (split; [reflexivity|]); reflexivity.
Qed.
End batch_theorem.

Lemma roomy_put_steady (enc : list byte) :
  @steady (list byte) roomy_buffers (roomy (SpecRowBuffer.put enc)).
Proof. exists 0, enc. intros b. split; [reflexivity|]. intros _. reflexivity. Qed.

Lemma roomy_buffers_steady : @steady_buffers (list byte) roomy_buffers.
Proof.
  split; [done|].
  repeat split; try (intros v; apply roomy_put_steady); try apply roomy_put_steady.
  intros [mem|] len; cbn [push_string roomy_buffers unbounded_buffers SpecRowBuffer.ops];
    unfold SpecRowBuffer.put_string.
  - destruct ((0 <=? len) && (len <=? pod_size mem)).
    + apply roomy_put_steady.
    + exists (-1), []. intros b. split; [reflexivity|]. intros Hs. discriminate Hs.
  - exists (-1), []. intros b. split; [reflexivity|]. intros Hs. discriminate Hs.
Qed.

Lemma paths_agree_on_a_batch_witness :
  ∃ status wr' wv',
    let result := [[x01; x35; x02; x61; x62]; [xfb; x00]] in
    @append_row_batch _ roomy_buffers run_renderers accepting_sink no_convert
      no_execute (Some pair_rows) pair_row_writer = Ok (status, wr') ∧
    sink_log wr' = [result] ∧
    @append_block _ roomy_buffers run_renderers accepting_sink pair_block
      pair_vec_writer = Ok (status, wv') ∧
    sink_log wv' = [result].
Proof.
  destruct (@append_row_batch _ roomy_buffers run_renderers accepting_sink
              no_convert no_execute (Some pair_rows) pair_row_writer)
    as [[status wr']| |] eqn:Hrun; [|vm_compute in Hrun; discriminate ..].
  assert (Hlog : @sink_log (list byte) wr'
                 = handed (mkBufferControlBlock [])
                   ++ [[[x01; x35; x02; x61; x62]; [xfb; x00]]]).
  { vm_compute in Hrun. injection Hrun as <- <-. reflexivity. }
  assert (Hdata : same_data (_output_expr_ctxs pair_row_writer)
                    (_output_vexpr_ctxs pair_vec_writer)
                    (_result_column_ids pair_vec_writer) pair_block pair_rows).
  { split; [reflexivity|].
    intros [|[|i]] expr Hexpr; [| |discriminate Hexpr];
      injection Hexpr as <-; eexists _, _, _;
      (split; [reflexivity|]); (split; [reflexivity|]); (split; [reflexivity|]);
      (split; [reflexivity|]); (split; [eexists; reflexivity|]);
      (split; [reflexivity|]); (split; [reflexivity|]);
      (intros [|[|j]] row Hrow; [| |discriminate Hrow]);
      injection Hrow as <-.
    - eexists _, _. split; [reflexivity|]. split; [reflexivity|].
      eexists. split; reflexivity.
    - eexists _, _. split; [reflexivity|]. split; reflexivity.
    - eexists. split; reflexivity.
    - eexists. split; reflexivity. }
  destruct (@paths_agree_on_a_batch (list byte) roomy_buffers run_renderers
              accepting_sink no_convert no_execute pair_rows pair_block
              pair_row_writer wr' pair_vec_writer (mkBufferControlBlock [])
              status [[x01; x35; x02; x61; x62]; [xfb; x00]]
              roomy_buffers_steady Hdata eq_refl eq_refl eq_refl eq_refl
              ltac:(vm_compute; discriminate) Hrun Hlog)
    as (wv' & Hvec & Hlogv).
  exists status, wr', wv'. cbv zeta. done.
Defined.

(** ** readline_use.h: the fallback readline *)

Section readline_facts.
Import Readline.

Lemma span_until_found stop pre post :
  stop ∉ pre → span_until stop (pre ++ stop :: post) = (pre, stop :: post).
Proof.
  induction pre as [|b pre IH]; intros Hpre; simpl.
  - now rewrite Byte.byte_dec_lb.
  - apply not_elem_of_cons in Hpre as [Hb Hpre].
    destruct (Byte.eqb b stop) eqn:E.
    + apply Byte.byte_dec_bl in E. congruence.
    + now rewrite IH.
Qed.

Lemma span_until_absent stop l : stop ∉ l → span_until stop l = (l, []).
Proof.
  induction l as [|b l IH]; intros Hl; simpl; [done|].
  apply not_elem_of_cons in Hl as [Hb Hl].
  destruct (Byte.eqb b stop) eqn:E.
  - apply Byte.byte_dec_bl in E. congruence.
  - now rewrite IH.
Qed.

Lemma good_bits s :
  good s = true → eofbit s = false ∧ failbit s = false ∧ badbit s = false.
Proof.
  unfold good. destruct (eofbit s), (failbit s), (badbit s); simpl; try discriminate.
  done.
Qed.

Lemma readline_line prompt s line rest :
  good s = true → input s = line ++ newline :: rest → newline ∉ line →
  readline prompt s
  = (Some (strdup line), mk rest false false false (output s ++ prompt)).
Proof.
  intros Hgood Hin Hline.
  destruct (good_bits s Hgood) as (He & Hf & Hb).
  unfold readline, getline, put_prompt, good; simpl.
  rewrite He, Hf, Hb, Hin; simpl.
  rewrite span_until_found by done; simpl.
  reflexivity.
Qed.

Lemma readline_not_good prompt s :
  good s = false →
  readline prompt s
  = (None, mk (input s) (eofbit s) true (badbit s) (output s ++ prompt)).
Proof.
  intros Hgood. unfold readline, getline.
  assert (H : good (put_prompt prompt s) = false) by exact Hgood.
  rewrite H; simpl.
  unfold good; simpl. now rewrite andb_false_r.
Qed.

Lemma readline_no_newline prompt s :
  good s = true → newline ∉ input s →
  readline prompt s
  = (None, mk [] true (bool_decide (input s = [])) false (output s ++ prompt)).
Proof.
  intros Hgood Hin.
  destruct (good_bits s Hgood) as (He & Hf & Hb).
  unfold readline, getline.
  assert (H : good (put_prompt prompt s) = true) by exact Hgood.
  rewrite H; simpl.
  rewrite span_until_absent by done; simpl.
  unfold good; simpl. rewrite Hf, Hb.
  now destruct (input s).
Qed.
End readline_facts.

(** readline gives the next line of the input: with the streams in good
    state and a newline in what is left to read, it writes the prompt,
    takes the bytes before the first newline and the newline itself and
    returns a copy of those bytes, which ends before a zero byte if the
    line has one. *)
Theorem readline_returns_the_next_line
    (prompt line rest : list byte) (s : Readline.io) :
  Readline.good s = true →
  Readline.input s = line ++ Readline.newline :: rest →
  Readline.newline ∉ line →
  ∃ s', Readline.readline prompt s = (Some (Readline.strdup line), s') ∧
        Readline.input s' = rest ∧
        Readline.good s' = true ∧
        Readline.output s' = Readline.output s ++ prompt ∧
        (x00 ∉ line → Readline.strdup line = line) ∧
        (∀ pre post, line = pre ++ x00 :: post → x00 ∉ pre →
                     Readline.strdup line = pre).
Proof.
  intros Hgood Hin Hline.
  eexists; split; [exact (readline_line prompt s line rest Hgood Hin Hline)|].
  simpl. repeat split.
  - intros H. unfold Readline.strdup. now rewrite span_until_absent.
  - intros pre post -> H. unfold Readline.strdup. now rewrite span_until_found.
Qed.

Lemma readline_returns_the_next_line_witness :
  let s := Readline.mk [x68; x69; x0a; x79; x6f] false false false [] in
  ∃ s', Readline.readline [x3e; x20] s = (Some (Readline.strdup [x68; x69]), s') ∧
        Readline.input s' = [x79; x6f] ∧
        Readline.good s' = true ∧
        Readline.output s' = Readline.output s ++ [x3e; x20] ∧
        (x00 ∉ [x68; x69] → Readline.strdup [x68; x69] = [x68; x69]) ∧
        (∀ pre post, [x68; x69] = pre ++ x00 :: post → x00 ∉ pre →
                     Readline.strdup [x68; x69] = pre).
Proof.
  intros s.
  apply (readline_returns_the_next_line [x3e; x20] [x68; x69] [x79; x6f] s).
  - reflexivity.
  - reflexivity.
  - intros H. repeat (apply elem_of_cons in H as [H|H]; [discriminate|]).
    now apply elem_of_nil in H.
Defined.

(** The last line is lost when no newline ends it: with no newline in
    what is left to read, readline takes all of it, returns nullptr, and
    leaves std::cin at end of file, so that every later call returns
    nullptr too.  A call on a stream that is not good reads nothing. *)
Theorem readline_drops_an_unterminated_line
    (prompt : list byte) (s : Readline.io) :
  Readline.good s = true →
  Readline.newline ∉ Readline.input s →
  ∃ s', Readline.readline prompt s = (None, s') ∧
        Readline.input s' = [] ∧
        Readline.eofbit s' = true ∧
        Readline.output s' = Readline.output s ++ prompt ∧
        ∀ p, ∃ s'', Readline.readline p s' = (None, s'') ∧
                    Readline.input s'' = [] ∧ Readline.good s'' = false.
Proof.
  intros Hgood Hin.
  eexists; split; [exact (readline_no_newline prompt s Hgood Hin)|].
  simpl. repeat split.
  intros p. eexists; split; [now apply readline_not_good|].
  simpl. done.
Qed.

Lemma readline_drops_an_unterminated_line_witness :
  let s := Readline.mk [x62; x79; x65] false false false [] in
  ∃ s', Readline.readline [x3e] s = (None, s') ∧
        Readline.input s' = [] ∧
        Readline.eofbit s' = true ∧
        Readline.output s' = Readline.output s ++ [x3e] ∧
        ∀ p, ∃ s'', Readline.readline p s' = (None, s'') ∧
                    Readline.input s'' = [] ∧ Readline.good s'' = false.
Proof.
  intros s.
  apply (readline_drops_an_unterminated_line [x3e] s).
  - reflexivity.
  - intros H. repeat (apply elem_of_cons in H as [H|H]; [discriminate|]).
    now apply elem_of_nil in H.
Defined.

(** A caller that reads until nullptr gets back the lines of a text: for
    lines with no newline and no zero byte in them, each followed by a
    newline, and whatever follows the last newline, the calls return the
    lines in order and then nullptr; what followed the last newline is not
    returned.  The prompt is written once for each call. *)
Theorem read_lines_gives_the_lines
    (prompt tail : list byte) (lines : list (list byte)) (s : Readline.io) (n : nat) :
  Readline.good s = true →
  Readline.input s = Readline.unlines lines ++ tail →
  Forall (fun l => (Readline.newline ∉ l) ∧ (x00 ∉ l)) lines →
  Readline.newline ∉ tail →
  (length lines < n)%nat →
  (Readline.read_lines n prompt s).1 = lines ∧
  Readline.input (Readline.read_lines n prompt s).2 = [] ∧
  Readline.output (Readline.read_lines n prompt s).2
  = Readline.output s ++ concat (replicate (S (length lines)) prompt).
Proof.
  intros Hgood Hin Hlines Htail. revert s n Hgood Hin.
  induction Hlines as [|l lines [Hl Hz] _ IH]; intros s n Hgood Hin Hn.
  - destruct n as [|n]; [lia|]. simpl in *.
    rewrite readline_no_newline by (rewrite ?Hin; done). simpl.
    now rewrite app_nil_r.
  - destruct n as [|n]; [simpl in Hn; lia|].
    unfold Readline.unlines in Hin. simpl in Hin.
    rewrite <- !app_assoc in Hin. simpl in Hin.
    cbn [Readline.read_lines].
    rewrite (readline_line prompt s l _ Hgood Hin Hl).
    unfold Readline.strdup. rewrite span_until_absent by done.
    cbv zeta. cbn [fst snd].
    set (s' := Readline.mk _ _ _ _ _).
    destruct (IH s' n) as (H1 & H2 & H3);
      [reflexivity|reflexivity|simpl in Hn; lia|].
    rewrite H1, H2, H3. simpl.
    now rewrite <- !app_assoc.
Qed.

Lemma read_lines_gives_the_lines_witness :
  let s := Readline.mk [x61; x0a; x0a; x62; x63; x0a; x64] false false false [] in
  (Readline.read_lines 5 [x3e] s).1 = [[x61]; []; [x62; x63]] ∧
  Readline.input (Readline.read_lines 5 [x3e] s).2 = [] ∧
  Readline.output (Readline.read_lines 5 [x3e] s).2
  = Readline.output s ++ concat (replicate (S (length [[x61]; []; [x62; x63]])) [x3e]).
Proof.
  intros s.
  apply (read_lines_gives_the_lines [x3e] [x64] [[x61]; []; [x62; x63]] s 5).
  - reflexivity.
  - reflexivity.
  - repeat constructor; intros H;
      repeat (apply elem_of_cons in H as [H|H]; [discriminate|]);
      now apply elem_of_nil in H.
  - intros H. repeat (apply elem_of_cons in H as [H|H]; [discriminate|]).
    now apply elem_of_nil in H.
  - simpl; lia.
Defined.
